(** * Mesh-to-mesh field transfer and the InfHex8 cell of libMesh

    A shallow embedding of three parts of the repository:

    - [src/src/geom/cell_inf_hex8.C]: the infinite hexahedron [InfHex8],
      its [contains_point] test, its refinement table
      [_embedding_matrix], its tables of sides and edges and the
      functions that read them;
    - the mesh comparison driver (its [main]): the cached point locator in
      front of the octree, the quadrature-driven error pass and the
      nodal-difference pass;
    - [src/contrib/netcdf/4.4.1.1/libdispatch/ncsettings.hdr]: the reader
      of the settings text of the bundled netCDF library.

    [Real] and [Number] are C++ [double] in the default (real-valued)
    configuration of the library; they are embedded as Rocq's primitive
    binary64 floats, so every sum below is taken in the order the loops
    take it.  [unsigned int] is embedded as [Z] with the reduction modulo
    [2^32] written out where the source computes an index. *)

From Stdlib Require Import Ascii String ZArith List Bool Lia QArith.
From Stdlib Require Import Floats.
Import ListNotations.

Set Warnings "-inexact-float".
Local Open Scope Z_scope.

(** ** Numbers and points *)

(** [Real] of the library: an IEEE 754 binary64 number. *)
Definition Real : Set := float.

(** [std::min (a, b)]: [(b < a) ? b : a]. *)
Definition std_min (a b : Real) : Real :=
  if PrimFloat.ltb b a then b else a.

(** Reduction of a value to [unsigned int] (32 bits). *)
Definition wrap32 (z : Z) : Z := z mod 2 ^ 32.

(** A [Point] of the library in three space dimensions: its coordinates. *)
Record Point : Set := mkPoint { px : Real; py : Real; pz : Real }.

Definition zero : Real := 0%float.
Definition point_zero : Point := mkPoint zero zero zero.

(** The place of a number that is no NaN in the order of the numbers:
    its class (the infinities, the negative and the positive numbers,
    zero), then its exponent and its mantissa. *)
Definition order_key (x : spec_float) : Z * Z * Z :=
  match x with
  | S754_zero _ => (0, 0, 0)
  | S754_infinity true => (-2, 0, 0)
  | S754_infinity false => (2, 0, 0)
  | S754_nan => (0, 0, 0)
  | S754_finite true m e => (-1, - e, - Z.pos m)
  | S754_finite false m e => (1, e, Z.pos m)
  end.

Definition key_lt (a b : Z * Z * Z) : Prop :=
  fst (fst a) < fst (fst b)
  \/ (fst (fst a) = fst (fst b)
      /\ (snd (fst a) < snd (fst b)
          \/ (snd (fst a) = snd (fst b) /\ snd a < snd b))).

Definition key_le (a b : Z * Z * Z) : Prop := key_lt a b \/ a = b.

(** ** The infinite hexahedron, [cell_inf_hex8.C] *)

Module InfHex8.

(** The element types [FEInterface::on_reference_element] dispatches on;
    [InfHex8::type ()] is [INFHEX8]. *)
Inductive ElemType : Set := HEX8 | HEX27 | INFHEX8.

(** The calls [contains_point] makes into [FEInterface]. *)
Inductive FECall : Set :=
| CallInverseMap (p : Point) (tol : Real)
| CallOnReferenceElement (mapped_point : Point) (tol : Real).

(** An [InfHex8]: the coordinates of its eight nodes, [this->point (i)]. *)
Record Elem : Set := mkElem { points : list Point }.

Definition point (this : Elem) (i : nat) : Point :=
  nth i (points this) point_zero.

Section ContainsPoint.

(** What the function uses and this file of the source does not define:
    the element's [origin ()], the difference and the squared norm of
    points, and the two entries of [FEInterface]. *)
Variable origin : Elem -> Point.
Variable point_sub : Point -> Point -> Point.
Variable norm_sq : Point -> Real.
Variable inverse_map : Elem -> Point -> Real -> Point.
Variable on_reference_element : Point -> ElemType -> Real -> bool.

(** [min_distance_sq]: the nested [std::min] over the four base nodes. *)
Definition min_distance_sq (this : Elem) : Real :=
  let my_origin := origin this in
  std_min (norm_sq (point_sub (point this 0) my_origin))
    (std_min (norm_sq (point_sub (point this 1) my_origin))
       (std_min (norm_sq (point_sub (point this 2) my_origin))
          (norm_sq (point_sub (point this 3) my_origin)))).

(** [conservative_p_dist_sq]: the squared distance with 1% deviation. *)
Definition conservative_p_dist_sq (this : Elem) (p : Point) : Real :=
  (1.01 * norm_sq (point_sub p (origin this)))%float.

(** [InfHex8::contains_point (p, tol)], with the calls it makes into
    [FEInterface] in the order it makes them. *)
Definition contains_point (this : Elem) (p : Point) (tol : Real)
  : bool * list FECall :=
  if PrimFloat.ltb (conservative_p_dist_sq this p) (min_distance_sq this)
  then (false, [])
  else
    let mapped_point := inverse_map this p tol in
    (on_reference_element mapped_point INFHEX8 tol,
     [CallInverseMap p tol; CallOnReferenceElement mapped_point tol]).

(** The squared distances of the four base nodes from the origin. *)
Definition base_distances_sq (this : Elem) : list Real :=
  map (fun i => norm_sq (point_sub (point this i) (origin this)))
    [0%nat; 1%nat; 2%nat; 3%nat].

End ContainsPoint.

(** [InfHex8::_embedding_matrix[4][8][8]]: child, child node, parent node. *)
Definition _embedding_matrix : list (list (list float)) :=
  [ (* embedding matrix for child 0 *)
    [ [ 1.0;  0.0;  0.0;  0.0;  0.0;  0.0;  0.0;  0.0];
      [ 0.5;  0.5;  0.0;  0.0;  0.0;  0.0;  0.0;  0.0];
      [0.25; 0.25; 0.25; 0.25;  0.0;  0.0;  0.0;  0.0];
      [ 0.5;  0.0;  0.0;  0.5;  0.0;  0.0;  0.0;  0.0];
      [ 0.0;  0.0;  0.0;  0.0;  1.0;  0.0;  0.0;  0.0];
      [ 0.0;  0.0;  0.0;  0.0;  0.5;  0.5;  0.0;  0.0];
      [ 0.0;  0.0;  0.0;  0.0; 0.25; 0.25; 0.25; 0.25];
      [ 0.0;  0.0;  0.0;  0.0;  0.5;  0.0;  0.0;  0.5] ];
    (* embedding matrix for child 1 *)
    [ [ 0.5;  0.5;  0.0;  0.0;  0.0;  0.0;  0.0;  0.0];
      [ 0.0;  1.0;  0.0;  0.0;  0.0;  0.0;  0.0;  0.0];
      [ 0.0;  0.5;  0.5;  0.0;  0.0;  0.0;  0.0;  0.0];
      [0.25; 0.25; 0.25; 0.25;  0.0;  0.0;  0.0;  0.0];
      [ 0.0;  0.0;  0.0;  0.0;  0.5;  0.5;  0.0;  0.0];
      [ 0.0;  0.0;  0.0;  0.0;  0.0;  1.0;  0.0;  0.0];
      [ 0.0;  0.0;  0.0;  0.0;  0.0;  0.5;  0.5;  0.0];
      [ 0.0;  0.0;  0.0;  0.0; 0.25; 0.25; 0.25; 0.25] ];
    (* embedding matrix for child 2 *)
    [ [ 0.5;  0.0;  0.0;  0.5;  0.0;  0.0;  0.0;  0.0];
      [0.25; 0.25; 0.25; 0.25;  0.0;  0.0;  0.0;  0.0];
      [ 0.0;  0.0;  0.5;  0.5;  0.0;  0.0;  0.0;  0.0];
      [ 0.0;  0.0;  0.0;  1.0;  0.0;  0.0;  0.0;  0.0];
      [ 0.0;  0.0;  0.0;  0.0;  0.5;  0.0;  0.0;  0.5];
      [ 0.0;  0.0;  0.0;  0.0; 0.25; 0.25; 0.25; 0.25];
      [ 0.0;  0.0;  0.0;  0.0;  0.0;  0.0;  0.5;  0.5];
      [ 0.0;  0.0;  0.0;  0.0;  0.0;  0.0;  0.0;  1.0] ];
    (* embedding matrix for child 3 *)
    [ [0.25; 0.25; 0.25; 0.25;  0.0;  0.0;  0.0;  0.0];
      [ 0.0;  0.5;  0.5;  0.0;  0.0;  0.0;  0.0;  0.0];
      [ 0.0;  0.0;  1.0;  0.0;  0.0;  0.0;  0.0;  0.0];
      [ 0.0;  0.0;  0.5;  0.5;  0.0;  0.0;  0.0;  0.0];
      [ 0.0;  0.0;  0.0;  0.0; 0.25; 0.25; 0.25; 0.25];
      [ 0.0;  0.0;  0.0;  0.0;  0.0;  0.5;  0.5;  0.0];
      [ 0.0;  0.0;  0.0;  0.0;  0.0;  0.0;  1.0;  0.0];
      [ 0.0;  0.0;  0.0;  0.0;  0.0;  0.0;  0.5;  0.5] ] ]%float.

(** [_embedding_matrix[c][i]]: the row of child node [i] of child [c]. *)
Definition embedding_row (c i : nat) : list float :=
  nth i (nth c _embedding_matrix []) [].

(** The sum of a row as the machine takes it, left to right from zero. *)
Definition row_sum (row : list float) : float :=
  fold_left PrimFloat.add row 0%float.

(** The exact value of a finite float, as a rational. *)
Definition exact_value (x : float) : option Q :=
  match Prim2SF x with
  | S754_zero _ => Some 0%Q
  | S754_finite s m e =>
      let v := (inject_Z (Zpos m) * (2 ^ e))%Q in
      Some (if s then Qopp v else v)
  | _ => None
  end.

(** A rational is a binary32 number ([float], as the table is declared)
    when it is [m * 2^e] for an integer [|m| < 2^24] and an exponent
    [-149 <= e <= 104]; for the values of the table the exponents
    [-2 .. 0] are enough. *)
Definition binary32_exact (q : Q) : bool :=
  existsb (fun e : Z =>
     existsb (fun m : Z => Qeq_bool q (inject_Z m * 2 ^ e)%Q)
       [0; 1; 2; 3; 4])
    [-2; -1; 0].

(** The running sums of a row over the rationals, [None] when an entry is
    not finite. *)
Fixpoint partial_sums (acc : Q) (row : list float) : option (list Q) :=
  match row with
  | [] => Some []
  | x :: row' =>
      match exact_value x with
      | None => None
      | Some q =>
          match partial_sums (Qred (acc + q)) row' with
          | None => None
          | Some l => Some (Qred (acc + q) :: l)
          end
      end
  end.

(** One of the four values the table is made of. *)
Definition is_coefficient (x : float) : bool :=
  (PrimFloat.eqb x 0.0 || PrimFloat.eqb x 0.25
   || PrimFloat.eqb x 0.5 || PrimFloat.eqb x 1.0)%float.

(** A row of an affine combination, as one decidable check. *)
Definition row_affine (row : list float) : bool :=
  (length row =? 8)%nat
  && forallb is_coefficient row
  && PrimFloat.eqb (row_sum row) 1.0%float
  && match partial_sums 0%Q row with
     | None => false
     | Some sums =>
         forallb binary32_exact sums && Qeq_bool (last sums 0%Q) 1%Q
     end.

(** For the examples: points with their coordinates, and an element
    whose base face lies in the plane x = 1 around the origin, which is
    [2 * point (0) - point (4)]. *)
Definition point_sub3 (a b : Point) : Point :=
  mkPoint (px a - px b)%float (py a - py b)%float (pz a - pz b)%float.

Definition norm_sq3 (p : Point) : Real :=
  (px p * px p + py p * py p + pz p * pz p)%float.

Definition example_elem : Elem :=
  mkElem [mkPoint 1 (-1) (-1); mkPoint 1 1 (-1); mkPoint 1 1 1; mkPoint 1 (-1) 1;
          mkPoint 2 (-2) (-2); mkPoint 2 2 (-2); mkPoint 2 2 2; mkPoint 2 (-2) 2]%float.

Definition example_origin (this : Elem) : Point :=
  point_sub3
    (mkPoint (2 * px (point this 0)) (2 * py (point this 0))
             (2 * pz (point this 0)))%float
    (point this 4).

End InfHex8.


(** ** Meshes, fields and the finite element data the driver reads *)

(** An element of a mesh: the global numbers of its nodes, [node (i)],
    each an [unsigned int]. *)
Record Elem : Set := mkElem { elem_nodes : list Z }.

(** A mesh: its elements, [elem (e)], and its nodes, [point (n)]. *)
Record Mesh : Set := mkMesh { mesh_elems : list Elem; mesh_points : list Point }.

Definition n_elem (m : Mesh) : Z := Z.of_nat (length (mesh_elems m)).
Definition n_nodes (m : Mesh) : Z := Z.of_nat (length (mesh_points m)).
Definition elem_n_nodes (el : Elem) : Z := Z.of_nat (length (elem_nodes el)).

(** What a finite element object holds after [reinit (elem)]: [get_JxW ()],
    [get_xyz ()], [get_phi ()] and [n_shape_functions ()]. *)
Record FEData : Set := mkFE {
  fe_JxW : list Real;
  fe_xyz : list Point;
  fe_phi : list (list Real);
  fe_n_shape_functions : Z
}.

(** ** Runs of the driver: outcome and events *)

(** What a run does that can be seen from outside the loops: the lines it
    prints, the files it reads and writes, and its calls into the octree
    and into the coarse finite element object.  An element of the coarse
    mesh is named by its index [h] ([mesh_coarse.elem (h)]). *)
Inductive Event : Set :=
| EvStdout (line : string)
| EvStderr (line : string)
| EvReadMesh (path : string)
| EvReadSoln (path : string)
| EvOctreeBuild
| EvActiveBins (n : Z)
| EvFindElement (p : Point)
| EvReinit (h : Z)
| EvInverseMap (h : Z) (p : Point)
| EvShape (h : Z) (i : Z) (mapped_point : Point)
| EvComputedError (err : Real)
| EvWriteNodalData (name : string) (soln : list Real) (names : list string).

(** [Fatal]: the run was stopped by [error ()] or by a failed [assert].
    [Undefined]: the run read or wrote outside a vector, which the source
    leaves undefined. *)
Inductive Outcome (A : Type) : Type :=
| Done (a : A)
| Fatal
| Undefined.
Arguments Done {A} a.
Arguments Fatal {A}.
Arguments Undefined {A}.

(** A computation: its outcome and the events it produced, oldest first. *)
Definition M (A : Type) : Type := (Outcome A * list Event)%type.

Definition ret {A} (a : A) : M A := (Done a, []).

Definition bind {A B} (m : M A) (f : A -> M B) : M B :=
  match m with
  | (Done a, w) => let r := f a in (fst r, w ++ snd r)
  | (Fatal, w) => (Fatal, w)
  | (Undefined, w) => (Undefined, w)
  end.

Notation "x <- m ;; k" := (bind m (fun x => k))
  (at level 61, m at next level, right associativity).
Notation "m ;;; k" := (bind m (fun _ => k))
  (at level 61, right associativity).

Definition emit (ev : Event) : M unit := (Done tt, [ev]).
Definition fatal {A} : M A := (Fatal, []).
Definition undefined {A} : M A := (Undefined, []).

(** [assert (b)]. *)
Definition assert (b : bool) : M unit := if b then ret tt else fatal.

(** Modelled from the spec: the macro [error ()] of the library, which the
    sources do not hold; the spec has the run end in a fatal usage error. *)
Definition error : M unit := fatal.

(** [v[i]] read. *)
Definition vec_at {A} (v : list A) (i : Z) : M A :=
  if 0 <=? i then
    match nth_error v (Z.to_nat i) with
    | Some x => ret x
    | None => undefined
    end
  else undefined.

Fixpoint list_set {A} (v : list A) (n : nat) (x : A) : list A :=
  match v, n with
  | [], _ => []
  | _ :: v', O => x :: v'
  | y :: v', S n' => y :: list_set v' n' x
  end.

(** [v[i] = x]. *)
Definition vec_set {A} (v : list A) (i : Z) (x : A) : M (list A) :=
  if (0 <=? i) && (i <? Z.of_nat (length v))
  then ret (list_set v (Z.to_nat i) x)
  else undefined.

(** A loop whose body threads the state [s]. *)
Fixpoint foldM {S A} (body : S -> A -> M S) (l : list A) (s : S) : M S :=
  match l with
  | [] => ret s
  | x :: l' => s' <- body s x ;; foldM body l' s'
  end.

(** The values of the counter of [for (unsigned int i=0; i<n; i++)]. *)
Definition upto (n : Z) : list Z := map Z.of_nat (seq 0 (Z.to_nat n)).

(** [v[i]] where the index is known to be in range. *)
Definition znth {A} (v : list A) (i : Z) (d : A) : A := nth (Z.to_nat i) v d.

(** ** The driver *)

(** The cache slot and the state of the coarse finite element object:
    [coarse_element] is the remembered element, [fe_coarse] the element
    of the last [fe_coarse.reinit]. *)
Record Locator : Set := mkLocator { coarse_element : Z; fe_coarse : Z }.

(** The state of the nodal-difference loop. *)
Record NodalState : Set := mkNodal {
  nodal_locator : Locator;
  already_done : list bool;
  diff_solution : list Real
}.

Section External.

(** The collaborators the driver calls and the sources do not hold: the
    element's containment test, the octree, the finite element class with
    its quadrature rule, the readers and [atoi]. *)
Variable contains_point : Mesh -> Z -> Point -> bool.
Variable OctTree : Type.
Variable octree_build : Mesh -> Z -> OctTree.
Variable find_element : OctTree -> Point -> option Z.
Variable n_active_bins : OctTree -> Z.
Variable fe_reinit : Mesh -> Z -> FEData.
Variable inverse_map : Mesh -> Z -> Point -> Point.
Variable shape : Mesh -> Z -> Z -> Point -> Real.
Variable read_mesh : string -> Mesh.
Variable read_mgf_soln : Mesh -> string -> list Real * list string.
Variable atoi : string -> Z.

Section Transfer.

Variables mesh_coarse mesh_fine : Mesh.
Variables coarse_solution fine_solution : list Real.
Variables coarse_var_names fine_var_names : list string.
Variable ivar : Z.
Variable octree_coarse : OctTree.

(** Modelled from the spec: [mesh.elem (e)] of the library's [Mesh],
    which is not among the sources.  The spec names the elements of a
    mesh by their numbers; of a number that is none of an element it
    says nothing, and here the run stops there as undefined.  Nothing
    below is stated of what the library does on such a number. *)
Definition mesh_elem (m : Mesh) (e : Z) : M Z :=
  if (0 <=? e) && (e <? n_elem m) then ret e else undefined.

(** Lines 173-187 and 240-254: look in the remembered element first, search
    the octree only when the point is not there. *)
Definition locate (loc : Locator) (p : Point) : M Locator :=
  if contains_point mesh_coarse (coarse_element loc) p then ret loc
  else
    emit (EvFindElement p) ;;;
    match find_element octree_coarse p with
    | None => fatal
    | Some h => emit (EvReinit h) ;;; ret (mkLocator h h)
    end.

(** [coarse_element->node (i)]. *)
Definition coarse_node (h : Z) (i : Z) : M Z :=
  el <- vec_at (mesh_elems mesh_coarse) h ;;
  vec_at (elem_nodes el) i.

(** Lines 195-204 and 263-267: the coarse solution of variable [c] at
    [mapped_point], over the shape functions of the coarse element. *)
Definition interpolate (loc : Locator) (nv c : Z) (mapped_point : Point)
  : M Real :=
  foldM (fun coarse_soln i =>
           gn <- coarse_node (coarse_element loc) i ;;
           v <- vec_at coarse_solution (wrap32 (gn * nv + c)) ;;
           emit (EvShape (coarse_element loc) i mapped_point) ;;;
           ret (coarse_soln
                + v * shape mesh_coarse (coarse_element loc) i mapped_point)%float)
        (upto (fe_n_shape_functions (fe_reinit mesh_coarse (fe_coarse loc))))
        0%float.

(** Lines 161-167: the fine solution at Gauss point [gp]. *)
Definition fine_soln_at (fine_element : Elem) (fe : FEData) (gp : Z) : M Real :=
  foldM (fun fine_soln i =>
           let nv := wrap32 (Z.of_nat (length fine_var_names)) in
           gn <- vec_at (elem_nodes fine_element) i ;;
           v <- vec_at fine_solution (wrap32 (gn * nv + ivar)) ;;
           row <- vec_at (fe_phi fe) i ;;
           ph <- vec_at row gp ;;
           ret (fine_soln + v * ph)%float)
        (upto (fe_n_shape_functions fe))
        0%float.

(** Lines 155-208: the body of the loop over the Gauss points. *)
Definition gauss_point (fine_element : Elem) (fe : FEData)
    (st : Locator * Real) (gp : Z) : M (Locator * Real) :=
  assert (fe_n_shape_functions fe =? elem_n_nodes fine_element) ;;;
  fine_soln <- fine_soln_at fine_element fe gp ;;
  p <- vec_at (fe_xyz fe) gp ;;
  loc <- locate (fst st) p ;;
  emit (EvInverseMap (coarse_element loc) p) ;;;
  let mapped_point := inverse_map mesh_coarse (coarse_element loc) p in
  coarse_soln <- interpolate loc (wrap32 (Z.of_nat (length coarse_var_names)))
                   ivar mapped_point ;;
  w <- vec_at (fe_JxW fe) gp ;;
  ret (loc,
       (snd st + w * (coarse_soln - fine_soln) * (coarse_soln - fine_soln))%float).

(** Lines 145-212: the loop over the fine elements. *)
Definition error_pass (st : Locator * Real) : M (Locator * Real) :=
  foldM (fun st e =>
           fine_element <- vec_at (mesh_elems mesh_fine) e ;;
           let fe := fe_reinit mesh_fine e in
           foldM (gauss_point fine_element fe)
                 (upto (Z.of_nat (length (fe_xyz fe)))) st)
        (upto (n_elem mesh_fine)) st.

(** Lines 258-270: the loop over the variables at one node. *)
Definition node_differences (loc : Locator) (nv gn : Z) (mapped_point : Point)
    (diff : list Real) : M (list Real) :=
  foldM (fun diff c =>
           coarse_soln <- interpolate loc nv c mapped_point ;;
           fv <- vec_at fine_solution (wrap32 (gn * nv + c)) ;;
           vec_set diff (wrap32 (gn * nv + c)) (coarse_soln - fv)%float)
        (upto nv) diff.

(** Lines 234-271: what the loop does with the global number [gn] of a
    node. *)
Definition visit (nv : Z) (st : NodalState) (gn : Z) : M NodalState :=
  done <- vec_at (already_done st) gn ;;
  if done then ret st
  else
    marked <- vec_set (already_done st) gn true ;;
    p <- vec_at (mesh_points mesh_fine) gn ;;
    loc <- locate (nodal_locator st) p ;;
    emit (EvInverseMap (coarse_element loc) p) ;;;
    let mapped_point := inverse_map mesh_coarse (coarse_element loc) p in
    diff <- node_differences loc nv gn mapped_point (diff_solution st) ;;
    ret (mkNodal loc marked diff).

(** Lines 231-272: the body of the loop over the nodes of a fine element. *)
Definition node_step (nv : Z) (fine_element : Elem) (st : NodalState) (n : Z)
  : M NodalState :=
  gn <- vec_at (elem_nodes fine_element) n ;;
  visit nv st gn.

(** Lines 229-272: the loop over the fine elements and their nodes. *)
Definition nodal_pass (nv : Z) (st : NodalState) : M NodalState :=
  foldM (fun st e =>
           fine_element <- vec_at (mesh_elems mesh_fine) e ;;
           foldM (node_step nv fine_element)
                 (upto (elem_n_nodes fine_element)) st)
        (upto (n_elem mesh_fine)) st.

(** Lines 121-279: both passes and the output of their results. *)
Definition transfer : M unit :=
  (* Initial coarse element *)
  h0 <- mesh_elem mesh_coarse 0 ;;
  emit (EvReinit h0) ;;;
  st <- error_pass (mkLocator h0 h0, 0%float) ;;
  emit (EvComputedError (PrimFloat.sqrt (snd st))) ;;;
  (* the error at each node in the fine mesh *)
  let nv := wrap32 (Z.of_nat (length fine_var_names)) in
  h0' <- mesh_elem mesh_coarse 0 ;;
  nst <- nodal_pass nv
           (mkNodal (mkLocator h0' (fe_coarse (fst st)))
                    (repeat false (Z.to_nat (wrap32 (n_nodes mesh_fine))))
                    (repeat 0%float (length fine_solution))) ;;
  emit (EvWriteNodalData "foo.plt" (diff_solution nst) fine_var_names).

End Transfer.

Definition argv_at (argv : list string) (i : nat) : string := nth i argv ""%string.

(** [main (argc, argv)], with [argc] the length of [argv].  The call
    [libMesh::init (argc, argv)] of line 22, which is handed the whole
    command line and is not among the sources, and the calls of the
    performance log and of [print_info] are left out: nothing below is
    stated of what they do. *)
Definition main (argv : list string) : M unit :=
  (if Z.of_nat (length argv) <? 6 then
     emit (EvStderr ("Usage: " ++ argv_at argv 0
                     ++ " ivar m0.mesh m1.mesh s0.soln s1.soln")) ;;;
     error
   else ret tt) ;;;
  emit (EvStdout ("Reading Mesh " ++ argv_at argv 2)) ;;;
  emit (EvReadMesh (argv_at argv 2)) ;;;
  let mesh_coarse := read_mesh (argv_at argv 2) in
  emit (EvStdout ("Reading Mesh " ++ argv_at argv 3)) ;;;
  emit (EvReadMesh (argv_at argv 3)) ;;;
  let mesh_fine := read_mesh (argv_at argv 3) in
  emit (EvStdout ("Reading Soln " ++ argv_at argv 4)) ;;;
  emit (EvReadSoln (argv_at argv 4)) ;;;
  let coarse := read_mgf_soln mesh_coarse (argv_at argv 4) in
  emit (EvStdout ("Reading Soln " ++ argv_at argv 5)) ;;;
  emit (EvReadSoln (argv_at argv 5)) ;;;
  let fine := read_mgf_soln mesh_fine (argv_at argv 5) in
  assert (if list_eq_dec string_dec (snd fine) (snd coarse) then true else false) ;;;
  emit EvOctreeBuild ;;;
  let octree_coarse := octree_build mesh_coarse 100 in
  emit (EvActiveBins (n_active_bins octree_coarse)) ;;;
  transfer mesh_coarse mesh_fine (fst coarse) (fst fine) (snd coarse) (snd fine)
    (atoi (argv_at argv 1)) octree_coarse.

End External.

(** ** The topology of the infinite hexahedron, [cell_inf_hex8.C] *)

Module InfHex8Topology.

(** How a member function ends: with a value, at a failed
    [libmesh_assert], in [libmesh_error_msg], or with a read outside one
    of the two tables (which the source leaves undefined). *)
Inductive Result (A : Type) : Type :=
| Ok (a : A)
| AssertFails
| ErrorMsg (msg : string)
| OutOfTable.
Arguments Ok {A} a.
Arguments AssertFails {A}.
Arguments ErrorMsg {A} msg.
Arguments OutOfTable {A}.

(** [InfHex8::side_nodes_map[5][4]]. *)
Definition side_nodes_map : list (list N) :=
  [ [0; 1; 2; 3];   (* Side 0 *)
    [0; 1; 4; 5];   (* Side 1 *)
    [1; 2; 5; 6];   (* Side 2 *)
    [2; 3; 6; 7];   (* Side 3 *)
    [3; 0; 7; 4] ]%N.

(** [InfHex8::edge_nodes_map[8][2]]. *)
Definition edge_nodes_map : list (list N) :=
  [ [0; 1]; [1; 2]; [2; 3]; [0; 3];
    [0; 4]; [1; 5]; [2; 6]; [3; 7] ]%N.

(** [n_sides ()], [n_edges ()] and [n_sub_elem ()] of the class: the
    numbers of rows of the two tables, and one sub-element. *)
Definition n_sides : N := 5.
Definition n_edges : N := 8.
Definition n_sub_elem : N := 1.

Definition is_vertex (i : N) : bool := if (i <? 4)%N then true else false.

Definition is_edge (i : N) : bool := if (i <? 4)%N then false else true.

Definition is_face (i : N) : bool := false.

(** [libmesh_assert_less (a, b)] passes: always when assertions are
    compiled out ([dbg = false]), else when [a < b]. *)
Definition assert_less_passes (dbg : bool) (a b : N) : bool :=
  negb dbg || (a <? b)%N.

(** [table[r][c]]. *)
Definition table_at (table : list (list N)) (r c : N) : option N :=
  match nth_error table (N.to_nat r) with
  | Some row => nth_error row (N.to_nat c)
  | None => None
  end.

(** [for (i = 0; i != width; ++i) if (table[r][i] == n) return true;
    return false;], over the values [cols] of [i]. *)
Fixpoint scan_row (table : list (list N)) (r n : N) (cols : list N)
  : Result bool :=
  match cols with
  | [] => Ok false
  | i :: cols' =>
      match table_at table r i with
      | None => OutOfTable
      | Some x => if (x =? n)%N then Ok true else scan_row table r n cols'
      end
  end.

Definition is_node_on_side (dbg : bool) (n s : N) : Result bool :=
  if assert_less_passes dbg s n_sides
  then scan_row side_nodes_map s n [0; 1; 2; 3]%N
  else AssertFails.

Definition is_node_on_edge (dbg : bool) (n e : N) : Result bool :=
  if assert_less_passes dbg e n_edges
  then scan_row edge_nodes_map e n [0; 1]%N
  else AssertFails.

(** What the builders and [connectivity] read of the element: the node
    behind each of its node pointers, named by its id, and the
    subdomain. *)
Record Cell : Set := mkCell { node_id : N -> Z; subdomain_id : Z }.

Inductive SideType : Set := QUAD4 | INFQUAD4.
Inductive EdgeType : Set := EDGE2 | INFEDGE2.

(** A built side: a proxy [Side<T,InfHex8> (this, i)], or a new element
    of type [T] with its subdomain and its nodes set. *)
Inductive BuiltSide : Set :=
| SideProxy (type : SideType) (parent : Cell) (side : N)
| SideElem (type : SideType) (subdomain : Z) (nodes : list Z).

Inductive BuiltEdge : Set :=
| EdgeProxy (type : EdgeType) (parent : Cell) (edge : N).

Definition side_type (b : BuiltSide) : SideType :=
  match b with SideProxy t _ _ => t | SideElem t _ _ => t end.

(** The [switch (i)] of both branches of [build_side_ptr]. *)
Definition side_type_of (i : N) : option SideType :=
  match i with
  | 0%N => Some QUAD4
  | 1%N | 2%N | 3%N | 4%N => Some INFQUAD4
  | _ => None
  end.

(** [for (n = 0; n < face->n_nodes (); ++n)
      face->set_node (n) = this->node_ptr (side_nodes_map[i][n]);]
    over the values [ns] of [n]; a side of either type has four nodes. *)
Fixpoint set_side_nodes (this : Cell) (i : N) (ns : list N) : Result (list Z) :=
  match ns with
  | [] => Ok []
  | n :: ns' =>
      match table_at side_nodes_map i n with
      | None => OutOfTable
      | Some k =>
          match set_side_nodes this i ns' with
          | Ok l => Ok (node_id this k :: l)
          | AssertFails => AssertFails
          | ErrorMsg m => ErrorMsg m
          | OutOfTable => OutOfTable
          end
      end
  end.

Definition build_side_ptr (dbg : bool) (this : Cell) (i : N) (proxy : bool)
  : Result BuiltSide :=
  if assert_less_passes dbg i n_sides then
    match side_type_of i with
    | None => ErrorMsg "Invalid side i"
    | Some t =>
        if proxy then Ok (SideProxy t this i)
        else
          match set_side_nodes this i [0; 1; 2; 3]%N with
          | Ok l => Ok (SideElem t (subdomain_id this) l)
          | AssertFails => AssertFails
          | ErrorMsg m => ErrorMsg m
          | OutOfTable => OutOfTable
          end
    end
  else AssertFails.

Definition build_edge_ptr (dbg : bool) (this : Cell) (i : N) : Result BuiltEdge :=
  if assert_less_passes dbg i n_edges then
    if (i <? 4)%N then Ok (EdgeProxy EDGE2 this i)
    else Ok (EdgeProxy INFEDGE2 this i)
  else AssertFails.

(** The packages the function names; any other one is [OtherPackage]. *)
Inductive IOPackage : Set :=
| TECPLOT
| INVALID_IO_PACKAGE
| OtherPackage (tag : N).

(** [conn.resize (n)]: the first [n] entries, zeros where there were
    none. *)
Fixpoint resize (conn : list Z) (n : nat) : list Z :=
  match n with
  | O => []
  | S n' =>
      match conn with
      | [] => 0 :: resize [] n'
      | x :: conn' => x :: resize conn' n'
      end
  end.

(** [conn[k] = x]. *)
Fixpoint assign (conn : list Z) (k : nat) (x : Z) : list Z :=
  match conn, k with
  | [], _ => []
  | _ :: conn', O => x :: conn'
  | y :: conn', S k' => y :: assign conn' k' x
  end.

(** [InfHex8::connectivity (sc, iop, conn)]: the value of [conn] on
    return.  [dof_id_type] is an unsigned 32 bit integer. *)
Definition connectivity (dbg : bool) (this : Cell) (sc : N) (iop : IOPackage)
    (conn : list Z) : Result (list Z) :=
  if assert_less_passes dbg sc n_sub_elem then
    match iop with
    | INVALID_IO_PACKAGE =>
        if dbg then AssertFails else ErrorMsg "Unsupported IO package"
    | TECPLOT =>
        let conn := resize conn 8 in
        let conn := assign conn 0 (wrap32 (node_id this 0 + 1)) in
        let conn := assign conn 1 (wrap32 (node_id this 1 + 1)) in
        let conn := assign conn 2 (wrap32 (node_id this 2 + 1)) in
        let conn := assign conn 3 (wrap32 (node_id this 3 + 1)) in
        let conn := assign conn 4 (wrap32 (node_id this 4 + 1)) in
        let conn := assign conn 5 (wrap32 (node_id this 5 + 1)) in
        let conn := assign conn 6 (wrap32 (node_id this 6 + 1)) in
        let conn := assign conn 7 (wrap32 (node_id this 7 + 1)) in
        Ok conn
    | OtherPackage _ => ErrorMsg "Unsupported IO package"
    end
  else AssertFails.

End InfHex8Topology.

(** ** The settings of the bundled netCDF library, [ncsettings.hdr] *)

Module NcSettings.

(** The characters of a C string, without the NUL that ends it. *)
Definition cstr : Set := list ascii.

Definition NUL : ascii := "000"%char.
Definition TAB : ascii := "009"%char.
Definition LF : ascii := "010"%char.
Definition CR : ascii := "013"%char.
Definition blank : ascii := " "%char.
Definition colon : ascii := ":"%char.

(** How a function ends: it returns; or [parseline] returns 0 (after an
    [fprintf] whose format asks for a string the call does not pass);
    or a scan steps before the start of its buffer; or [strcpy] is
    called on two strings that overlap; or a slot of the map is read
    that was never set.  The source leaves the last three undefined. *)
Inductive Result (A : Type) : Type :=
| Returns (a : A)
| Malformed
| ReadsOutside
| Overlaps
| Unset.
Arguments Returns {A} a.
Arguments Malformed {A}.
Arguments ReadsOutside {A}.
Arguments Overlaps {A}.
Arguments Unset {A}.

Definition and_then {A B} (r : Result A) (f : A -> Result B) : Result B :=
  match r with
  | Returns a => f a
  | Malformed => Malformed
  | ReadsOutside => ReadsOutside
  | Overlaps => Overlaps
  | Unset => Unset
  end.

(** The legal leading key characters. *)
Definition KEYCHARS1 : cstr :=
  list_ascii_of_string
    "abcdefghijklmnopqrstuvwxyzABCDEFGHIJKLMNOPQRSTUVWXYZ0123456789$_.".

(** [strchr (s, c)] for a [c] other than NUL: the index of the first
    [c] in [s], [None] for a null pointer. *)
Fixpoint strchr (s : cstr) (c : ascii) : option nat :=
  match s with
  | [] => None
  | x :: s' =>
      if Ascii.eqb x c then Some O
      else match strchr s' c with
           | Some i => Some (S i)
           | None => None
           end
  end.

(** The string at [r]: the characters up to the first NUL of the
    buffer. *)
Fixpoint c_string (r : list ascii) : cstr :=
  match r with
  | [] => []
  | c :: r' => if Ascii.eqb c NUL then [] else c :: c_string r'
  end.

(** [for (; (c = *p); p++) if (c != ' ') break;] and
    [for (p = r + 1; ; p++) if (p[0] != ' ') break;]: the string at the
    [p] the loop ends with. *)
Fixpoint skip_blanks (p : cstr) : cstr :=
  match p with
  | [] => []
  | c :: p' => if Ascii.eqb c blank then skip_blanks p' else p
  end.

(** Steps 1 and 2 of [preprocess]: what the loop over the text, up to
    its NUL, writes to [dup], and [nlines]. *)
Fixpoint convert (text : list ascii) : list ascii * nat :=
  match text with
  | [] => ([], O)
  | c :: text' =>
      if Ascii.eqb c NUL then ([], O)
      else
        let (d, n) := convert text' in
        if Ascii.eqb c CR || Ascii.eqb c TAB then (blank :: d, n)
        else if Ascii.eqb c LF then (NUL :: d, S n)
        else (c :: d, n)
  end.

(** [lines[i] = r; r += strlen (r); r++;] for [nlines] lines. *)
Fixpoint take_lines (nlines : nat) (r : list ascii) : list cstr :=
  match nlines with
  | O => []
  | S n =>
      let line := c_string r in
      line :: take_lines n (skipn (S (length line)) r)
  end.

(** [while ((c = *(--q))) if (c != ' ') break;  q++;] with [q] at index
    [q] of [line]: the index the loop and the increment leave [q] at.
    Before the first line lies the start of [dup]; before every other
    line lies the NUL that ends the line before it. *)
Fixpoint scan_back (first : bool) (line : cstr) (q : nat) : option nat :=
  match q with
  | O => if first then None else Some O
  | S q' =>
      if Ascii.eqb (nth q' line NUL) blank then scan_back first line q'
      else Some q
  end.

(** Step 3 of [preprocess] for one line.  [strcpy (line, p)] copies the
    string at [p] and its NUL, [strlen (p) + 1] characters, to [line]:
    with [p] at [line] the line is left as it is; with [p] further on,
    over [k] leading blanks, the two strings overlap unless [k] is more
    than [strlen (p)].  Then the line is cut after its last character
    that is no blank. *)
Definition strip (first : bool) (line : cstr) : Result cstr :=
  let p := skip_blanks line in
  let k := (length line - length p)%nat in
  if (0 <? k)%nat && (k <=? length p)%nat then Overlaps
  else
    match scan_back first p (length p) with
    | Some q => Returns (firstn q p)
    | None => ReadsOutside
    end.

Fixpoint strip_lines (first : bool) (lines : list cstr) : Result (list cstr) :=
  match lines with
  | [] => Returns []
  | line :: lines' =>
      and_then (strip first line) (fun l =>
      and_then (strip_lines false lines') (fun ls =>
      Returns (l :: ls)))
  end.

(** [preprocess ()]: the lines of the text. *)
Definition preprocess (text : list ascii) : Result (list cstr) :=
  let (dup, nlines) := convert text in
  strip_lines true (take_lines nlines dup).

Definition iskeyline (line : cstr) : bool :=
  match line with
  | [] => false
  | c :: _ =>
      if Ascii.eqb c "#"%char || Ascii.eqb c blank then false
      else match strchr KEYCHARS1 c with
           | None => false
           | Some _ => true
           end
  end.

(** [for (p = r; p != line; p--) if (p[0] != ' ') break;] with [p] at
    index [p] of [line]: the index the loop ends with. *)
Fixpoint back_up (line : cstr) (p : nat) : nat :=
  match p with
  | O => O
  | S p' => if Ascii.eqb (nth p line NUL) blank then back_up line p' else p
  end.

(** [for (; q[0] == ' '; q--);] with [q] at index [q] of [value]:
    the index the loop ends with, [None] when it leaves the string. *)
Fixpoint back_over_blanks (value : cstr) (q : nat) : option nat :=
  match q with
  | O => if Ascii.eqb (nth O value NUL) blank then None else Some O
  | S q' =>
      if Ascii.eqb (nth q value NUL) blank then back_over_blanks value q'
      else Some q
  end.

(** [parseline (line, keypos)]: the key and the value it puts at
    [map[keypos]] and [map[keypos+1]]. *)
Definition parseline (line : cstr) : Result (cstr * cstr) :=
  (* find colon ending of the key *)
  match strchr line colon with
  | None => Malformed
  | Some r =>
      (* back up from the colon to the first non-blank *)
      let p := back_up line r in
      if (p =? 0)%nat then Malformed (* empty key *)
      else
        let key := firstn p line in
        (* skip post ':' blanks *)
        let p := skip_blanks (skipn (S r) line) in
        match p with
        | [] => Returns (key, []) (* empty value *)
        | _ :: _ =>
            match back_over_blanks p (length p - 1) with
            | Some q => Returns (key, firstn (S q) p)
            | None => ReadsOutside
            end
        end
  end.

(** The map [parse ()] allocates, with room for the pairs of all the
    key lines and the null that ends it: the pairs stored, in the order
    they are appended, and the number of pairs of slots after them that
    were never set.  ([malloc] is taken to succeed.) *)
Record Map : Set := mkMap { stored : list (cstr * cstr); unset : nat }.

(** The count of the key lines, the first loop of [parse ()]. *)
Definition nkeys (lines : list cstr) : nat := length (filter iskeyline lines).

(** The second loop of [parse ()] over the lines.  Where [parseline]
    returns 0, [parse] returns: the slots of that key line and of the
    key lines after it stay unset. *)
Fixpoint parse_lines (lines : list cstr) : Result Map :=
  match lines with
  | [] => Returns (mkMap [] O)
  | line :: lines' =>
      if iskeyline line then
        match parseline line with
        | Returns kv =>
            and_then (parse_lines lines') (fun m =>
            Returns (mkMap (kv :: stored m) (unset m)))
        | Malformed => Returns (mkMap [] (nkeys lines))
        | ReadsOutside => ReadsOutside
        | Overlaps => Overlaps
        | Unset => Unset
        end
      else parse_lines lines'
  end.

Definition parse (text : list ascii) : Result Map :=
  and_then (preprocess text) parse_lines.

(** [tolower] of the C locale. *)
Definition tolower (c : ascii) : ascii :=
  if Ascii.leb "A"%char c && Ascii.leb c "Z"%char
  then ascii_of_nat (nat_of_ascii c + 32)
  else c.

(** [strcasecmp (a, b) == 0]. *)
Fixpoint strcasecmp_eq (a b : cstr) : bool :=
  match a, b with
  | [], [] => true
  | x :: a', y :: b' => Ascii.eqb (tolower x) (tolower y) && strcasecmp_eq a' b'
  | _, _ => false
  end.

(** [for (mapp = map; mapp[0] != NULL; mapp += 2)] of [nc_settings],
    over the pairs stored: the value of the first key that matches. *)
Fixpoint scan_map (map : list (cstr * cstr)) (key : cstr) : option cstr :=
  match map with
  | [] => None
  | (k, v) :: map' => if strcasecmp_eq k key then Some v else scan_map map' key
  end.

(** [nc_settings_all ()] on the settings text [text], with the static
    [map] ([None] for the null pointer): the map it returns, which it
    leaves in the static. *)
Definition nc_settings_all (text : list ascii) (map : option Map) : Result Map :=
  match map with
  | None => parse text
  | Some m => Returns m
  end.

(** [nc_settings (key)]: the value, [None] for the null pointer, and
    the static [map] on return.  When no stored key matches, the scan
    goes on to the slot after the pairs stored: the null that ends the
    map, or a slot that was never set. *)
Definition nc_settings (text : list ascii) (map : option Map) (key : cstr)
  : Result (option cstr * option Map) :=
  and_then (nc_settings_all text map) (fun m =>
  match scan_map (stored m) key with
  | Some v => Returns (Some v, Some m)
  | None => if (unset m =? 0)%nat then Returns (None, Some m) else Unset
  end).

(** [nc_settings_reclaim ()]: the static [map] on return. *)
Definition nc_settings_reclaim (map : option Map) : option Map := None.

(** For the examples: a settings text, whose last line no newline
    closes. *)
Definition example_lines : list ascii :=
  list_ascii_of_string "# NetCDF C Configuration Summary"
  ++ [LF; LF]
  ++ list_ascii_of_string "NetCDF Version:" ++ [TAB; TAB]
  ++ list_ascii_of_string "4.4.1.1" ++ [LF]
  ++ list_ascii_of_string "Install Prefix :  /usr/local  " ++ [CR; LF]
  ++ list_ascii_of_string "DAP Support:" ++ [LF].

Definition example_text : list ascii :=
  example_lines ++ list_ascii_of_string "Extra Libraries: -lm".

(** For the statements: strings of blanks, strings with no blank at
    either end, and the characters the conversion of [preprocess] leaves
    as they are. *)
Definition blanks (l : cstr) : Prop := Forall (fun c => c = blank) l.

Definition trimmed (l : cstr) : Prop :=
  (forall l', l <> blank :: l') /\ (forall l', l <> l' ++ [blank]).

Definition plain (c : ascii) : bool :=
  negb (Ascii.eqb c NUL || Ascii.eqb c LF || Ascii.eqb c CR || Ascii.eqb c TAB).

(** What steps 1 and 2 of [preprocess] make of a character that is
    neither NUL nor a newline. *)
Definition converted (c : ascii) : ascii :=
  if Ascii.eqb c CR || Ascii.eqb c TAB then blank else c.

(** The lines of a text, in words: the converted characters before each
    newline, up to the NUL that ends the text; [cur] is the part of the
    current line already read. *)
Fixpoint lines_from (cur : cstr) (text : list ascii) : list cstr :=
  match text with
  | [] => []
  | c :: text' =>
      if Ascii.eqb c NUL then []
      else if Ascii.eqb c LF then cur :: lines_from [] text'
      else lines_from (cur ++ [converted c]) text'
  end.

(** A settings text written from a list of keys and values: one line
    [key: value] for each, closed by a newline. *)
Definition settings_line (kv : cstr * cstr) : list ascii :=
  fst kv ++ colon :: blank :: snd kv ++ [LF].

Definition settings_text (kvs : list (cstr * cstr)) : list ascii :=
  concat (map settings_line kvs).

(** A key that can be written: it starts with a legal leading key
    character and holds no colon and no character the conversion
    changes.  A value that can be written: it holds none of these
    characters and has no blank at either end. *)
Definition writable_key (key : cstr) : bool :=
  iskeyline key
  && forallb (fun c => plain c && negb (Ascii.eqb c colon)) key.

Definition writable_value (value : cstr) : bool :=
  forallb plain value
  && negb (Ascii.eqb (hd NUL value) blank)
  && negb (Ascii.eqb (last value NUL) blank).

End NcSettings.

(** ** The octree *)

Module Trees.

(** Modelled from the spec: an axis-aligned bounding region, its two
    corners (the octree of the library is not among the sources). *)
Record BBox : Set := mkBBox { bb_min : Point; bb_max : Point }.

Definition bbox_contains (b : BBox) (p : Point) : bool :=
  (PrimFloat.leb (px (bb_min b)) (px p) && PrimFloat.leb (px p) (px (bb_max b))
   && PrimFloat.leb (py (bb_min b)) (py p) && PrimFloat.leb (py p) (py (bb_max b))
   && PrimFloat.leb (pz (bb_min b)) (pz p) && PrimFloat.leb (pz p) (pz (bb_max b)))%bool.

(** Modelled from the spec: a bin of the octree is a leaf holding element
    references in leaf-local order, or has exactly eight children. *)
Inductive Bin : Set :=
| Leaf (region : BBox) (elems : list Z)
| Internal (region : BBox) (c0 c1 c2 c3 c4 c5 c6 c7 : Bin).

Definition region (b : Bin) : BBox :=
  match b with
  | Leaf r _ => r
  | Internal r _ _ _ _ _ _ _ _ => r
  end.

(** Modelled from the spec: the descent of [find_element].  At a leaf the
    precise test [cp] is run on the candidates in leaf-local order and the
    first success is returned; at an internal bin every child whose region
    holds the point is explored, in order, until one yields an element. *)
Fixpoint find_in_bin (cp : Z -> Point -> bool) (b : Bin) (p : Point) : option Z :=
  match b with
  | Leaf _ es => find (fun h => cp h p) es
  | Internal _ c0 c1 c2 c3 c4 c5 c6 c7 =>
      let descend (c : Bin) (found : option Z) (rest : option Z) :=
        if bbox_contains (region c) p
        then match found with Some h => Some h | None => rest end
        else rest in
      descend c0 (find_in_bin cp c0 p)
        (descend c1 (find_in_bin cp c1 p)
           (descend c2 (find_in_bin cp c2 p)
              (descend c3 (find_in_bin cp c3 p)
                 (descend c4 (find_in_bin cp c4 p)
                    (descend c5 (find_in_bin cp c5 p)
                       (descend c6 (find_in_bin cp c6 p)
                          (descend c7 (find_in_bin cp c7 p) None)))))))
  end.

(** Modelled from the spec: an octree over a mesh. *)
Record OctTree : Set := mkOctTree { tree_mesh : Mesh; root : Bin }.

(** Modelled from the spec: [find_element (point)]; the query fails when
    the root's region does not hold the point. *)
Definition find_element (contains_point : Mesh -> Z -> Point -> bool)
    (t : OctTree) (p : Point) : option Z :=
  if bbox_contains (region (root t)) p
  then find_in_bin (contains_point (tree_mesh t)) (root t) p
  else None.

(** Modelled from the spec: the element references a tree holds are
    elements of its mesh, numbers from 0 below [n_elem]. *)
Fixpoint bin_in_range (n : Z) (b : Bin) : bool :=
  match b with
  | Leaf _ es => forallb (fun h => (0 <=? h) && (h <? n)) es
  | Internal _ c0 c1 c2 c3 c4 c5 c6 c7 =>
      bin_in_range n c0 && bin_in_range n c1 && bin_in_range n c2
      && bin_in_range n c3 && bin_in_range n c4 && bin_in_range n c5
      && bin_in_range n c6 && bin_in_range n c7
  end.

Definition tree_in_range (t : OctTree) : bool :=
  bin_in_range (n_elem (tree_mesh t)) (root t).

(** Modelled from the spec: [n_active_bins ()], the leaves that hold
    elements. *)
Fixpoint active_bins (b : Bin) : Z :=
  match b with
  | Leaf _ [] => 0
  | Leaf _ (_ :: _) => 1
  | Internal _ c0 c1 c2 c3 c4 c5 c6 c7 =>
      active_bins c0 + active_bins c1 + active_bins c2 + active_bins c3
      + active_bins c4 + active_bins c5 + active_bins c6 + active_bins c7
  end.

Definition n_active_bins (t : OctTree) : Z := active_bins (root t).

End Trees.

(** ** The quantities of the specification, in its words *)

Section Words.

Variable contains_point : Mesh -> Z -> Point -> bool.
Variable OctTree : Type.
Variable find_element : OctTree -> Point -> option Z.
Variable fe_reinit : Mesh -> Z -> FEData.
Variable inverse_map : Mesh -> Z -> Point -> Point.
Variable shape : Mesh -> Z -> Z -> Point -> Real.

Variables mesh_coarse mesh_fine : Mesh.
Variables coarse_solution fine_solution : list Real.
Variable octree_coarse : OctTree.

Definition sum_over {A} (l : list A) (term : A -> Real) : Real :=
  fold_left (fun acc x => (acc + term x)%float) l 0%float.

(** The global number of local node [i] of an element. *)
Definition node_of (el : Elem) (i : Z) : Z := znth (elem_nodes el) i 0.

(** The cached point locator as a function: the element it selects for
    [p] when it remembers [loc], or nothing when the octree finds none. *)
Definition locate_words (loc : Locator) (p : Point) : option Locator :=
  if contains_point mesh_coarse (coarse_element loc) p then Some loc
  else match find_element octree_coarse p with
       | None => None
       | Some h => Some (mkLocator h h)
       end.

(** The elements selected along a sweep over the points [pts]. *)
Fixpoint sweep_words (loc : Locator) (pts : list Point) : option (list Locator) :=
  match pts with
  | [] => Some []
  | p :: pts' =>
      match locate_words loc p with
      | None => None
      | Some loc' =>
          match sweep_words loc' pts' with
          | None => None
          | Some l => Some (loc' :: l)
          end
      end
  end.

(** The coarse-mesh interpolation of variable [c] at the physical point
    [p]: the sum over the shape functions of the containing coarse
    element, the one [loc] selects, of
    [coarse_field[global_node * nv + c] * shape (inverse_map (p))]. *)
Definition coarse_value (loc : Locator) (nv c : Z) (p : Point) : Real :=
  let h := coarse_element loc in
  let el := znth (mesh_elems mesh_coarse) h (mkElem []) in
  sum_over (upto (fe_n_shape_functions (fe_reinit mesh_coarse h)))
    (fun i => (znth coarse_solution (node_of el i * nv + c) zero
               * shape mesh_coarse h i (inverse_map mesh_coarse h p))%float).

(** The fine solution of variable [c] at quadrature point [gp] of fine
    element [e]: the sum over its local nodes of
    [fine_field[global_node * nv + c] * phi[local_node][gp]]. *)
Definition fine_value (nv c : Z) (e gp : Z) : Real :=
  let el := znth (mesh_elems mesh_fine) e (mkElem []) in
  let fe := fe_reinit mesh_fine e in
  sum_over (upto (elem_n_nodes el))
    (fun i => (znth fine_solution (node_of el i * nv + c) zero
               * znth (znth (fe_phi fe) i []) gp zero)%float).

(** The quadrature points of the fine mesh in sweep order: element and
    point number. *)
Definition gauss_points : list (Z * Z) :=
  flat_map (fun e => map (fun gp => (e, gp))
                       (upto (Z.of_nat (length (fe_xyz (fe_reinit mesh_fine e))))))
           (upto (n_elem mesh_fine)).

Definition gauss_xyz (q : Z * Z) : Point :=
  znth (fe_xyz (fe_reinit mesh_fine (fst q))) (snd q) point_zero.

(** [JxW[gp] * (coarse_soln - fine_soln)^2] at one quadrature point, for
    the coarse element [loc]. *)
Definition error_term (nv ivar : Z) (q : Z * Z) (loc : Locator) : Real :=
  let d := (coarse_value loc nv ivar (gauss_xyz q)
            - fine_value nv ivar (fst q) (snd q))%float in
  (znth (fe_JxW (fe_reinit mesh_fine (fst q))) (snd q) zero * d * d)%float.

(** The running sum after one more quadrature point. *)
Definition add_term (nv ivar : Z) (acc : Real) (ql : (Z * Z) * Locator) : Real :=
  (acc + error_term nv ivar (fst ql) (snd ql))%float.

(** The error metric of the specification: the square root of the sum of the
    terms over all quadrature points, each with the element the locator
    selected for it. *)
Definition l2_error (nv ivar : Z) (locs : list Locator) : Real :=
  PrimFloat.sqrt
    (sum_over (combine gauss_points locs)
       (fun ql => error_term nv ivar (fst ql) (snd ql))).

(** The nodes of a sweep in the order of their first visit: [l] without
    the nodes of [seen] and without repetitions. *)
Fixpoint first_visits (seen : list Z) (l : list Z) : list Z :=
  match l with
  | [] => []
  | gn :: l' =>
      if existsb (Z.eqb gn) seen then first_visits seen l'
      else gn :: first_visits (gn :: seen) l'
  end.

(** The nodes of the fine mesh as the nodal pass meets them, element by
    element, and those it processes. *)
Definition node_sweep : list Z := flat_map elem_nodes (mesh_elems mesh_fine).
Definition visit_order : list Z := first_visits [] node_sweep.

Definition node_point (gn : Z) : Point := znth (mesh_points mesh_fine) gn point_zero.

(** The nodal difference of the specification for node [gn] and variable [c],
    with the coarse element [loc]. *)
Definition nodal_difference (nv : Z) (gn : Z) (loc : Locator) (c : Z) : Real :=
  (coarse_value loc nv c (node_point gn)
   - znth fine_solution (gn * nv + c) zero)%float.

End Words.

(** The index [gn * nv + c] of every node of mesh [m] is an
    [unsigned int], so that the machine computes it without reduction. *)
Definition indices_fit (m : Mesh) (nv c : Z) : Prop :=
  forall el gn,
    In el (mesh_elems m) -> In gn (elem_nodes el) ->
    0 <= gn * nv + c < 2 ^ 32.

(** ** Properties of runs *)

(** An event that reads one of the input files. *)
Definition reads_input (ev : Event) : Prop :=
  match ev with
  | EvReadMesh _ | EvReadSoln _ => True
  | _ => False
  end.

(** An event of the numerical work: the octree, the finite element calls
    of the two passes, and their results. *)
Definition numerical (ev : Event) : Prop :=
  match ev with
  | EvOctreeBuild | EvActiveBins _ | EvFindElement _ | EvReinit _
  | EvInverseMap _ _ | EvShape _ _ _ | EvComputedError _
  | EvWriteNodalData _ _ _ => True
  | _ => False
  end.

(** What [main] prints and reads before the numerical work. *)
Definition preamble (argv : list string) : list Event :=
  [EvStdout ("Reading Mesh " ++ argv_at argv 2);
   EvReadMesh (argv_at argv 2);
   EvStdout ("Reading Mesh " ++ argv_at argv 3);
   EvReadMesh (argv_at argv 3);
   EvStdout ("Reading Soln " ++ argv_at argv 4);
   EvReadSoln (argv_at argv 4);
   EvStdout ("Reading Soln " ++ argv_at argv 5);
   EvReadSoln (argv_at argv 5)].

(** The events of the cached locator and of the coarse finite element
    object: all a pass produces. *)
Definition locator_event (ev : Event) : Prop :=
  match ev with
  | EvFindElement _ | EvReinit _ | EvInverseMap _ _ | EvShape _ _ _ => True
  | _ => False
  end.

Definition only {A} (P : Event -> Prop) (m : M A) : Prop := Forall P (snd m).

(** The calls of [inverse_map] in a run: element and physical point. *)
Fixpoint inverse_maps (w : list Event) : list (Z * Point) :=
  match w with
  | [] => []
  | EvInverseMap h p :: w' => (h, p) :: inverse_maps w'
  | _ :: w' => inverse_maps w'
  end.

Definition not_inverse_map (ev : Event) : Prop :=
  match ev with EvInverseMap _ _ => False | _ => True end.

(** The calls of [inverse_map] and [shape] in a run that are made on an
    element other than the one of the last [reinit]; [cur] is that
    element at the start. *)
Fixpoint stale_uses (cur : option Z) (w : list Event) : list Event :=
  match w with
  | [] => []
  | EvReinit h :: w' => stale_uses (Some h) w'
  | EvInverseMap h p :: w' =>
      match cur with
      | Some h' => if h =? h' then stale_uses cur w'
                   else EvInverseMap h p :: stale_uses cur w'
      | None => EvInverseMap h p :: stale_uses cur w'
      end
  | EvShape h i mp :: w' =>
      match cur with
      | Some h' => if h =? h' then stale_uses cur w'
                   else EvShape h i mp :: stale_uses cur w'
      | None => EvShape h i mp :: stale_uses cur w'
      end
  | _ :: w' => stale_uses cur w'
  end.

(** The element the coarse finite element object is initialised for after
    the events [w]. *)
Fixpoint fe_after (cur : option Z) (w : list Event) : option Z :=
  match w with
  | [] => cur
  | EvReinit h :: w' => fe_after (Some h) w'
  | _ :: w' => fe_after cur w'
  end.

(** An event that leaves the object initialised for [h] and uses it for
    no other element. *)
Definition uses (h : Z) (ev : Event) : Prop :=
  match ev with
  | EvReinit _ => False
  | EvInverseMap h' _ | EvShape h' _ _ => h' = h
  | _ => True
  end.

(** A computation started with the object initialised for [cur] makes no
    stale use of it, and leaves it initialised for [next a] when it ends
    well with [a]. *)
Definition keeps_in_step {A} (cur : Z) (m : M A) (next : A -> Z) : Prop :=
  stale_uses (Some cur) (snd m) = []
  /\ forall a, fst m = Done a -> fe_after (Some cur) (snd m) = Some (next a).

(** A locator in step: the object is initialised for the cached element. *)
Definition in_step (loc : Locator) : Prop := fe_coarse loc = coarse_element loc.

(** An event of a run that stays on the coarse element [h]: no search of
    the octree, and every call into the coarse finite element object is
    for [h]. *)
Definition stays_on (h : Z) (ev : Event) : Prop :=
  match ev with
  | EvFindElement _ => False
  | EvReinit k | EvInverseMap k _ | EvShape k _ _ => k = h
  | _ => True
  end.

(** Every event of the computation satisfies [P], and its result, when
    it ends well, satisfies [Q]. *)
Definition ensures {A} (P : Event -> Prop) (Q : A -> Prop) (m : M A) : Prop :=
  Forall P (snd m) /\ forall a, fst m = Done a -> Q a.

Section Searches.

Variable OctTree : Type.
Variable find_element : OctTree -> Point -> option Z.
Variable octree_coarse : OctTree.

(** The event of a search of the octree that finds no element. *)
Definition failed_search (ev : Event) : Prop :=
  exists p, ev = EvFindElement p /\ find_element octree_coarse p = None.

Definition no_failed_search (w : list Event) : Prop :=
  Forall (fun ev => ~ failed_search ev) w.

(** A computation stops at the first failed search: either it has none,
    or it ends there, fatally. *)
Definition stops_at_failed_search {A} (m : M A) : Prop :=
  no_failed_search (snd m)
  \/ (fst m = Fatal
      /\ exists pre p,
           snd m = pre ++ [EvFindElement p]
           /\ no_failed_search pre
           /\ find_element octree_coarse p = None).

End Searches.

(** ** A concrete run: two meshes of segments on the x axis *)

Module Scenario.

Definition P (x : Real) : Point := mkPoint x zero zero.

(** Coarse mesh: the segments [0,1] and [1,2]. *)
Definition coarse : Mesh :=
  mkMesh [mkElem [0; 1]; mkElem [1; 2]]
         [P 0%float; P 1%float; P 2%float].

(** Fine mesh: four segments of length 0.5, stored in the order
    [0,0.5], [1.5,2], [0.5,1], [1,1.5]. *)
Definition fine : Mesh :=
  mkMesh [mkElem [0; 1]; mkElem [3; 4]; mkElem [1; 2]; mkElem [2; 3]]
         [P 0%float; P 0.5%float; P 1%float; P 1.5%float; P 2%float].

(** Another coarse mesh: the one segment [0,2]. *)
Definition whole : Mesh :=
  mkMesh [mkElem [0; 2]] [P 0%float; P 1%float; P 2%float].

(** The abscissae of the two ends of element [h] of mesh [m]. *)
Definition ends (m : Mesh) (h : Z) : Real * Real :=
  let el := znth (mesh_elems m) h (mkElem []) in
  (px (znth (mesh_points m) (node_of el 0) point_zero),
   px (znth (mesh_points m) (node_of el 1) point_zero)).

(** The element holds the points of its closed segment. *)
Definition contains_point (m : Mesh) (h : Z) (p : Point) : bool :=
  let (a, b) := ends m h in
  (PrimFloat.leb a (px p) && PrimFloat.leb (px p) b
   && PrimFloat.eqb (py p) 0 && PrimFloat.eqb (pz p) 0)%float%bool.

(** Linear elements with the midpoint rule. *)
Definition fe_reinit (m : Mesh) (e : Z) : FEData :=
  let (a, b) := ends m e in
  mkFE [(b - a)%float] [P ((a + b) / 2)%float] [[0.5%float]; [0.5%float]] 2.

Definition inverse_map (m : Mesh) (h : Z) (p : Point) : Point :=
  let (a, b) := ends m h in
  P ((2 * px p - a - b) / (b - a))%float.

Definition shape (m : Mesh) (h i : Z) (mapped_point : Point) : Real :=
  if i =? 0 then ((1 - px mapped_point) / 2)%float
  else ((1 + px mapped_point) / 2)%float.

(** A single leaf over the whole mesh, which is what the octree is when
    the mesh has no more elements than a bin may hold. *)
Definition octree_build (m : Mesh) (max_elems : Z) : Trees.OctTree :=
  Trees.mkOctTree m
    (Trees.Leaf (Trees.mkBBox (P 0%float) (P 2%float)) (upto (n_elem m))).

Definition find_element : Trees.OctTree -> Point -> option Z :=
  Trees.find_element contains_point.

Definition read_mesh (path : string) : Mesh :=
  if String.eqb path "coarse.mesh" then coarse else fine.

Definition coarse_field : list Real := [0; 1; 2]%float.
Definition fine_field : list Real := [0; 0.75; 1; 1.5; 2]%float.

Definition read_mgf_soln (m : Mesh) (path : string) : list Real * list string :=
  if String.eqb path "coarse.soln" then (coarse_field, ["u"%string])
  else if String.eqb path "fine.soln" then (fine_field, ["u"%string])
  else (fine_field, ["v"%string]).

Definition atoi (s : string) : Z :=
  if String.eqb s "0" then 0 else if String.eqb s "1" then 1 else 0.

Definition argv : list string :=
  ["compare"; "0"; "coarse.mesh"; "fine.mesh"; "coarse.soln"; "fine.soln"]%string.

(** Too few arguments, and a fine solution with other variable names. *)
Definition short_argv : list string := ["compare"; "0"]%string.

Definition mismatched_argv : list string :=
  ["compare"; "0"; "coarse.mesh"; "fine.mesh"; "coarse.soln"; "other.soln"]%string.

Definition run (args : list string) : M unit :=
  main contains_point Trees.OctTree octree_build find_element
       Trees.n_active_bins fe_reinit inverse_map shape read_mesh
       read_mgf_soln atoi args.

End Scenario.

(** ** A concrete run on a mesh of mixed order *)

Module Mixed.

(** A mesh of two segments on the x axis: a quadratic one over [0,2],
    its two ends first and its mid node last, and a linear one over
    [2,3]. *)
Definition mesh : Mesh :=
  mkMesh [mkElem [0; 2; 1]; mkElem [2; 3]]
         [Scenario.P 0%float; Scenario.P 1%float; Scenario.P 2%float;
          Scenario.P 3%float].

(** Nodal elements with the midpoint rule: three shape functions on the
    quadratic segment, two on the linear one. *)
Definition fe_reinit (m : Mesh) (e : Z) : FEData :=
  let (a, b) := Scenario.ends m e in
  if elem_n_nodes (znth (mesh_elems m) e (mkElem [])) =? 3
  then mkFE [(b - a)%float] [Scenario.P ((a + b) / 2)%float]
            [[0%float]; [0%float]; [1%float]] 3
  else mkFE [(b - a)%float] [Scenario.P ((a + b) / 2)%float]
            [[0.5%float]; [0.5%float]] 2.

Definition shape (m : Mesh) (h i : Z) (mapped_point : Point) : Real :=
  let x := px mapped_point in
  if elem_n_nodes (znth (mesh_elems m) h (mkElem [])) =? 3
  then if i =? 0 then (x * (x - 1) / 2)%float
       else if i =? 1 then (x * (x + 1) / 2)%float
       else ((1 - x) * (1 + x))%float
  else Scenario.shape m h i mapped_point.

Definition octree_build (m : Mesh) (max_elems : Z) : Trees.OctTree :=
  Trees.mkOctTree m
    (Trees.Leaf (Trees.mkBBox (Scenario.P 0%float) (Scenario.P 3%float))
       (upto (n_elem m))).

Definition read_mesh (path : string) : Mesh := mesh.

(** The field [10 x] at the four nodes, and a field that differs from it
    at the mid node. *)
Definition field : list Real := [0; 10; 20; 30]%float.
Definition other_field : list Real := [0; 7; 20; 30]%float.

Definition read_mgf_soln (m : Mesh) (path : string) : list Real * list string :=
  if String.eqb path "other.soln" then (other_field, ["u"%string])
  else (field, ["u"%string]).

(** The mesh and its field compared with themselves, and with the other
    field on the fine side. *)
Definition same_argv : list string :=
  ["compare"; "0"; "mixed.mesh"; "mixed.mesh"; "u.soln"; "u.soln"]%string.

Definition other_argv : list string :=
  ["compare"; "0"; "mixed.mesh"; "mixed.mesh"; "u.soln"; "other.soln"]%string.

Definition run (args : list string) : M unit :=
  main Scenario.contains_point Trees.OctTree octree_build
       Scenario.find_element Trees.n_active_bins fe_reinit
       Scenario.inverse_map shape read_mesh read_mgf_soln Scenario.atoi args.

End Mixed.


(** ** Properties of the infinite hexahedron *)

Module InfHex8Facts.
Import InfHex8.

Lemma std_min_cases (a b : Real) : std_min a b = a \/ std_min a b = b.
Proof. unfold std_min. destruct (PrimFloat.ltb b a); auto. Qed.

(** Comparisons and products with a NaN. *)
Lemma is_nan_Prim2SF (x : float) : is_nan x = true <-> Prim2SF x = S754_nan.
Proof.
  unfold is_nan. rewrite eqb_spec. unfold SFeqb.
  destruct (Prim2SF x) as [s | s | | s m e]; cbn [SFcompare].
  - split; discriminate.
  - destruct s; split; discriminate.
  - split; reflexivity.
  - rewrite Z.compare_refl, Pos.compare_cont_refl.
    destruct s; split; discriminate.
Qed.

Lemma ltb_nan_l (x y : float) : is_nan x = true -> PrimFloat.ltb x y = false.
Proof.
  intros H. apply is_nan_Prim2SF in H. rewrite ltb_spec, H. reflexivity.
Qed.

Lemma ltb_nan_r (x y : float) : is_nan y = true -> PrimFloat.ltb x y = false.
Proof.
  intros H. apply is_nan_Prim2SF in H. rewrite ltb_spec, H.
  unfold SFltb. now destruct (Prim2SF x).
Qed.

Lemma mul_nan_r (x y : float) : is_nan y = true -> is_nan (x * y)%float = true.
Proof.
  intros H. apply is_nan_Prim2SF in H. apply is_nan_Prim2SF.
  rewrite mul_spec, H. unfold SF64mul, SFmul. now destruct (Prim2SF x).
Qed.

Lemma std_min_nan_l (a b : Real) : is_nan a = true -> is_nan (std_min a b) = true.
Proof.
  intros H. unfold std_min. now rewrite (ltb_nan_r b a H).
Qed.

(** The order of the numbers that are no NaN. *)
Lemma SFcompare_key (x y : spec_float) :
  x <> S754_nan -> y <> S754_nan ->
  exists c, SFcompare x y = Some c
            /\ (c = Lt <-> key_lt (order_key x) (order_key y))
            /\ (c = Eq <-> order_key x = order_key y).
Proof.
  intros Hx Hy.
  destruct x as [sx | sx | | sx mx ex], y as [sy | sy | | sy my ey];
    try contradiction; try destruct sx; try destruct sy;
    cbn [SFcompare order_key];
    try change (PosDef.Pos.compare_cont Eq mx my) with (Pos.compare mx my);
    try (destruct (Z.compare_spec ex ey) as [E | E | E];
         [destruct (Pos.compare_spec mx my) as [E' | E' | E']| |]);
    (eexists; split; [reflexivity|]; unfold key_lt; cbn [fst snd CompOpp];
     split; split; intros H; try discriminate H; try lia;
     try (inversion H; lia); try (subst; reflexivity)).
Qed.

Lemma not_nan_Prim2SF (x : float) : is_nan x = false <-> Prim2SF x <> S754_nan.
Proof.
  rewrite <- is_nan_Prim2SF. destruct (is_nan x); split; congruence.
Qed.

(** Strict and weak comparison of two numbers, by their keys. *)
Lemma ltb_key (x y : float) :
  PrimFloat.ltb x y = true
  <-> is_nan x = false /\ is_nan y = false
      /\ key_lt (order_key (Prim2SF x)) (order_key (Prim2SF y)).
Proof.
  rewrite ltb_spec, !not_nan_Prim2SF. unfold SFltb.
  destruct (Prim2SF x) as [sx | sx | | sx mx ex] eqn:Ex.
  3:{ cbn. split; [discriminate | intros (H & _); now destruct H]. }
  all: destruct (Prim2SF y) as [sy | sy | | sy my ey] eqn:Ey;
    try (split; [now destruct sx | intros (_ & H & _); now destruct H]).
  all: match goal with
       | |- context [SFcompare ?a ?b] =>
           destruct (SFcompare_key a b ltac:(discriminate) ltac:(discriminate))
             as (c & -> & Hlt & _)
       end;
    (split;
     [ intros H; destruct c; try discriminate H;
       split; [discriminate|]; split; [discriminate|]; now apply Hlt
     | intros (_ & _ & H); apply Hlt in H; now subst c ]).
Qed.

Lemma leb_key (x y : float) :
  PrimFloat.leb x y = true
  <-> is_nan x = false /\ is_nan y = false
      /\ key_le (order_key (Prim2SF x)) (order_key (Prim2SF y)).
Proof.
  rewrite leb_spec, !not_nan_Prim2SF. unfold SFleb.
  destruct (Prim2SF x) as [sx | sx | | sx mx ex] eqn:Ex.
  3:{ cbn. split; [discriminate | intros (H & _); now destruct H]. }
  all: destruct (Prim2SF y) as [sy | sy | | sy my ey] eqn:Ey;
    try (split; [now destruct sx | intros (_ & H & _); now destruct H]).
  all: match goal with
       | |- context [SFcompare ?a ?b] =>
           destruct (SFcompare_key a b ltac:(discriminate) ltac:(discriminate))
             as (c & -> & Hlt & Heq)
       end;
    (split;
     [ intros H; destruct c; try discriminate H;
       (split; [discriminate|]; split; [discriminate|]);
       [ right; now apply Heq | left; now apply Hlt ]
     | intros (_ & _ & [H | H]);
       [ apply Hlt in H; now subst c | apply Heq in H; now subst c ] ]).
Qed.

Lemma key_lt_le_trans (a b c : Z * Z * Z) :
  key_lt a b -> key_le b c -> key_lt a c.
Proof.
  intros H [H' | <-]; [|exact H]. unfold key_lt in *. lia.
Qed.

Lemma key_le_trans (a b c : Z * Z * Z) :
  key_le a b -> key_le b c -> key_le a c.
Proof.
  intros [H | <-] H'; [|exact H']. left. eapply key_lt_le_trans; eauto.
Qed.

Lemma key_total (a b : Z * Z * Z) : key_lt b a \/ key_le a b.
Proof.
  destruct a as [[a1 a2] a3], b as [[b1 b2] b3]. unfold key_le, key_lt.
  cbn [fst snd].
  destruct (Z.lt_trichotomy a1 b1) as [H | [H | H]]; try lia.
  destruct (Z.lt_trichotomy a2 b2) as [H2 | [H2 | H2]]; try lia.
  destruct (Z.lt_trichotomy a3 b3) as [H3 | [H3 | H3]]; try lia.
  right. right. congruence.
Qed.

Lemma ltb_leb_trans (x y z : float) :
  PrimFloat.ltb x y = true -> PrimFloat.leb y z = true ->
  PrimFloat.ltb x z = true.
Proof.
  rewrite !ltb_key, leb_key. intros (Hx & _ & H) (_ & Hz & H').
  split; [exact Hx|]. split; [exact Hz|]. eapply key_lt_le_trans; eauto.
Qed.

Lemma leb_trans (x y z : float) :
  PrimFloat.leb x y = true -> PrimFloat.leb y z = true ->
  PrimFloat.leb x z = true.
Proof.
  rewrite !leb_key. intros (Hx & _ & H) (_ & Hz & H').
  split; [exact Hx|]. split; [exact Hz|]. eapply key_le_trans; eauto.
Qed.

Lemma leb_refl (x : float) : is_nan x = false -> PrimFloat.leb x x = true.
Proof. intros H. apply leb_key. repeat split; auto. now right. Qed.

Lemma ltb_leb (x y : float) :
  PrimFloat.ltb x y = true -> PrimFloat.leb x y = true.
Proof.
  rewrite ltb_key, leb_key. intros (Hx & Hy & H). repeat split; auto.
  now left.
Qed.

Lemma not_ltb_leb (x y : float) :
  is_nan x = false -> is_nan y = false ->
  PrimFloat.ltb y x = false -> PrimFloat.leb x y = true.
Proof.
  intros Hx Hy H. apply leb_key. split; [exact Hx|]. split; [exact Hy|].
  destruct (key_total (order_key (Prim2SF x)) (order_key (Prim2SF y)))
    as [Hlt | Hle]; [|exact Hle].
  assert (E : PrimFloat.ltb y x = true) by (apply ltb_key; auto).
  congruence.
Qed.

(** [std::min] of two numbers is a lower bound of both. *)
Lemma std_min_lower (a b : Real) :
  is_nan a = false -> is_nan b = false ->
  is_nan (std_min a b) = false
  /\ PrimFloat.leb (std_min a b) a = true
  /\ PrimFloat.leb (std_min a b) b = true.
Proof.
  intros Ha Hb. unfold std_min. destruct (PrimFloat.ltb b a) eqn:E.
  - split; [exact Hb|]. split; [now apply ltb_leb | now apply leb_refl].
  - split; [exact Ha|]. split; [now apply leb_refl | now apply not_ltb_leb].
Qed.

Section ContainsPointFacts.

Variable origin : Elem -> Point.
Variable point_sub : Point -> Point -> Point.
Variable norm_sq : Point -> Real.
Variable inverse_map : Elem -> Point -> Real -> Point.
Variable on_reference_element : Point -> ElemType -> Real -> bool.

(** The nested [std::min] returns one of the four squared distances of
    the base nodes. *)
Lemma min_distance_sq_is_base_distance (this : Elem) :
  In (min_distance_sq origin point_sub norm_sq this)
     (base_distances_sq origin point_sub norm_sq this).
Proof.
  unfold min_distance_sq, base_distances_sq. cbn [map].
  repeat match goal with
         | |- context [std_min ?a ?b] =>
             destruct (std_min_cases a b) as [-> | ->]
         end; cbn [In]; auto 6.
Qed.

(** The nested [std::min] is a lower bound of the four squared
    distances, when none of them is a NaN. *)
Lemma min_distance_sq_is_least (this : Elem) :
  Forall (fun d => is_nan d = false)
    (base_distances_sq origin point_sub norm_sq this) ->
  Forall (fun d => PrimFloat.leb (min_distance_sq origin point_sub norm_sq this) d
                   = true)
    (base_distances_sq origin point_sub norm_sq this).
Proof.
  unfold base_distances_sq, min_distance_sq. cbn [map]. cbv zeta.
  intros H. inversion H as [|? ? H0 Ha]; subst.
  inversion Ha as [|? ? H1 Hb]; subst.
  inversion Hb as [|? ? H2 Hc]; subst.
  inversion Hc as [|? ? H3 _]; subst.
  set (d0 := norm_sq (point_sub (point this 0) (origin this))) in *.
  set (d1 := norm_sq (point_sub (point this 1) (origin this))) in *.
  set (d2 := norm_sq (point_sub (point this 2) (origin this))) in *.
  set (d3 := norm_sq (point_sub (point this 3) (origin this))) in *.
  destruct (std_min_lower d2 d3 H2 H3) as (N23 & L2 & L3).
  destruct (std_min_lower d1 _ H1 N23) as (N123 & L1 & L123).
  destruct (std_min_lower d0 _ H0 N123) as (_ & L0 & L0123).
  repeat constructor.
  - exact L0.
  - exact (leb_trans _ _ _ L0123 L1).
  - exact (leb_trans _ _ _ L0123 (leb_trans _ _ _ L123 L2)).
  - exact (leb_trans _ _ _ L0123 (leb_trans _ _ _ L123 L3)).
Qed.

(** C9.  [InfHex8::contains_point (p, tol)], for an element none of whose
    four base nodes has a NaN for its squared distance from the origin:
    the threshold is one of the four squared distances and not greater
    than any of them, their minimum; when 1.01 times the squared
    distance of [p] from the origin is strictly below every one of the
    four, the answer is [false] and no call into [FEInterface] is made;
    when it is not strictly below one of them, [inverse_map] is called
    once, on [p] and [tol], and the answer is [on_reference_element] of
    the mapped point for the type [INFHEX8] and the same [tol]. *)
Theorem contains_point_envelope_then_inverse_map
  (this : Elem) (p : Point) (tol : Real) :
  let dists := base_distances_sq origin point_sub norm_sq this in
  let c := (1.01 * norm_sq (point_sub p (origin this)))%float in
  let r := contains_point origin point_sub norm_sq inverse_map
             on_reference_element this p tol in
  Forall (fun d => is_nan d = false) dists ->
  (In (min_distance_sq origin point_sub norm_sq this) dists
   /\ Forall (fun d => PrimFloat.leb
                         (min_distance_sq origin point_sub norm_sq this) d
                       = true) dists)
  /\ (Forall (fun d => PrimFloat.ltb c d = true) dists -> r = (false, []))
  /\ (Exists (fun d => PrimFloat.ltb c d = false) dists ->
      fst r = on_reference_element (inverse_map this p tol) INFHEX8 tol
      /\ snd r = [CallInverseMap p tol;
                  CallOnReferenceElement (inverse_map this p tol) tol]).
Proof.
  intros dists c r Hnan.
  pose proof (min_distance_sq_is_base_distance this) as Hin.
  pose proof (min_distance_sq_is_least this Hnan) as Hleast.
  fold dists in Hin, Hleast.
  split; [split; assumption|].
  subst r. unfold contains_point, conservative_p_dist_sq. fold c. split.
  - intros Hall. rewrite Forall_forall in Hall. now rewrite (Hall _ Hin).
  - intros Hex. apply Exists_exists in Hex. destruct Hex as (d & Hd & Hc).
    destruct (PrimFloat.ltb c (min_distance_sq origin point_sub norm_sq this))
      eqn:E; [|split; reflexivity].
    rewrite Forall_forall in Hleast.
    rewrite (ltb_leb_trans _ _ _ E (Hleast d Hd)) in Hc. discriminate.
Qed.

(** X10.  A squared distance that is not a number is never rejected by
    the envelope test: when the squared distance of [p] from the origin
    is a NaN, or that of base node 0 is (the nested [std::min] then
    returns it), the function goes on to [inverse_map]. *)
Theorem nan_distance_goes_to_inverse_map (this : Elem) (p : Point) (tol : Real) :
  is_nan (norm_sq (point_sub p (origin this))) = true
  \/ is_nan (norm_sq (point_sub (point this 0) (origin this))) = true ->
  contains_point origin point_sub norm_sq inverse_map on_reference_element
    this p tol
  = (on_reference_element (inverse_map this p tol) INFHEX8 tol,
     [CallInverseMap p tol;
      CallOnReferenceElement (inverse_map this p tol) tol]).
Proof.
  intros H. unfold contains_point.
  replace (PrimFloat.ltb (conservative_p_dist_sq origin point_sub norm_sq this p)
             (min_distance_sq origin point_sub norm_sq this)) with false;
    [reflexivity|].
  symmetry. destruct H as [H | H].
  - apply ltb_nan_l. unfold conservative_p_dist_sq. now apply mul_nan_r.
  - apply ltb_nan_r. unfold min_distance_sq. now apply std_min_nan_l.
Qed.

End ContainsPointFacts.

Lemma contains_point_envelope_then_inverse_map_witness :
  contains_point example_origin point_sub3 norm_sq3 (fun _ p _ => p)
    (fun _ _ _ => true) example_elem (mkPoint 1 0 0)%float 0.000001%float
  = (false, []).
Proof.
  destruct (contains_point_envelope_then_inverse_map example_origin
              point_sub3 norm_sq3 (fun _ p _ => p) (fun _ _ _ => true)
              example_elem (mkPoint 1 0 0)%float 0.000001%float)
    as (_ & Hnear & _).
  - repeat constructor.
  - apply Hnear. repeat constructor.
Defined.

(** On the example element the least squared distance of the base is 3:
    a point at distance 0.5 from the origin is rejected with no call, a
    point at distance 3 goes through the inverse map. *)
Example contains_point_near_origin :
  contains_point example_origin point_sub3 norm_sq3 (fun _ p _ => p)
    (fun _ _ _ => true) example_elem (mkPoint 0.5 0 0)%float 0.000001%float
  = (false, []).
Proof. vm_compute. reflexivity. Qed.

Example contains_point_far_from_origin :
  contains_point example_origin point_sub3 norm_sq3 (fun _ p _ => p)
    (fun _ _ _ => true) example_elem (mkPoint 3 0 0)%float 0.000001%float
  = (true,
     [CallInverseMap (mkPoint 3 0 0)%float 0.000001%float;
      CallOnReferenceElement (mkPoint 3 0 0)%float 0.000001%float]).
Proof. vm_compute. reflexivity. Qed.

Lemma row_affine_all :
  forallb (forallb row_affine) _embedding_matrix = true.
Proof. vm_compute. reflexivity. Qed.

(** C10.  For each of the four children [c] and each of the eight child
    nodes [i], the row [_embedding_matrix[c][i]] has eight coefficients,
    each of them 0.0, 0.25, 0.5 or 1.0; added left to right in machine
    arithmetic they give exactly 1.0; their exact rational values add up
    to 1 with every running sum a binary32 number, so no rounding occurs
    in the declared type [float] either and the child node is an affine
    combination of the parent's nodes. *)
Theorem embedding_rows_sum_to_one (c i : nat) :
  (c < 4)%nat -> (i < 8)%nat ->
  let row := embedding_row c i in
  length row = 8%nat
  /\ Forall (fun x => x = 0.0 \/ x = 0.25 \/ x = 0.5 \/ x = 1.0)%float row
  /\ row_sum row = 1.0%float
  /\ exists sums,
       partial_sums 0%Q row = Some sums
       /\ forallb binary32_exact sums = true
       /\ Qeq (last sums 0%Q) 1%Q.
Proof.
  intros Hc Hi.
  destruct c as [|[|[|[|c]]]]; try lia;
    destruct i as [|[|[|[|[|[|[|[|i]]]]]]]]; try lia;
    (cbv zeta; split; [reflexivity|];
     split; [repeat constructor; auto|];
     split; [vm_compute; reflexivity|];
     eexists; split; [vm_compute; reflexivity|];
     split; vm_compute; reflexivity).
Qed.

(** The row of child node 2 of child 0, the centre of the base face. *)
Lemma embedding_rows_sum_to_one_witness :
  row_sum (embedding_row 0 2) = 1.0%float
  /\ length (embedding_row 0 2) = 8%nat.
Proof.
  destruct (embedding_rows_sum_to_one 0 2 ltac:(lia) ltac:(lia))
    as (Hlen & _ & Hsum & _).
  split; [exact Hsum | exact Hlen].
Defined.


Lemma nan_distance_goes_to_inverse_map_witness :
  contains_point example_origin point_sub3 norm_sq3 (fun _ p _ => p)
    (fun _ _ _ => true) example_elem (mkPoint nan 0 0)%float 0.000001%float
  = (true,
     [CallInverseMap (mkPoint nan 0 0)%float 0.000001%float;
      CallOnReferenceElement (mkPoint nan 0 0)%float 0.000001%float]).
Proof.
  apply (nan_distance_goes_to_inverse_map example_origin point_sub3 norm_sq3
           (fun _ p _ => p) (fun _ _ _ => true) example_elem
           (mkPoint nan 0 0)%float 0.000001%float).
  left. reflexivity.
Defined.

(** X11.  The refinement table treats the base and the outer layer
    alike and does not mix them: for every child, the weight of parent
    node [j + 4] in child node [i + 4] is the weight of parent node [j]
    in child node [i], and a base node of a child has no weight on an
    outer node of the parent, nor an outer node on a base node. *)
Theorem embedding_is_the_same_on_both_layers (c i j : nat) :
  (c < 4)%nat -> (i < 4)%nat -> (j < 4)%nat ->
  nth (j + 4) (embedding_row c (i + 4)) zero = nth j (embedding_row c i) zero
  /\ nth (j + 4) (embedding_row c i) zero = zero
  /\ nth j (embedding_row c (i + 4)) zero = zero.
Proof.
  intros Hc Hi Hj.
  destruct c as [|[|[|[|c]]]]; try lia;
    destruct i as [|[|[|[|i]]]]; try lia;
    destruct j as [|[|[|[|j]]]]; try lia;
    repeat split.
Qed.

Lemma embedding_is_the_same_on_both_layers_witness :
  nth (3 + 4) (embedding_row 2 (1 + 4)) zero = nth 3 (embedding_row 2 1) zero
  /\ nth (3 + 4) (embedding_row 2 1) zero = zero
  /\ nth 3 (embedding_row 2 (1 + 4)) zero = zero.
Proof.
  apply (embedding_is_the_same_on_both_layers 2 1 3); lia.
Defined.

End InfHex8Facts.

(** ** The topology of the infinite hexahedron *)

Module InfHex8TopologyFacts.
Import InfHex8Topology.

Lemma below_5 (s : N) : (s < 5)%N -> In s [0; 1; 2; 3; 4]%N.
Proof. intros H. cbn [In]. lia. Qed.

Lemma below_8 (s : N) : (s < 8)%N -> In s [0; 1; 2; 3; 4; 5; 6; 7]%N.
Proof. intros H. cbn [In]. lia. Qed.

Lemma assert_less_passes_below (dbg : bool) (a b : N) :
  (a < b)%N -> assert_less_passes dbg a b = true.
Proof.
  intros H. unfold assert_less_passes.
  apply N.ltb_lt in H. rewrite H. apply orb_true_r.
Qed.

Lemma assert_less_passes_above (dbg : bool) (a b : N) :
  (b <= a)%N -> assert_less_passes dbg a b = negb dbg.
Proof.
  intros H. unfold assert_less_passes.
  apply N.ltb_ge in H. rewrite H. apply orb_false_r.
Qed.

Lemma table_at_above (table : list (list N)) (r c : N) :
  (N.of_nat (length table) <= r)%N -> table_at table r c = None.
Proof.
  intros H. unfold table_at.
  replace (nth_error table (N.to_nat r)) with (@None (list N)); [reflexivity|].
  symmetry. apply nth_error_None. lia.
Qed.

(** Runs through the rows of a table, given [H : In s [0; 1; ...]]. *)
Ltac each_row H :=
  cbn [In] in H;
  repeat (destruct H as [H | H]; [subst|]); [..|destruct H].

(** Writes out the rows [nth (N.to_nat k) table []] of the goal. *)
Ltac rows :=
  repeat match goal with
         | |- context [nth (N.to_nat ?k) ?t (@nil N)] =>
             let r := eval vm_compute in (nth (N.to_nat k) t (@nil N)) in
             change (nth (N.to_nat k) t (@nil N)) with r
         end.

Ltac rows_in H :=
  repeat match type of H with
         | context [nth (N.to_nat ?k) ?t (@nil N)] =>
             let r := eval vm_compute in (nth (N.to_nat k) t (@nil N)) in
             change (nth (N.to_nat k) t (@nil N)) with r in H
         end.

(** The scan of a row finds the node when it is among the entries the
    scan reads. *)
Lemma scan_row_existsb (table : list (list N)) (r n : N) (row cols : list N) :
  nth_error table (N.to_nat r) = Some row ->
  Forall (fun i => N.to_nat i < length row)%nat cols ->
  scan_row table r n cols
  = Ok (existsb (N.eqb n) (map (fun i => nth (N.to_nat i) row 0%N) cols)).
Proof.
  intros Hr Hc. induction Hc as [|i cols Hi Hc IH]; [reflexivity|].
  cbn [scan_row map existsb]. unfold table_at at 1. rewrite Hr.
  destruct (nth_error row (N.to_nat i)) as [x|] eqn:E.
  - rewrite (nth_error_nth _ _ 0%N E), (N.eqb_sym n x).
    destruct (x =? n)%N; [reflexivity | exact IH].
  - apply nth_error_None in E. lia.
Qed.

(** The nodes of side [s] are those of row [s] of the table. *)
Lemma is_node_on_side_row (dbg : bool) (n s : N) :
  (s < 5)%N ->
  is_node_on_side dbg n s
  = Ok (existsb (N.eqb n) (nth (N.to_nat s) side_nodes_map [])).
Proof.
  intros Hs. unfold is_node_on_side.
  rewrite (assert_less_passes_below dbg s n_sides Hs).
  apply below_5 in Hs.
  each_row Hs;
    (erewrite scan_row_existsb;
     [ | reflexivity | repeat (constructor; [cbn; lia|]); constructor ];
     reflexivity).
Qed.

(** The nodes of edge [e] are those of row [e] of the table. *)
Lemma is_node_on_edge_row (dbg : bool) (n e : N) :
  (e < 8)%N ->
  is_node_on_edge dbg n e
  = Ok (existsb (N.eqb n) (nth (N.to_nat e) edge_nodes_map [])).
Proof.
  intros He. unfold is_node_on_edge.
  rewrite (assert_less_passes_below dbg e n_edges He).
  apply below_8 in He.
  each_row He;
    (erewrite scan_row_existsb;
     [ | reflexivity | repeat (constructor; [cbn; lia|]); constructor ];
     reflexivity).
Qed.

Lemma on_row (n : N) (row : list N) :
  existsb (N.eqb n) row = true <-> In n row.
Proof.
  rewrite existsb_exists. split.
  - intros (y & Hy & E). apply N.eqb_eq in E. now subst.
  - intros H. exists n. split; [assumption | apply N.eqb_refl].
Qed.

Lemma is_node_on_side_In (dbg : bool) (n s : N) :
  (s < 5)%N ->
  is_node_on_side dbg n s = Ok true
  <-> In n (nth (N.to_nat s) side_nodes_map []).
Proof.
  intros Hs. rewrite (is_node_on_side_row dbg n s Hs), <- on_row.
  split; [intros H; now inversion H | intros ->; reflexivity].
Qed.

Lemma is_node_on_edge_In (dbg : bool) (n e : N) :
  (e < 8)%N ->
  is_node_on_edge dbg n e = Ok true
  <-> In n (nth (N.to_nat e) edge_nodes_map []).
Proof.
  intros He. rewrite (is_node_on_edge_row dbg n e He), <- on_row.
  split; [intros H; now inversion H | intros ->; reflexivity].
Qed.

Lemma is_vertex_below (n : N) : is_vertex n = true <-> (n < 4)%N.
Proof.
  unfold is_vertex. destruct (N.ltb_spec n 4); split; intros; try lia;
    try reflexivity; discriminate.
Qed.

(** X2.  The base side, side 0, carries exactly the vertices: whether
    [is_node_on_side] finds node [n] on side 0 is [is_vertex (n)], for
    every [n], and [is_edge] is the opposite of [is_vertex] on every
    index. *)
Theorem base_side_is_the_vertices (dbg : bool) (n : N) :
  is_node_on_side dbg n 0 = Ok (is_vertex n)
  /\ is_edge n = negb (is_vertex n).
Proof.
  split.
  - rewrite is_node_on_side_row by lia.
    f_equal. apply eq_true_iff_eq.
    rewrite on_row, is_vertex_below. cbn. lia.
  - unfold is_edge, is_vertex. now destruct (n <? 4)%N.
Qed.

(** X3.  The number of sides a node lies on: three for a vertex, two for
    each of the nodes 4 to 7, none for an index that is no node of the
    element. *)
Theorem sides_of_a_node (dbg : bool) (n : N) :
  length
    (filter
       (fun s => match is_node_on_side dbg n s with
                 | Ok true => true
                 | _ => false
                 end)
       [0; 1; 2; 3; 4]%N)
  = if is_vertex n then 3%nat else if (n <? 8)%N then 2%nat else 0%nat.
Proof.
  cbn [filter]. rewrite !is_node_on_side_row by lia.
  destruct (N.ltb_spec n 8) as [Hn | Hn].
  - apply below_8 in Hn. each_row Hn; reflexivity.
  - assert (Hv : is_vertex n = false).
    { unfold is_vertex. destruct (N.ltb_spec n 4); [lia | reflexivity]. }
    rewrite Hv. rows. cbn [existsb].
    repeat match goal with
           | |- context [(n =? ?k)%N] =>
               destruct (N.eqb_spec n k); [lia|]
           end.
    reflexivity.
Qed.

(** X4.  Every edge lies on exactly two sides: for an edge [e] there are
    two sides such that a side holds every node of [e] exactly when it
    is one of the two. *)
Theorem edge_lies_on_two_sides (dbg : bool) (e : N) :
  (e < 8)%N ->
  exists s1 s2 : N,
    (s1 < s2)%N /\ (s2 < 5)%N
    /\ forall s : N, (s < 5)%N ->
         ((forall n : N, is_node_on_edge dbg n e = Ok true ->
                         is_node_on_side dbg n s = Ok true)
          <-> s = s1 \/ s = s2).
Proof.
  intros He.
  assert (Hin : forall s, (s < 5)%N ->
            ((forall n : N, is_node_on_edge dbg n e = Ok true ->
                            is_node_on_side dbg n s = Ok true)
             <-> (forall n : N,
                    In n (nth (N.to_nat e) edge_nodes_map []) ->
                    In n (nth (N.to_nat s) side_nodes_map [])))).
  { intros s Hs. split; intros H n Hn.
    - apply (is_node_on_side_In dbg n s Hs), H.
      now apply (is_node_on_edge_In dbg n e He).
    - apply (is_node_on_side_In dbg n s Hs), H.
      now apply (is_node_on_edge_In dbg n e He). }
  assert (Hpair : exists s1 s2 : N,
            (s1 < s2)%N /\ (s2 < 5)%N
            /\ forall s : N, (s < 5)%N ->
                 ((forall n : N,
                     In n (nth (N.to_nat e) edge_nodes_map []) ->
                     In n (nth (N.to_nat s) side_nodes_map []))
                  <-> s = s1 \/ s = s2)).
  { apply below_8 in He.
    each_row He;
      [ exists 0%N, 1%N | exists 0%N, 2%N | exists 0%N, 3%N | exists 0%N, 4%N
      | exists 1%N, 4%N | exists 1%N, 2%N | exists 2%N, 3%N | exists 3%N, 4%N ];
      (split; [lia|]; split; [lia|]; intros s Hs; apply below_5 in Hs;
       each_row Hs;
       (split;
        [ intros H;
          pose proof (H _ (or_introl eq_refl)) as H0;
          pose proof (H _ (or_intror (or_introl eq_refl))) as H1;
          vm_compute in H0, H1; lia
        | intros H n Hn; vm_compute in Hn; vm_compute; lia ])). }
  destruct Hpair as (s1 & s2 & H12 & H2 & Hall).
  exists s1, s2. split; [assumption|]. split; [assumption|].
  intros s Hs. rewrite (Hin s Hs). apply Hall, Hs.
Qed.

Lemma edge_lies_on_two_sides_witness :
  exists s1 s2 : N,
    (s1 < s2)%N /\ (s2 < 5)%N
    /\ forall s : N, (s < 5)%N ->
         ((forall n : N, is_node_on_edge true n 4 = Ok true ->
                         is_node_on_side true n s = Ok true)
          <-> s = s1 \/ s = s2).
Proof. apply (edge_lies_on_two_sides true 4). reflexivity. Defined.

(** X5.  [build_edge_ptr] types an edge by its nodes: for an edge [e]
    of the element it builds a proxy of the element on [e]; the proxy is
    an [Edge2] exactly when both nodes of [e] are vertices, and an
    [InfEdge2] exactly when [e] joins a vertex [n] to the node
    [n + 4]. *)
Theorem build_edge_ptr_type (dbg : bool) (this : Cell) (e : N) :
  (e < 8)%N ->
  exists t : EdgeType,
    build_edge_ptr dbg this e = Ok (EdgeProxy t this e)
    /\ (t = EDGE2 <->
        forall n : N, is_node_on_edge dbg n e = Ok true -> is_vertex n = true)
    /\ (t = INFEDGE2 <->
        exists n : N,
          is_vertex n = true
          /\ is_node_on_edge dbg n e = Ok true
          /\ is_node_on_edge dbg (n + 4) e = Ok true).
Proof.
  intros He. unfold build_edge_ptr.
  rewrite (assert_less_passes_below dbg e n_edges He).
  assert (Hrow : forall n : N,
            is_node_on_edge dbg n e = Ok true
            <-> In n (nth (N.to_nat e) edge_nodes_map []))
    by (intros n; apply is_node_on_edge_In, He).
  destruct (N.ltb_spec e 4) as [Hlt | Hge].
  - exists EDGE2. split; [reflexivity|]. split.
    + split; [|reflexivity]. intros _ n Hn.
      apply Hrow in Hn. apply is_vertex_below.
      assert (H4 : In e [0; 1; 2; 3]%N) by (cbn [In]; lia).
      each_row H4; vm_compute in Hn; lia.
    + split; [discriminate|]. intros (n & Hv & H0 & H1).
      apply is_vertex_below in Hv. apply Hrow in H1.
      assert (H4 : In e [0; 1; 2; 3]%N) by (cbn [In]; lia).
      each_row H4; rows_in H1; cbn [In] in H1; lia.
  - exists INFEDGE2. split; [reflexivity|]. split.
    + split; [discriminate|]. intros H.
      assert (Hv : is_vertex e = true).
      { apply H, Hrow.
        assert (H4 : In e [4; 5; 6; 7]%N) by (cbn [In]; lia).
        each_row H4; vm_compute; lia. }
      apply is_vertex_below in Hv. lia.
    + split; [|reflexivity]. intros _. exists (e - 4)%N.
      assert (H4 : In e [4; 5; 6; 7]%N) by (cbn [In]; lia).
      rewrite !Hrow.
      each_row H4; rows; cbn [In]; (split; [reflexivity|]); split; lia.
Qed.

Lemma build_edge_ptr_type_witness :
  exists t : EdgeType,
    build_edge_ptr true (mkCell (fun k => Z.of_N k + 10) 0) 5
    = Ok (EdgeProxy t (mkCell (fun k => Z.of_N k + 10) 0) 5)
    /\ (t = EDGE2 <->
        forall n : N, is_node_on_edge true n 5 = Ok true -> is_vertex n = true)
    /\ (t = INFEDGE2 <->
        exists n : N,
          is_vertex n = true
          /\ is_node_on_edge true n 5 = Ok true
          /\ is_node_on_edge true (n + 4) 5 = Ok true).
Proof.
  apply (build_edge_ptr_type true (mkCell (fun k => Z.of_N k + 10) 0) 5).
  reflexivity.
Defined.

(** X6.  [build_side_ptr] on a side [i] of the element gives a side of
    the same type with and without [proxy], a [Quad4] exactly for the
    base; built as an element of its own, the side has the subdomain of
    the element and its nodes are the nodes of the element that row [i]
    of [side_nodes_map] names, in the order of the row: four distinct
    nodes, those that [is_node_on_side] finds on [i]. *)
Theorem build_side_ptr_takes_the_side_nodes (dbg : bool) (this : Cell) (i : N) :
  (i < 5)%N ->
  exists (t : SideType) (row : list N),
    nth_error side_nodes_map (N.to_nat i) = Some row
    /\ build_side_ptr dbg this i true = Ok (SideProxy t this i)
    /\ build_side_ptr dbg this i false
       = Ok (SideElem t (subdomain_id this) (map (node_id this) row))
    /\ (t = QUAD4 <-> i = 0%N)
    /\ length row = 4%nat /\ NoDup row
    /\ forall n : N, In n row <-> is_node_on_side dbg n i = Ok true.
Proof.
  intros Hi. unfold build_side_ptr.
  rewrite (assert_less_passes_below dbg i n_sides Hi).
  assert (Hrow : forall n : N,
            In n (nth (N.to_nat i) side_nodes_map [])
            <-> is_node_on_side dbg n i = Ok true)
    by (intros n; symmetry; apply is_node_on_side_In, Hi).
  exists (if (i =? 0)%N then QUAD4 else INFQUAD4),
         (nth (N.to_nat i) side_nodes_map []).
  apply below_5 in Hi.
  each_row Hi;
    (split; [reflexivity|]; split; [reflexivity|]; split; [reflexivity|];
     split; [split; [intros H; first [reflexivity | discriminate H]
                    | intros H; first [reflexivity | discriminate H]] |];
     split; [reflexivity|]; split; [|exact Hrow];
     vm_compute;
     repeat (constructor; [cbn [In]; lia|]); constructor).
Qed.

Lemma build_side_ptr_takes_the_side_nodes_witness :
  exists (t : SideType) (row : list N),
    nth_error side_nodes_map 2 = Some row
    /\ build_side_ptr true (mkCell (fun k => Z.of_N k + 10) 7) 2 true
       = Ok (SideProxy t (mkCell (fun k => Z.of_N k + 10) 7) 2)
    /\ build_side_ptr true (mkCell (fun k => Z.of_N k + 10) 7) 2 false
       = Ok (SideElem t 7 (map (fun k => Z.of_N k + 10) row))
    /\ (t = QUAD4 <-> 2%N = 0%N)
    /\ length row = 4%nat /\ NoDup row
    /\ forall n : N, In n row <-> is_node_on_side true n 2 = Ok true.
Proof.
  apply (build_side_ptr_takes_the_side_nodes
           true (mkCell (fun k => Z.of_N k + 10) 7) 2).
  reflexivity.
Defined.

Lemma side_type_of_above (i : N) : (5 <= i)%N -> side_type_of i = None.
Proof.
  intros H. unfold side_type_of.
  destruct i as [|[[p|p|]|[[p|p|]|[p|p|]|]|]]; try lia; reflexivity.
Qed.

(** X7.  An index that is no side of the element never gives a side:
    [build_side_ptr] stops at its assertion where assertions are
    compiled in and in [libmesh_error_msg] where they are not, with and
    without [proxy]; [is_node_on_side] stops at its assertion or reads
    outside the table. *)
Theorem no_side_beyond_the_fifth (this : Cell) (i n : N) (proxy : bool) :
  (5 <= i)%N ->
  build_side_ptr true this i proxy = AssertFails
  /\ (exists msg, build_side_ptr false this i proxy = ErrorMsg msg)
  /\ is_node_on_side true n i = AssertFails
  /\ is_node_on_side false n i = OutOfTable.
Proof.
  intros Hi. unfold build_side_ptr, is_node_on_side.
  rewrite !(assert_less_passes_above _ i n_sides Hi).
  rewrite (side_type_of_above i Hi). cbn [negb scan_row].
  rewrite table_at_above by (cbn; lia).
  repeat split. now eexists.
Qed.

Lemma no_side_beyond_the_fifth_witness :
  build_side_ptr true (mkCell (fun k => Z.of_N k) 0) 5 false = AssertFails
  /\ (exists msg,
        build_side_ptr false (mkCell (fun k => Z.of_N k) 0) 5 false
        = ErrorMsg msg)
  /\ is_node_on_side true 0 5 = AssertFails
  /\ is_node_on_side false 0 5 = OutOfTable.
Proof.
  apply (no_side_beyond_the_fifth (mkCell (fun k => Z.of_N k) 0) 5 0 false).
  discriminate.
Defined.

(** X8.  An index that is no edge of the element is refused by
    [build_edge_ptr] only where assertions are compiled in: where they
    are not, an [InfEdge2] proxy on that index is returned.  (The scan
    of [is_node_on_edge] then reads outside the table.) *)
Theorem edge_ptr_beyond_the_eighth (this : Cell) (e n : N) :
  (8 <= e)%N ->
  build_edge_ptr true this e = AssertFails
  /\ build_edge_ptr false this e = Ok (EdgeProxy INFEDGE2 this e)
  /\ is_node_on_edge true n e = AssertFails
  /\ is_node_on_edge false n e = OutOfTable.
Proof.
  intros He. unfold build_edge_ptr, is_node_on_edge.
  rewrite !(assert_less_passes_above _ e n_edges He). cbn [negb scan_row].
  rewrite table_at_above by (cbn; lia).
  destruct (N.ltb_spec e 4); [lia|]. repeat split.
Qed.

Lemma edge_ptr_beyond_the_eighth_witness :
  build_edge_ptr true (mkCell (fun k => Z.of_N k) 0) 8 = AssertFails
  /\ build_edge_ptr false (mkCell (fun k => Z.of_N k) 0) 8
     = Ok (EdgeProxy INFEDGE2 (mkCell (fun k => Z.of_N k) 0) 8)
  /\ is_node_on_edge true 0 8 = AssertFails
  /\ is_node_on_edge false 0 8 = OutOfTable.
Proof.
  apply (edge_ptr_beyond_the_eighth (mkCell (fun k => Z.of_N k) 0) 8 0).
  discriminate.
Defined.

Lemma resize_length (conn : list Z) (n : nat) : length (resize conn n) = n.
Proof.
  revert conn. induction n as [|n IH]; intros conn; [reflexivity|].
  destruct conn; cbn [resize length]; now rewrite IH.
Qed.

(** X9.  [connectivity] for Tecplot replaces whatever [conn] held by the
    eight node ids of the element, each plus one in 32 bit arithmetic,
    in the order of the nodes; without assertions the sub-element index
    is not looked at; for every other package no connectivity is
    returned. *)
Theorem connectivity_is_one_based (dbg : bool) (this : Cell) (sc : N)
    (conn : list Z) :
  connectivity dbg this 0 TECPLOT conn
  = Ok (map (fun k => wrap32 (node_id this k + 1)) [0; 1; 2; 3; 4; 5; 6; 7]%N)
  /\ connectivity false this sc TECPLOT conn
     = connectivity dbg this 0 TECPLOT conn
  /\ forall (iop : IOPackage) (l : list Z),
       iop <> TECPLOT -> connectivity dbg this sc iop conn <> Ok l.
Proof.
  assert (H8 : forall c : list Z, length c = 8%nat ->
            exists a0 a1 a2 a3 a4 a5 a6 a7,
              c = [a0; a1; a2; a3; a4; a5; a6; a7]).
  { intros c Hc.
    destruct c as [|a0 [|a1 [|a2 [|a3 [|a4 [|a5 [|a6 [|a7 [|a8 c]]]]]]]]];
      try discriminate Hc.
    now exists a0, a1, a2, a3, a4, a5, a6, a7. }
  destruct (H8 (resize conn 8) (resize_length conn 8))
    as (a0 & a1 & a2 & a3 & a4 & a5 & a6 & a7 & E).
  assert (Hall : forall d s, assert_less_passes d s n_sub_elem = true ->
            connectivity d this s TECPLOT conn
            = Ok (map (fun k => wrap32 (node_id this k + 1))
                      [0; 1; 2; 3; 4; 5; 6; 7]%N)).
  { intros d s Hs. unfold connectivity. rewrite Hs, E. reflexivity. }
  split; [|split].
  - apply Hall. now destruct dbg.
  - rewrite !Hall; [reflexivity | now destruct dbg | reflexivity].
  - intros iop l Hiop. unfold connectivity.
    destruct (assert_less_passes dbg sc n_sub_elem); [|discriminate].
    destruct iop; [congruence | destruct dbg; discriminate | discriminate].
Qed.

(** X22.  An infinite side stands on a base edge: built as an element
    of its own, each of the sides 1 to 4 is an [InfQuad4] whose first
    two nodes are the two vertices of one base edge, and whose last two
    nodes are the nodes four above them, in the same order. *)
Theorem infinite_side_stands_on_a_base_edge (dbg : bool) (this : Cell) (i : N) :
  (1 <= i < 5)%N ->
  exists a b e : N,
    (e < 4)%N /\ a <> b
    /\ is_node_on_edge dbg a e = Ok true
    /\ is_node_on_edge dbg b e = Ok true
    /\ build_side_ptr dbg this i false
       = Ok (SideElem INFQUAD4 (subdomain_id this)
               [node_id this a; node_id this b;
                node_id this (a + 4); node_id this (b + 4)]).
Proof.
  intros Hi.
  assert (Hin : In i [1; 2; 3; 4]%N) by (cbn [In]; lia).
  unfold build_side_ptr.
  rewrite (assert_less_passes_below dbg i n_sides) by (unfold n_sides; lia).
  each_row Hin;
    [ exists 0%N, 1%N, 0%N | exists 1%N, 2%N, 1%N
    | exists 2%N, 3%N, 2%N | exists 3%N, 0%N, 3%N ];
    (split; [lia|]; split; [discriminate|];
     rewrite !is_node_on_edge_row by lia; repeat split).
Qed.

Lemma infinite_side_stands_on_a_base_edge_witness :
  exists a b e : N,
    (e < 4)%N /\ a <> b
    /\ is_node_on_edge true a e = Ok true
    /\ is_node_on_edge true b e = Ok true
    /\ build_side_ptr true (mkCell (fun k => Z.of_N k + 10) 7) 4 false
       = Ok (SideElem INFQUAD4 7
               [Z.of_N a + 10; Z.of_N b + 10;
                Z.of_N (a + 4) + 10; Z.of_N (b + 4) + 10]).
Proof.
  apply (infinite_side_stands_on_a_base_edge
           true (mkCell (fun k => Z.of_N k + 10) 7) 4).
  lia.
Defined.

End InfHex8TopologyFacts.

(** ** The settings of the bundled netCDF library *)

Module NcSettingsFacts.
Import NcSettings.

Lemma strchr_app (k rest : cstr) (c : ascii) :
  ~ In c k -> strchr (k ++ c :: rest) c = Some (length k).
Proof.
  induction k as [|x k IH]; intros Hk; cbn [app strchr length].
  - now rewrite Ascii.eqb_refl.
  - destruct (Ascii.eqb_spec x c) as [-> | Hne].
    + exfalso. apply Hk. now left.
    + rewrite IH; [reflexivity|]. intros H. apply Hk. now right.
Qed.

Lemma strchr_None (s : cstr) (c : ascii) : strchr s c = None <-> ~ In c s.
Proof.
  induction s as [|x s IH]; cbn [strchr In].
  - split; [intros _ [] | reflexivity].
  - destruct (Ascii.eqb_spec x c) as [-> | Hne].
    + split; [discriminate | intros H; exfalso; apply H; now left].
    + destruct (strchr s c).
      * split; [discriminate|]. intros H. exfalso.
        destruct IH as [_ IH].
        assert (Hn : ~ In c s) by (intros Hin; apply H; now right).
        specialize (IH Hn). discriminate.
      * split; [|reflexivity]. intros _ [H | H]; [contradiction|].
        now apply (proj1 IH).
Qed.

Lemma strchr_Some (s : cstr) (c : ascii) (i : nat) :
  strchr s c = Some i ->
  s = firstn i s ++ c :: skipn (S i) s /\ ~ In c (firstn i s)
  /\ length (firstn i s) = i.
Proof.
  revert i. induction s as [|x s IH]; intros i; cbn [strchr]; [discriminate|].
  destruct (Ascii.eqb_spec x c) as [-> | Hne].
  - intros H. inversion H; subst. cbn. repeat split; auto.
  - destruct (strchr s c) as [j|]; [|discriminate].
    intros H. inversion H; subst i.
    destruct (IH j eq_refl) as (Hs & Hn & Hl).
    cbn [firstn skipn app length In]. repeat split.
    + f_equal. exact Hs.
    + intros [H1 | H1]; [contradiction | now apply Hn].
    + now rewrite Hl.
Qed.

(** What [skip_blanks] drops and what it leaves. *)
Lemma skip_blanks_spec (p : cstr) :
  exists a, p = a ++ skip_blanks p /\ blanks a
            /\ forall l', skip_blanks p <> blank :: l'.
Proof.
  induction p as [|c p (a & Hp & Ha & Hh)]; cbn [skip_blanks].
  - exists []. repeat split; [constructor | discriminate].
  - destruct (Ascii.eqb_spec c blank) as [-> | Hne].
    + exists (blank :: a). cbn [app]. repeat split.
      * now f_equal.
      * now constructor.
      * exact Hh.
    + exists []. repeat split; [constructor|].
      intros l' H. inversion H. contradiction.
Qed.

Lemma skip_blanks_id (p : cstr) :
  (forall l', p <> blank :: l') -> skip_blanks p = p.
Proof.
  destruct p as [|c p]; [reflexivity|]. intros H. cbn [skip_blanks].
  destruct (Ascii.eqb_spec c blank) as [-> | Hne]; [|reflexivity].
  now destruct (H p).
Qed.

(** The backward scan over a value that does not start with a blank
    stays inside the value. *)
Lemma back_over_blanks_spec (v : cstr) (q : nat) :
  nth 0 v NUL <> blank ->
  exists q', back_over_blanks v q = Some q' /\ (q' <= q)%nat
             /\ nth q' v NUL <> blank
             /\ forall j, (q' < j <= q)%nat -> nth j v NUL = blank.
Proof.
  intros H0. induction q as [|q (q' & Hq & Hle & Hn & Hb)];
    cbn [back_over_blanks].
  - destruct (Ascii.eqb_spec (nth 0 v NUL) blank) as [E | E];
      [contradiction|].
    exists 0%nat. repeat split; auto. intros j Hj. lia.
  - destruct (Ascii.eqb_spec (nth (S q) v NUL) blank) as [E | E].
    + exists q'. repeat split; auto. intros j Hj.
      destruct (Nat.eq_dec j (S q)) as [-> | Hne]; [exact E|].
      apply Hb. lia.
    + exists (S q). repeat split; auto. intros j Hj. lia.
Qed.

Lemma back_up_at_colon (key rest : cstr) :
  back_up (key ++ colon :: rest) (length key) = length key.
Proof.
  destruct (length key) as [|n] eqn:E; [reflexivity|].
  cbn [back_up]. rewrite <- E, nth_middle. reflexivity.
Qed.

Lemma blanks_nth (l : cstr) :
  (forall j, (j < length l)%nat -> nth j l NUL = blank) -> blanks l.
Proof.
  induction l as [|c l IH]; intros H; [constructor|].
  constructor.
  - apply (H 0%nat). cbn. lia.
  - apply IH. intros j Hj. apply (H (S j)). cbn. lia.
Qed.

(** *** The lines of the text *)

Lemma c_string_app (l d : list ascii) :
  ~ In NUL l -> c_string (l ++ NUL :: d) = l.
Proof.
  induction l as [|c l IH]; intros H; cbn [app c_string].
  - reflexivity.
  - destruct (Ascii.eqb_spec c NUL) as [-> | Hne].
    + exfalso. apply H. now left.
    + f_equal. apply IH. intros Hin. apply H. now right.
Qed.

Lemma take_lines_cons (n : nat) (l d : list ascii) :
  ~ In NUL l -> take_lines (S n) (l ++ NUL :: d) = l :: take_lines n d.
Proof.
  intros H. cbn [take_lines]. rewrite (c_string_app l d H). f_equal.
  change (S (length l)) with (1 + length l)%nat.
  rewrite <- skipn_skipn, skipn_app, skipn_all, Nat.sub_diag. reflexivity.
Qed.

Lemma converted_not_NUL (c : ascii) : c <> NUL -> converted c <> NUL.
Proof.
  intros H. unfold converted.
  destruct (Ascii.eqb c CR || Ascii.eqb c TAB); [discriminate | exact H].
Qed.

(** The lines [preprocess] cuts out of [dup] are the lines of the text. *)
Lemma take_lines_convert (text : list ascii) (cur : cstr) :
  ~ In NUL cur ->
  take_lines (snd (convert text)) (cur ++ fst (convert text))
  = lines_from cur text.
Proof.
  revert cur. induction text as [|c text IH]; intros cur Hcur;
    cbn [convert lines_from]; [reflexivity|].
  destruct (Ascii.eqb_spec c NUL) as [-> | Hnul]; [reflexivity|].
  destruct (convert text) as [d n] eqn:E. cbn [fst snd] in IH.
  unfold converted.
  destruct (Ascii.eqb c CR || Ascii.eqb c TAB) eqn:Eb; cbn [fst snd].
  - destruct (Ascii.eqb_spec c LF) as [-> | Hlf]; [discriminate Eb|].
    rewrite <- IH.
    + now rewrite <- app_assoc.
    + intros H. apply in_app_or in H. destruct H as [H | [H | []]];
        [contradiction | discriminate H].
  - destruct (Ascii.eqb_spec c LF) as [-> | Hlf]; cbn [fst snd].
    + rewrite take_lines_cons by assumption. f_equal.
      apply (IH [] (fun H => H)).
    + rewrite <- IH.
      * now rewrite <- app_assoc.
      * intros H. apply in_app_or in H. destruct H as [H | [H | []]];
          contradiction.
Qed.

Lemma preprocess_lines (text : list ascii) :
  preprocess text = strip_lines true (lines_from [] text).
Proof.
  unfold preprocess. rewrite <- (take_lines_convert text [] (fun H => H)).
  now destruct (convert text).
Qed.

Lemma lines_from_plain (cur l : cstr) (rest : list ascii) :
  forallb plain l = true ->
  lines_from cur (l ++ LF :: rest) = (cur ++ l) :: lines_from [] rest.
Proof.
  revert cur. induction l as [|c l IH]; intros cur H; cbn [app lines_from].
  - now rewrite app_nil_r.
  - cbn [forallb] in H. apply andb_prop in H. destruct H as [Hc Hl].
    unfold plain in Hc. apply negb_true_iff in Hc.
    apply orb_false_elim in Hc. destruct Hc as [Hc Htab].
    apply orb_false_elim in Hc. destruct Hc as [Hc Hcr].
    apply orb_false_elim in Hc. destruct Hc as [Hnul Hlf].
    rewrite Hnul, Hlf. unfold converted. rewrite Hcr, Htab. cbn [orb].
    rewrite (IH _ Hl), <- app_assoc. reflexivity.
Qed.

Lemma lines_from_no_newline (cur : cstr) (frag : list ascii) :
  ~ In LF frag -> lines_from cur frag = [].
Proof.
  revert cur. induction frag as [|c frag IH]; intros cur H;
    cbn [lines_from]; [reflexivity|].
  destruct (Ascii.eqb c NUL); [reflexivity|].
  destruct (Ascii.eqb_spec c LF) as [-> | Hlf].
  - exfalso. apply H. now left.
  - apply IH. intros Hin. apply H. now right.
Qed.

Lemma lines_from_app_no_newline (cur : cstr) (text frag : list ascii) :
  ~ In LF frag -> lines_from cur (text ++ frag) = lines_from cur text.
Proof.
  intros H. revert cur. induction text as [|c text IH]; intros cur;
    cbn [app lines_from].
  - now apply lines_from_no_newline.
  - destruct (Ascii.eqb c NUL); [reflexivity|].
    destruct (Ascii.eqb c LF); [f_equal|]; apply IH.
Qed.

Lemma lines_from_length (cur : cstr) (text : list ascii) :
  length (lines_from cur text) = count_occ ascii_dec (c_string text) LF.
Proof.
  revert cur. induction text as [|c text IH]; intros cur;
    cbn [lines_from c_string]; [reflexivity|].
  destruct (Ascii.eqb_spec c NUL) as [-> | Hnul]; [reflexivity|].
  cbn [count_occ].
  destruct (Ascii.eqb_spec c LF) as [-> | Hlf].
  - destruct (ascii_dec LF LF); [|contradiction]. cbn [length]. now rewrite IH.
  - destruct (ascii_dec c LF); [contradiction|]. apply IH.
Qed.

Lemma plain_converted (c : ascii) :
  Ascii.eqb c NUL = false -> Ascii.eqb c LF = false ->
  plain (converted c) = true.
Proof.
  intros Hnul Hlf. unfold converted.
  destruct (Ascii.eqb c CR) eqn:Hcr; [reflexivity|].
  destruct (Ascii.eqb c TAB) eqn:Htab; [reflexivity|].
  unfold plain. cbn [orb]. now rewrite Hnul, Hlf, Hcr, Htab.
Qed.

Lemma lines_from_are_plain (cur : cstr) (text : list ascii) :
  forallb plain cur = true ->
  Forall (fun l => forallb plain l = true) (lines_from cur text).
Proof.
  revert cur. induction text as [|c text IH]; intros cur Hcur;
    cbn [lines_from]; [constructor|].
  destruct (Ascii.eqb c NUL) eqn:Hnul; [constructor|].
  destruct (Ascii.eqb c LF) eqn:Hlf.
  - constructor; [exact Hcur | now apply IH].
  - apply IH. rewrite forallb_app, Hcur. cbn [forallb andb].
    now rewrite plain_converted.
Qed.

(** *** Blanks at the ends of a line *)

Lemma scan_back_spec (first : bool) (l : cstr) (q : nat) :
  match scan_back first l q with
  | Some q' =>
      (q' <= q)%nat
      /\ (forall j, (q' <= j < q)%nat -> nth j l NUL = blank)
      /\ (q' = 0%nat \/ nth (q' - 1) l NUL <> blank)
  | None => first = true /\ forall j, (j < q)%nat -> nth j l NUL = blank
  end.
Proof.
  induction q as [|q IH]; cbn [scan_back].
  - destruct first.
    + split; [reflexivity|]. intros j Hj. lia.
    + split; [lia|]. split; [intros j Hj; lia | now left].
  - destruct (Ascii.eqb_spec (nth q l NUL) blank) as [E | E].
    + destruct (scan_back first l q) as [q'|].
      * destruct IH as (Hle & Hb & Hq). split; [lia|]. split; [|exact Hq].
        intros j Hj. destruct (Nat.eq_dec j q) as [-> | Hne]; [exact E|].
        apply Hb. lia.
      * destruct IH as (Hf & Hb). split; [exact Hf|].
        intros j Hj. destruct (Nat.eq_dec j q) as [-> | Hne]; [exact E|].
        apply Hb. lia.
    + split; [lia|]. split; [intros j Hj; lia|].
      right. now replace (S q - 1)%nat with q by lia.
Qed.

Lemma blanks_app (a b : cstr) : blanks (a ++ b) <-> blanks a /\ blanks b.
Proof. apply Forall_app. Qed.

Lemma skip_blanks_blanks (l : cstr) : blanks l -> skip_blanks l = [].
Proof.
  induction 1 as [|c l Hc Hl IH]; [reflexivity|].
  cbn [skip_blanks]. subst c. now rewrite Ascii.eqb_refl.
Qed.

(** What [strip] returns: the line without the blanks at its ends; and
    it returns only on a line [strcpy] can be called on. *)
Lemma strip_spec (first : bool) (line l : cstr) :
  strip first line = Returns l ->
  trimmed l
  /\ exists a b, line = a ++ l ++ b /\ blanks a /\ blanks b
                 /\ (a = [] \/ (length (l ++ b) < length a)%nat).
Proof.
  unfold strip. cbv zeta. intros H.
  destruct (skip_blanks_spec line) as (a & Hl & Ha & Hh).
  destruct ((0 <? length line - length (skip_blanks line))%nat
            && (length line - length (skip_blanks line)
                <=? length (skip_blanks line))%nat) eqn:Eo;
    [discriminate|].
  pose proof (scan_back_spec first (skip_blanks line)
                (length (skip_blanks line))) as Hs.
  destruct (scan_back first (skip_blanks line) (length (skip_blanks line)))
    as [q|]; [|discriminate].
  inversion H; subst l. clear H. destruct Hs as (Hle & Hb & Hq).
  set (s := skip_blanks line) in *.
  assert (Hlen : length (firstn q s) = q) by (rewrite length_firstn; lia).
  split; [split|].
  - intros l' H. destruct s as [|c s']; [now destruct q|].
    destruct q; [discriminate|]. cbn [firstn] in H. inversion H. subst c.
    now destruct (Hh s').
  - intros l' H.
    assert (Hl' : length l' = (q - 1)%nat /\ (0 < q)%nat).
    { rewrite H, length_app in Hlen. cbn in Hlen. lia. }
    destruct Hq as [-> | Hq]; [lia|]. apply Hq.
    rewrite <- (firstn_skipn q s), app_nth1 by lia.
    rewrite H, app_nth2 by lia.
    replace (q - 1 - length l')%nat with 0%nat by lia. reflexivity.
  - exists a, (skipn q s). split; [now rewrite firstn_skipn|].
    split; [exact Ha|]. split.
    + apply blanks_nth. intros j Hj.
      rewrite length_skipn in Hj. rewrite nth_skipn. apply Hb. lia.
    + rewrite firstn_skipn.
      assert (Hk : (length line - length s)%nat = length a).
      { rewrite Hl at 1. rewrite length_app. lia. }
      rewrite Hk in Eo. apply andb_false_iff in Eo.
      destruct Eo as [Eo | Eo].
      * left. apply Nat.ltb_ge in Eo. destruct a; [reflexivity | cbn in Eo; lia].
      * right. apply Nat.leb_gt in Eo. exact Eo.
Qed.

Lemma strip_false_inside (line : cstr) : strip false line <> ReadsOutside.
Proof.
  unfold strip. cbv zeta.
  destruct (_ && _); [discriminate|].
  pose proof (scan_back_spec false (skip_blanks line)
                (length (skip_blanks line))) as Hs.
  destruct (scan_back false (skip_blanks line) (length (skip_blanks line)))
    as [q|]; [discriminate | now destruct Hs].
Qed.

Lemma strip_not_malformed (first : bool) (line : cstr) :
  strip first line <> Malformed.
Proof.
  unfold strip. cbv zeta. destruct (_ && _); [discriminate|].
  now destruct (scan_back first _ _).
Qed.

(** Only a first line of blanks takes the scan before the buffer. *)
Lemma strip_outside (first : bool) (line : cstr) :
  strip first line = ReadsOutside <-> first = true /\ blanks line.
Proof.
  unfold strip. cbv zeta.
  destruct (skip_blanks_spec line) as (a & Hl & Ha & Hh).
  pose proof (scan_back_spec first (skip_blanks line)
                (length (skip_blanks line))) as Hs.
  split.
  - destruct (_ && _); [discriminate|].
    destruct (scan_back first (skip_blanks line) (length (skip_blanks line)))
      as [q|]; [discriminate|]. intros _. destruct Hs as (Hf & Hb).
    split; [exact Hf|]. rewrite Hl. apply blanks_app. split; [exact Ha|].
    now apply blanks_nth.
  - intros (-> & Hb). rewrite (skip_blanks_blanks line Hb).
    now destruct line.
Qed.

Lemma trimmed_last (l : cstr) :
  trimmed l -> l <> [] -> nth (length l - 1) l NUL <> blank.
Proof.
  intros [_ Ht] Hne E.
  destruct (exists_last Hne) as (l' & c & ->).
  rewrite length_app in E. cbn [length] in E.
  rewrite app_nth2 in E by lia.
  replace (length l' + 1 - 1 - length l')%nat with 0%nat in E by lia.
  cbn in E. subst c. now apply (Ht l').
Qed.

Lemma strip_no_leading_blank (first : bool) (l : cstr) :
  skip_blanks l = l ->
  strip first l
  = match scan_back first l (length l) with
    | Some q => Returns (firstn q l)
    | None => ReadsOutside
    end.
Proof.
  intros H. unfold strip. cbv zeta. rewrite H, Nat.sub_diag. reflexivity.
Qed.

(** A line without blanks at its ends is left as it is. *)
Lemma strip_trimmed (first : bool) (l : cstr) :
  trimmed l -> l <> [] \/ first = false -> strip first l = Returns l.
Proof.
  intros Ht Hne.
  rewrite strip_no_leading_blank by (apply skip_blanks_id, Ht).
  destruct l as [|c l'] eqn:E.
  - destruct Hne as [Hne | ->]; [contradiction | reflexivity].
  - rewrite <- E in *. assert (Hl : l <> []) by (rewrite E; discriminate).
    pose proof (trimmed_last l Ht Hl) as Hlast.
    destruct (length l) as [|n] eqn:En; [now rewrite E in En|].
    cbn [scan_back]. replace (S n - 1)%nat with n in Hlast by lia.
    destruct (Ascii.eqb_spec (nth n l NUL) blank); [contradiction|].
    now rewrite <- En, firstn_all.
Qed.

(** A line without blanks at its ends, followed by blanks, is cut back
    to the line. *)
Lemma strip_app_blanks (first : bool) (l b : cstr) :
  trimmed l -> l <> [] -> blanks b -> strip first (l ++ b) = Returns l.
Proof.
  intros Ht Hne Hb.
  assert (Hskip : skip_blanks (l ++ b) = l ++ b).
  { apply skip_blanks_id. intros l' H. destruct l as [|c l0]; [contradiction|].
    inversion H. subst c. now apply (proj1 Ht l0). }
  rewrite (strip_no_leading_blank first (l ++ b) Hskip).
  pose proof (trimmed_last l Ht Hne) as Hlast.
  assert (Hl : (0 < length l)%nat) by (destruct l; [contradiction | cbn; lia]).
  assert (Hin : forall j, (length l <= j < length (l ++ b))%nat ->
                          nth j (l ++ b) NUL = blank).
  { intros j Hj. rewrite length_app in Hj. rewrite app_nth2 by lia.
    unfold blanks in Hb. rewrite Forall_forall in Hb.
    apply Hb, nth_In. lia. }
  pose proof (scan_back_spec first (l ++ b) (length (l ++ b))) as Hs.
  destruct (scan_back first (l ++ b) (length (l ++ b))) as [q|].
  - destruct Hs as (Hle & Hbl & Hq).
    assert (Hlow : (length l <= q)%nat).
    { destruct (Nat.le_gt_cases (length l) q) as [H | H]; [exact H|].
      exfalso. apply Hlast. rewrite <- (app_nth1 l b) by lia.
      apply Hbl. rewrite length_app. lia. }
    assert (Hhigh : (q <= length l)%nat).
    { destruct (Nat.le_gt_cases q (length l)) as [H | H]; [exact H|].
      exfalso. destruct Hq as [-> | Hq]; [lia|]. apply Hq, Hin. lia. }
    replace q with (length l) by lia.
    now rewrite firstn_app, Nat.sub_diag, firstn_all, app_nil_r.
  - destruct Hs as (_ & Hbl). exfalso. apply Hlast.
    rewrite <- (app_nth1 l b) by lia. apply Hbl. rewrite length_app. lia.
Qed.

Lemma strip_lines_false_inside (lines : list cstr) :
  strip_lines false lines <> ReadsOutside.
Proof.
  induction lines as [|l lines IH]; cbn [strip_lines]; [discriminate|].
  pose proof (strip_false_inside l) as Hl.
  destruct (strip false l); cbn [and_then]; try congruence.
  destruct (strip_lines false lines); cbn [and_then]; congruence.
Qed.

Lemma strip_lines_not_malformed (first : bool) (lines : list cstr) :
  strip_lines first lines <> Malformed.
Proof.
  revert first. induction lines as [|l lines IH]; intros first;
    cbn [strip_lines]; [discriminate|].
  pose proof (strip_not_malformed first l) as Hn.
  destruct (strip first l); cbn [and_then]; try congruence.
  specialize (IH false).
  destruct (strip_lines false lines); cbn [and_then]; congruence.
Qed.

Lemma strip_lines_spec (first : bool) (raw lines : list cstr) :
  strip_lines first raw = Returns lines ->
  Forall2 (fun r l => trimmed l
                      /\ exists a b, r = a ++ l ++ b /\ blanks a /\ blanks b
                                     /\ (a = [] \/ (length (l ++ b) < length a)%nat))
          raw lines.
Proof.
  revert first lines. induction raw as [|r raw IH]; intros first lines H;
    cbn [strip_lines] in H.
  - inversion H. constructor.
  - destruct (strip first r) as [l| | | |] eqn:E; cbn [and_then] in H;
      try discriminate.
    destruct (strip_lines false raw) as [ls| | | |] eqn:Es; cbn [and_then] in H;
      try discriminate.
    inversion H; subst lines. constructor.
    + now apply (strip_spec first).
    + now apply (IH false).
Qed.

(** The first line of a text. *)
Lemma lines_from_first (cur a : cstr) (rest : list ascii) :
  Forall (fun c => c <> NUL /\ c <> LF) a ->
  lines_from cur (a ++ LF :: rest)
  = (cur ++ map converted a) :: lines_from [] rest.
Proof.
  intros H. revert cur. induction H as [|c a [Hnul Hlf] Ha IH]; intros cur;
    cbn [app lines_from map].
  - now rewrite app_nil_r.
  - destruct (Ascii.eqb_spec c NUL); [contradiction|].
    destruct (Ascii.eqb_spec c LF); [contradiction|].
    now rewrite IH, <- app_assoc.
Qed.

Lemma lines_from_cons_inv (cur l : cstr) (text : list ascii) (ls : list cstr) :
  lines_from cur text = l :: ls ->
  exists a rest,
    text = a ++ LF :: rest /\ Forall (fun c => c <> NUL /\ c <> LF) a
    /\ l = cur ++ map converted a.
Proof.
  revert cur. induction text as [|c text IH]; intros cur H;
    cbn [lines_from] in H; [discriminate|].
  destruct (Ascii.eqb_spec c NUL) as [-> | Hnul]; [discriminate|].
  destruct (Ascii.eqb_spec c LF) as [-> | Hlf].
  - inversion H; subst. exists [], text.
    split; [reflexivity|]. split; [constructor | now rewrite app_nil_r].
  - destruct (IH _ H) as (a & rest & -> & Ha & ->).
    exists (c :: a), rest. split; [reflexivity|].
    split; [now constructor | now rewrite <- app_assoc].
Qed.

Lemma converted_blank (c : ascii) :
  converted c = blank <-> c = blank \/ c = TAB \/ c = CR.
Proof.
  unfold converted.
  destruct (Ascii.eqb_spec c CR) as [-> | Hcr]; cbn [orb]; [tauto|].
  destruct (Ascii.eqb_spec c TAB) as [-> | Htab]; [tauto|].
  split; [tauto|]. intros [H | [H | H]]; congruence.
Qed.

(** *** A key and its value *)

Lemma parseline_at_colon (key rest : cstr) :
  ~ In colon key -> key <> [] ->
  parseline (key ++ colon :: rest)
  = match skip_blanks rest with
    | [] => Returns (key, [])
    | c :: v =>
        match back_over_blanks (c :: v) (length (c :: v) - 1) with
        | Some q => Returns (key, firstn (S q) (c :: v))
        | None => ReadsOutside
        end
    end.
Proof.
  intros Hk Hne. unfold parseline.
  rewrite (strchr_app key rest colon Hk), back_up_at_colon.
  destruct (length key =? 0)%nat eqn:E.
  { apply Nat.eqb_eq in E. destruct key; [contradiction | discriminate]. }
  rewrite firstn_app, Nat.sub_diag, firstn_all, app_nil_r.
  replace (skipn (S (length key)) (key ++ colon :: rest)) with rest
    by (rewrite skipn_app, skipn_all2 by lia;
        replace (S (length key) - length key)%nat with 1%nat by lia;
        reflexivity).
  now destruct (skip_blanks rest).
Qed.

Lemma parseline_inside (line : cstr) : parseline line <> ReadsOutside.
Proof.
  unfold parseline. destruct (strchr line colon) as [r|]; [|discriminate].
  destruct (back_up line r =? 0)%nat; [discriminate|].
  destruct (skip_blanks_spec (skipn (S r) line)) as (a & _ & _ & Hh).
  destruct (skip_blanks (skipn (S r) line)) as [|c v]; [discriminate|].
  assert (H0 : nth 0 (c :: v) NUL <> blank).
  { cbn. intros ->. now destruct (Hh v). }
  destruct (back_over_blanks_spec (c :: v) (length (c :: v) - 1) H0)
    as (q & -> & _). discriminate.
Qed.

(** X16.  [parseline] splits a line at its first colon.  The key is all
    the text before that colon: the loop that is to back up over blanks
    before the colon starts on the colon and stops there, so blanks
    between the key and the colon stay in the key.  The value is the
    text after the colon without the blanks at its two ends. *)
Theorem parseline_splits_at_the_first_colon (key rest : cstr) :
  ~ In colon key -> key <> [] ->
  exists value a b,
    parseline (key ++ colon :: rest) = Returns (key, value)
    /\ rest = a ++ value ++ b /\ blanks a /\ blanks b /\ trimmed value.
Proof.
  intros Hk Hne. rewrite (parseline_at_colon key rest Hk Hne).
  destruct (skip_blanks_spec rest) as (a & Hr & Ha & Hh).
  destruct (skip_blanks rest) as [|c v] eqn:Ev.
  - exists [], a, [].
    split; [reflexivity|]. split; [now rewrite app_nil_r in *|].
    split; [exact Ha|]. split; [constructor|].
    split; [discriminate | intros l' H; now destruct l'].
  - assert (H0 : nth 0 (c :: v) NUL <> blank).
    { cbn. intros ->. now destruct (Hh v). }
    destruct (back_over_blanks_spec (c :: v) (length (c :: v) - 1) H0)
      as (q & Hq & Hle & Hn & Hb).
    rewrite Hq.
    exists (firstn (S q) (c :: v)), a, (skipn (S q) (c :: v)).
    split; [reflexivity|]. split; [now rewrite firstn_skipn|].
    split; [exact Ha|]. split; [|split].
    + apply blanks_nth. intros j Hj. rewrite length_skipn in Hj.
      rewrite nth_skipn. apply Hb. cbn [length] in *. lia.
    + cbn [firstn]. intros l' H. inversion H. subst c. now apply H0.
    + intros l' H.
      assert (Hlen : length (firstn (S q) (c :: v)) = S q)
        by (rewrite length_firstn; cbn [length] in *; lia).
      assert (Hl : length l' = q).
      { rewrite H, length_app in Hlen. cbn in Hlen. lia. }
      apply Hn.
      rewrite <- (firstn_skipn (S q) (c :: v)), app_nth1 by lia.
      rewrite H, app_nth2 by lia.
      replace (q - length l')%nat with 0%nat by lia. reflexivity.
Qed.

Lemma parseline_splits_at_the_first_colon_witness :
  exists value a b,
    parseline (list_ascii_of_string "Install Prefix :  /usr/local  ")
    = Returns (list_ascii_of_string "Install Prefix ", value)
    /\ list_ascii_of_string "  /usr/local  " = a ++ value ++ b
    /\ blanks a /\ blanks b /\ trimmed value.
Proof.
  apply (parseline_splits_at_the_first_colon
           (list_ascii_of_string "Install Prefix ")
           (list_ascii_of_string "  /usr/local  ")).
  - vm_compute. intuition discriminate.
  - discriminate.
Defined.

(** X17.  The lines [preprocess] returns, when it returns: one for each
    newline of the text before its NUL (what follows the last newline is
    no line), each the line of the text, tabs and carriage returns
    turned to blanks, without the blanks at its ends, and holding no
    NUL, newline, tab or carriage return.  It returns only when every
    line with leading blanks has more of them than characters after
    them: on any other such line [strcpy] is called on two strings that
    overlap. *)
Theorem preprocess_lines_are_trimmed (text : list ascii) (lines : list cstr) :
  preprocess text = Returns lines ->
  length lines = count_occ ascii_dec (c_string text) LF
  /\ Forall2 (fun r l => trimmed l
                         /\ exists a b, r = a ++ l ++ b /\ blanks a /\ blanks b
                                        /\ (a = []
                                            \/ (length (l ++ b) < length a)%nat))
       (lines_from [] text) lines
  /\ Forall (fun l => forallb plain l = true) lines.
Proof.
  rewrite preprocess_lines. intros H. apply strip_lines_spec in H.
  split; [|split].
  - rewrite <- (Forall2_length H). apply lines_from_length.
  - exact H.
  - pose proof (lines_from_are_plain [] text eq_refl) as Hp.
    induction H as [|r l raw ls (_ & a & b & -> & _) H IH]; [constructor|].
    inversion Hp as [|? ? Hr Hraw]; subst. constructor; [|now apply IH].
    rewrite !forallb_app in Hr. apply andb_prop in Hr. destruct Hr as [_ Hr].
    apply andb_prop in Hr. now destruct Hr.
Qed.

Lemma preprocess_lines_are_trimmed_witness :
  length (map list_ascii_of_string
            ["# NetCDF C Configuration Summary"; "";
             "NetCDF Version:  4.4.1.1"; "Install Prefix :  /usr/local";
             "DAP Support:"]%string)
  = count_occ ascii_dec (c_string example_text) LF.
Proof.
  exact (proj1 (preprocess_lines_are_trimmed example_text _ eq_refl)).
Defined.

(** X18.  [preprocess] steps before its buffer exactly when the text
    begins with a line of nothing but blanks, tabs and carriage returns
    (an empty first line is one): the scan for the end of such a line
    starts at the first character of the buffer and reads the one before
    it.  It never ends the way [parseline] does on a line it refuses. *)
Theorem blank_first_line_reads_before_the_buffer (text : list ascii) :
  (preprocess text = ReadsOutside
   <-> exists a rest,
         text = a ++ LF :: rest
         /\ Forall (fun c => c = blank \/ c = TAB \/ c = CR) a)
  /\ preprocess text <> Malformed.
Proof.
  rewrite preprocess_lines. split; [|apply strip_lines_not_malformed].
  split.
  - intros H. destruct (lines_from [] text) as [|l ls] eqn:E;
      [discriminate|].
    cbn [strip_lines] in H.
    destruct (strip true l) as [l'| | | |] eqn:El; cbn [and_then] in H;
      try discriminate.
    + pose proof (strip_lines_false_inside ls) as Hls.
      destruct (strip_lines false ls); cbn [and_then] in H; congruence.
    + apply strip_outside in El. destruct El as [_ Hb].
      destruct (lines_from_cons_inv _ _ _ _ E) as (a & rest & -> & Ha & ->).
      exists a, rest. split; [reflexivity|].
      cbn [app] in Hb. unfold blanks in Hb. rewrite Forall_map in Hb.
      eapply Forall_impl; [|exact Hb]. intros c Hc. now apply converted_blank.
  - intros (a & rest & -> & Ha).
    rewrite lines_from_first.
    + cbn [strip_lines app].
      replace (strip true (map converted a)) with (@ReadsOutside cstr);
        [reflexivity|].
      symmetry. apply strip_outside. split; [reflexivity|].
      unfold blanks. rewrite Forall_map.
      eapply Forall_impl; [|exact Ha]. intros c Hc. now apply converted_blank.
    + eapply Forall_impl; [|exact Ha].
      intros c [-> | [-> | ->]]; split; discriminate.
Qed.

(** X19.  Text after the last newline is dropped: a last line that no
    newline closes is not among the lines, so a setting on it is not in
    the map, and no lookup finds it. *)
Theorem unterminated_last_line_is_dropped (text frag : list ascii) :
  ~ In LF frag ->
  parse (text ++ frag) = parse text
  /\ forall map key,
       nc_settings (text ++ frag) map key = nc_settings text map key.
Proof.
  intros H.
  assert (Hp : parse (text ++ frag) = parse text).
  { unfold parse.
    now rewrite !preprocess_lines, (lines_from_app_no_newline [] text frag H). }
  split; [exact Hp|]. intros map key. unfold nc_settings, nc_settings_all.
  now rewrite Hp.
Qed.

Lemma unterminated_last_line_is_dropped_witness :
  nc_settings example_text None (list_ascii_of_string "Extra Libraries")
  = nc_settings example_lines None (list_ascii_of_string "Extra Libraries").
Proof.
  apply (unterminated_last_line_is_dropped example_lines
           (list_ascii_of_string "Extra Libraries: -lm")).
  vm_compute. intuition discriminate.
Defined.

(** A key line that holds a colon is taken apart. *)
Lemma key_line_parses (line : cstr) :
  iskeyline line = true -> In colon line ->
  exists kv, parseline line = Returns kv.
Proof.
  intros Hkey Hin.
  destruct (strchr line colon) as [r|] eqn:E;
    [|apply strchr_None in E; contradiction].
  destruct (strchr_Some line colon r E) as (Hl & Hn & Hr).
  assert (Hne : firstn r line <> []).
  { destruct line as [|c l]; [discriminate Hkey|].
    destruct r; [|discriminate].
    cbn in Hl. injection Hl as Hc. subst c.
    vm_compute in Hkey. discriminate. }
  pose proof (parseline_inside line) as Hi.
  rewrite Hl in Hi |- *.
  rewrite (parseline_at_colon _ _ Hn Hne) in Hi |- *.
  destruct (skip_blanks (skipn (S r) line)) as [|c v]; [now eexists|].
  destruct (back_over_blanks (c :: v) (length (c :: v) - 1));
    [now eexists | contradiction].
Qed.

Lemma parse_lines_complete (lines : list cstr) :
  Forall (fun l => iskeyline l = true -> In colon l) lines ->
  exists m, parse_lines lines = Returns (mkMap m 0).
Proof.
  induction 1 as [|l lines Hl H (m & IH)]; cbn [parse_lines];
    [now eexists|].
  destruct (iskeyline l) eqn:Ek; [|now exists m].
  destruct (key_line_parses l Ek (Hl eq_refl)) as (kv & ->).
  rewrite IH. cbn [and_then stored unset]. now eexists.
Qed.

(** The map after a key line that holds no colon. *)
Lemma parse_lines_stop (pre post : list cstr) (line : cstr)
    (m : list (cstr * cstr)) :
  parse_lines pre = Returns (mkMap m 0) ->
  iskeyline line = true -> ~ In colon line ->
  parse_lines (pre ++ line :: post) = Returns (mkMap m (S (nkeys post))).
Proof.
  intros Hpre Hkey Hcolon. revert m Hpre.
  induction pre as [|l pre IH]; intros m Hpre; cbn [app parse_lines].
  - cbn in Hpre. inversion Hpre; subst m. rewrite Hkey. unfold parseline.
    rewrite (proj2 (strchr_None line colon) Hcolon).
    unfold nkeys. cbn [filter]. now rewrite Hkey.
  - cbn [parse_lines] in Hpre.
    destruct (iskeyline l) eqn:El; [|now apply IH].
    destruct (parseline l) as [kv| | | |]; try discriminate.
    + destruct (parse_lines pre) as [[m' u]| | | |]; cbn [and_then] in Hpre;
        try discriminate.
      cbn [stored unset] in Hpre. inversion Hpre; subst m u.
      rewrite (IH m' eq_refl). reflexivity.
    + exfalso. unfold nkeys in Hpre. cbn [filter] in Hpre.
      rewrite El in Hpre. discriminate.
Qed.

(** X20.  A key line without a colon ends the map early.  When every
    key line before it holds a colon, [parse] returns with the pairs of
    those lines stored and with the slots of this line and of the key
    lines after it never set: a lookup of a key stored before the line
    returns its value, and every other lookup runs into a slot that was
    never set. *)
Theorem key_line_without_colon_ends_the_map
    (text : list ascii) (pre post : list cstr) (line : cstr) :
  preprocess text = Returns (pre ++ line :: post) ->
  Forall (fun l => iskeyline l = true -> In colon l) pre ->
  iskeyline line = true -> ~ In colon line ->
  exists m,
    parse_lines pre = Returns (mkMap m 0)
    /\ parse text = Returns (mkMap m (S (nkeys post)))
    /\ forall key,
         nc_settings text None key
         = match scan_map m key with
           | Some v => Returns (Some v, Some (mkMap m (S (nkeys post))))
           | None => Unset
           end.
Proof.
  intros Hp Hpre Hkey Hcolon.
  destruct (parse_lines_complete pre Hpre) as (m & Hm).
  exists m. split; [exact Hm|].
  assert (H : parse text = Returns (mkMap m (S (nkeys post)))).
  { unfold parse. rewrite Hp. cbn [and_then].
    exact (parse_lines_stop pre post line m Hm Hkey Hcolon). }
  split; [exact H|]. intros key. unfold nc_settings, nc_settings_all.
  rewrite H. cbn [and_then stored unset]. now destruct (scan_map m key).
Qed.

Lemma key_line_without_colon_ends_the_map_witness :
  nc_settings
    (list_ascii_of_string "a: 1" ++ LF :: list_ascii_of_string "b" ++ [LF])
    None (list_ascii_of_string "a")
  = Returns (Some (list_ascii_of_string "1"),
             Some (mkMap [(list_ascii_of_string "a",
                           list_ascii_of_string "1")] 1))
  /\ nc_settings
       (list_ascii_of_string "a: 1" ++ LF :: list_ascii_of_string "b" ++ [LF])
       None (list_ascii_of_string "c")
     = Unset.
Proof.
  destruct (key_line_without_colon_ends_the_map
              (list_ascii_of_string "a: 1" ++ LF
                 :: list_ascii_of_string "b" ++ [LF])
              [list_ascii_of_string "a: 1"] [] (list_ascii_of_string "b")
              eq_refl
              ltac:(repeat constructor; intros _; vm_compute; tauto)
              eq_refl
              ltac:(vm_compute; intuition discriminate))
    as (m & Hm & _ & Hkeys).
  vm_compute in Hm. inversion Hm; subst m.
  split; [exact (Hkeys (list_ascii_of_string "a"))
         | exact (Hkeys (list_ascii_of_string "c"))].
Defined.

(** *** Writing a settings text and reading it back *)

Lemma writable_key_spec (k : cstr) :
  writable_key k = true ->
  iskeyline k = true /\ k <> [] /\ (forall l', k <> blank :: l')
  /\ ~ In colon k /\ forallb plain k = true.
Proof.
  unfold writable_key. intros H. apply andb_prop in H. destruct H as [Hk Hc].
  split; [exact Hk|]. split; [|split; [|split]].
  - intros ->. discriminate Hk.
  - intros l' ->. cbn in Hk. discriminate Hk.
  - intros Hin. rewrite forallb_forall in Hc. specialize (Hc colon Hin).
    apply andb_prop in Hc. destruct Hc as [_ Hc].
    now rewrite Ascii.eqb_refl in Hc.
  - rewrite forallb_forall in *. intros c Hin. specialize (Hc c Hin).
    apply andb_prop in Hc. now destruct Hc.
Qed.

Lemma writable_value_spec (v : cstr) :
  writable_value v = true -> forallb plain v = true /\ trimmed v.
Proof.
  unfold writable_value. intros H. apply andb_prop in H.
  destruct H as [H Hlast]. apply andb_prop in H. destruct H as [Hp Hhd].
  split; [exact Hp|]. split.
  - intros l' ->. cbn [hd] in Hhd. now rewrite Ascii.eqb_refl in Hhd.
  - intros l' ->. rewrite last_last, Ascii.eqb_refl in Hlast. discriminate.
Qed.

Lemma iskeyline_app (k rest : cstr) :
  k <> [] -> iskeyline (k ++ rest) = iskeyline k.
Proof. destruct k; [contradiction | reflexivity]. Qed.

Lemma back_over_blanks_stops (v : cstr) (q : nat) :
  nth q v NUL <> blank -> back_over_blanks v q = Some q.
Proof.
  intros H. destruct q as [|q]; cbn [back_over_blanks].
  - now destruct (Ascii.eqb_spec (nth 0 v NUL) blank).
  - now destruct (Ascii.eqb_spec (nth (S q) v NUL) blank).
Qed.

(** The line written for a key and a value is read back as the two. *)
Lemma written_line_parses (first : bool) (k v : cstr) :
  writable_key k = true -> writable_value v = true ->
  exists r,
    strip first (k ++ colon :: blank :: v) = Returns r
    /\ iskeyline r = true /\ parseline r = Returns (k, v).
Proof.
  intros Hk Hv.
  destruct (writable_key_spec k Hk) as (Hkey & Hne & Hhd & Hcolon & _).
  destruct (writable_value_spec v Hv) as (_ & Hvt).
  destruct v as [|c v'].
  - exists (k ++ [colon]). split; [|split].
    + change (k ++ [colon; blank]) with (k ++ [colon] ++ [blank]).
      rewrite app_assoc. apply strip_app_blanks.
      * split.
        -- intros l' H. destruct k as [|x k']; [contradiction|].
           inversion H. subst x. now apply (Hhd k').
        -- intros l' H. apply app_inj_tail in H. now destruct H.
      * now destruct k.
      * repeat constructor.
    + now rewrite iskeyline_app.
    + now rewrite (parseline_at_colon k [] Hcolon Hne).
  - exists (k ++ colon :: blank :: c :: v'). split; [|split].
    + apply strip_trimmed; [|left; now destruct k].
      split.
      * intros l' H. destruct k as [|x k']; [contradiction|].
        inversion H. subst x. now apply (Hhd k').
      * intros l' H.
        assert (E : c :: v' = removelast (c :: v') ++ [last (c :: v') NUL])
          by (now apply app_removelast_last).
        apply (proj2 Hvt (removelast (c :: v'))).
        rewrite E in H.
        change (k ++ colon :: blank
                  :: removelast (c :: v') ++ [last (c :: v') NUL])
          with (k ++ (colon :: blank :: removelast (c :: v'))
                  ++ [last (c :: v') NUL]) in H.
        rewrite app_assoc in H. apply app_inj_tail in H.
        destruct H as [_ H]. now rewrite <- H.
    + now rewrite iskeyline_app.
    + rewrite (parseline_at_colon k (blank :: c :: v') Hcolon Hne).
      change (skip_blanks (blank :: c :: v')) with (skip_blanks (c :: v')).
      rewrite (skip_blanks_id (c :: v') (proj1 Hvt)).
      rewrite back_over_blanks_stops
        by (apply trimmed_last; [exact Hvt | discriminate]).
      f_equal. f_equal.
      replace (S (length (c :: v') - 1)) with (length (c :: v'))
        by (cbn [length]; lia).
      apply firstn_all.
Qed.

Lemma settings_text_lines (kvs : list (cstr * cstr)) :
  Forall (fun kv => writable_key (fst kv) = true
                    /\ writable_value (snd kv) = true) kvs ->
  lines_from [] (settings_text kvs)
  = map (fun kv => fst kv ++ colon :: blank :: snd kv) kvs.
Proof.
  induction 1 as [|[k v] kvs [Hk Hv] H IH]; [reflexivity|].
  cbn [fst snd] in *.
  change (settings_text ((k, v) :: kvs))
    with ((k ++ colon :: blank :: v ++ [LF]) ++ settings_text kvs).
  replace ((k ++ colon :: blank :: v ++ [LF]) ++ settings_text kvs)
    with ((k ++ colon :: blank :: v) ++ LF :: settings_text kvs)
    by (rewrite <- !app_assoc; cbn [app]; now rewrite <- app_assoc).
  rewrite lines_from_plain.
  - cbn [map app fst snd]. now rewrite IH.
  - destruct (writable_key_spec k Hk) as (_ & _ & _ & _ & Hpk).
    destruct (writable_value_spec v Hv) as (Hpv & _).
    rewrite forallb_app, Hpk. cbn [forallb]. now rewrite Hpv.
Qed.

Lemma written_lines_parse (first : bool) (kvs : list (cstr * cstr)) :
  Forall (fun kv => writable_key (fst kv) = true
                    /\ writable_value (snd kv) = true) kvs ->
  and_then
    (strip_lines first (map (fun kv => fst kv ++ colon :: blank :: snd kv) kvs))
    parse_lines
  = Returns (mkMap kvs 0).
Proof.
  intros H. revert first. induction H as [|[k v] kvs [Hk Hv] H IH];
    intros first; [reflexivity|].
  cbn [map strip_lines fst snd] in *.
  destruct (written_line_parses first k v Hk Hv) as (r & -> & Hr & Hp).
  cbn [and_then]. specialize (IH false).
  destruct (strip_lines false
              (map (fun kv => fst kv ++ colon :: blank :: snd kv) kvs))
    as [ls| | | |]; cbn [and_then] in *; try discriminate.
  cbn [parse_lines]. rewrite Hr, Hp, IH. reflexivity.
Qed.

(** X21.  A settings text written from keys and values, one line
    [key: value] each, is read back as these keys and values in their
    order, and a lookup returns the value of the first key that matches
    without regard to case.  A key must start with a legal leading key
    character and hold no colon, a value must have no blank at either
    end, and neither may hold a NUL, newline, tab or carriage return. *)
Theorem settings_text_round_trip (kvs : list (cstr * cstr)) :
  Forall (fun kv => writable_key (fst kv) = true
                    /\ writable_value (snd kv) = true) kvs ->
  parse (settings_text kvs) = Returns (mkMap kvs 0)
  /\ forall key,
       nc_settings (settings_text kvs) None key
       = Returns (scan_map kvs key, Some (mkMap kvs 0)).
Proof.
  intros H.
  assert (Hp : parse (settings_text kvs) = Returns (mkMap kvs 0)).
  { unfold parse. rewrite preprocess_lines, (settings_text_lines kvs H).
    apply written_lines_parse, H. }
  split; [exact Hp|]. intros key. unfold nc_settings, nc_settings_all.
  rewrite Hp. cbn [and_then stored unset]. now destruct (scan_map kvs key).
Qed.

Lemma settings_text_round_trip_witness :
  nc_settings
    (settings_text
       [(list_ascii_of_string "NetCDF Version", list_ascii_of_string "4.4.1.1");
        (list_ascii_of_string "DAP Support", []);
        (list_ascii_of_string "netcdf version", list_ascii_of_string "other")])
    None (list_ascii_of_string "NETCDF VERSION")
  = Returns
      (Some (list_ascii_of_string "4.4.1.1"),
       Some
         (mkMap
            [(list_ascii_of_string "NetCDF Version",
              list_ascii_of_string "4.4.1.1");
             (list_ascii_of_string "DAP Support", []);
             (list_ascii_of_string "netcdf version",
              list_ascii_of_string "other")] 0)).
Proof.
  apply (settings_text_round_trip
           [(list_ascii_of_string "NetCDF Version",
             list_ascii_of_string "4.4.1.1");
            (list_ascii_of_string "DAP Support", []);
            (list_ascii_of_string "netcdf version",
             list_ascii_of_string "other")]).
  repeat constructor.
Defined.

End NcSettingsFacts.


(** ** Facts about runs *)

Lemma bind_Done_inv {A B} (m : M A) (f : A -> M B) (b : B) (w : list Event) :
  bind m f = (Done b, w) ->
  exists a w1 w2, m = (Done a, w1) /\ f a = (Done b, w2) /\ w = w1 ++ w2.
Proof.
  unfold bind. destruct m as [[a| |] w1]; try discriminate.
  cbv zeta. destruct (f a) as [o w2] eqn:E. cbn [fst snd].
  intros H. inversion H; subst. exists a, w1, w2. auto.
Qed.

Lemma bind_cases {A B} (m : M A) (f : A -> M B) :
  (exists a, fst m = Done a
             /\ bind m f = (fst (f a), snd m ++ snd (f a)))
  \/ (fst m = Fatal /\ bind m f = (Fatal, snd m))
  \/ (fst m = Undefined /\ bind m f = (Undefined, snd m)).
Proof.
  destruct m as [[a| |] w]; cbn; [left; exists a | right; left | right; right];
    auto.
Qed.

Lemma vec_at_Done {A} (v : list A) (i : Z) (x : A) (w : list Event) (d : A) :
  vec_at v i = (Done x, w) ->
  w = [] /\ 0 <= i < Z.of_nat (length v) /\ znth v i d = x.
Proof.
  unfold vec_at, znth. destruct (0 <=? i) eqn:Hi; [|discriminate].
  apply Z.leb_le in Hi.
  destruct (nth_error v (Z.to_nat i)) as [y|] eqn:E; [|discriminate].
  intros H. inversion H; subst.
  assert (Hlt : (Z.to_nat i < length v)%nat)
    by (apply nth_error_Some; congruence).
  repeat split; try lia. now apply nth_error_nth.
Qed.

Lemma vec_at_cases {A} (v : list A) (i : Z) :
  (exists x, vec_at v i = (Done x, [])) \/ vec_at v i = (Undefined, []).
Proof.
  unfold vec_at. destruct (0 <=? i); [|now right].
  destruct (nth_error v (Z.to_nat i)) as [y|]; [left; now exists y | now right].
Qed.

Lemma vec_at_In {A} (v : list A) (i : Z) (x : A) (w : list Event) :
  vec_at v i = (Done x, w) -> In x v.
Proof.
  unfold vec_at. destruct (0 <=? i); [|discriminate].
  destruct (nth_error v (Z.to_nat i)) as [y|] eqn:E; [|discriminate].
  intros H. inversion H; subst. eapply nth_error_In; eauto.
Qed.

Lemma vec_set_cases {A} (v : list A) (i : Z) (x : A) :
  (0 <= i < Z.of_nat (length v)
   /\ vec_set v i x = (Done (list_set v (Z.to_nat i) x), []))
  \/ vec_set v i x = (Undefined, []).
Proof.
  unfold vec_set.
  destruct (0 <=? i) eqn:H0; destruct (i <? Z.of_nat (length v)) eqn:H1;
    cbn; auto.
  left. apply Z.leb_le in H0. apply Z.ltb_lt in H1. split; [lia | reflexivity].
Qed.

Lemma vec_set_Done {A} (v v' : list A) (i : Z) (x : A) (w : list Event) :
  vec_set v i x = (Done v', w) ->
  0 <= i < Z.of_nat (length v) /\ v' = list_set v (Z.to_nat i) x /\ w = [].
Proof.
  destruct (vec_set_cases v i x) as [[Hr ->] | ->]; [|discriminate].
  intros H. inversion H. auto.
Qed.

Lemma length_list_set {A} (v : list A) (n : nat) (x : A) :
  length (list_set v n x) = length v.
Proof.
  revert n. induction v as [|y v IH]; intros [|n]; cbn; auto.
Qed.

Lemma nth_list_set_eq {A} (v : list A) (n : nat) (x d : A) :
  (n < length v)%nat -> nth n (list_set v n x) d = x.
Proof.
  revert n. induction v as [|y v IH]; intros [|n] H; cbn in *;
    try lia; auto. apply IH. lia.
Qed.

Lemma nth_list_set_neq {A} (v : list A) (n k : nat) (x d : A) :
  n <> k -> nth k (list_set v n x) d = nth k v d.
Proof.
  revert n k. induction v as [|y v IH]; intros [|n] [|k] H; cbn;
    try congruence; auto.
Qed.

Lemma foldM_app {S A} (body : S -> A -> M S) (l1 l2 : list A) (s : S) :
  foldM body (l1 ++ l2) s = bind (foldM body l1 s) (foldM body l2).
Proof.
  revert s. induction l1 as [|x l1 IH]; intros s; cbn [foldM app].
  - unfold bind, ret. cbn. now destruct (foldM body l2 s).
  - unfold bind at 1 3.
    destruct (body s x) as [[s'| |] w]; auto.
    cbv zeta. rewrite IH. unfold bind.
    destruct (foldM body l1 s') as [[s''| |] w']; cbn [fst snd]; auto.
    cbv zeta. now rewrite app_assoc.
Qed.

Lemma In_upto (n i : Z) : In i (upto n) <-> 0 <= i < n.
Proof.
  unfold upto. rewrite in_map_iff. split.
  - intros (k & <- & Hk). apply in_seq in Hk. lia.
  - intros H. exists (Z.to_nat i). split; [lia|]. apply in_seq. lia.
Qed.

Lemma wrap32_small (z : Z) : 0 <= z < 2 ^ 32 -> wrap32 z = z.
Proof. intros H. unfold wrap32. now apply Z.mod_small. Qed.

(** ** The command line and the variable names, in [main] *)

Section MainFacts.

Variable contains_point : Mesh -> Z -> Point -> bool.
Variable OctTree : Type.
Variable octree_build : Mesh -> Z -> OctTree.
Variable find_element : OctTree -> Point -> option Z.
Variable n_active_bins : OctTree -> Z.
Variable fe_reinit : Mesh -> Z -> FEData.
Variable inverse_map : Mesh -> Z -> Point -> Point.
Variable shape : Mesh -> Z -> Z -> Point -> Real.
Variable read_mesh : string -> Mesh.
Variable read_mgf_soln : Mesh -> string -> list Real * list string.
Variable atoi : string -> Z.

Local Abbreviation main' :=
  (main contains_point OctTree octree_build find_element n_active_bins
        fe_reinit inverse_map shape read_mesh read_mgf_soln atoi).

(** C8.  Called with fewer than six arguments (the program name, the
    variable index, two mesh files and two solution files), [main] prints
    the usage line on standard error and stops with a fatal error; that
    line is all the run does, so no input file is read. *)
Theorem usage_error_before_any_read (argv : list string) :
  (1 <= length argv < 6)%nat ->
  main' argv
  = (Fatal,
     [EvStderr ("Usage: " ++ argv_at argv 0
                ++ " ivar m0.mesh m1.mesh s0.soln s1.soln")])
  /\ Forall (fun ev => ~ reads_input ev) (snd (main' argv)).
Proof.
  intros Hlen.
  assert (E : main' argv
              = (Fatal,
                 [EvStderr ("Usage: " ++ argv_at argv 0
                            ++ " ivar m0.mesh m1.mesh s0.soln s1.soln")])).
  { unfold main.
    replace (Z.of_nat (length argv) <? 6) with true
      by (symmetry; apply Z.ltb_lt; lia).
    reflexivity. }
  split; [exact E|]. rewrite E. cbn [snd].
  constructor; [cbn; tauto | constructor].
Qed.

(** C6.  With all six arguments given, when the variable names read with
    the fine solution differ from those read with the coarse solution the
    run stops at the [assert], with a fatal error: it has read the four
    files and done nothing else, so the octree is not built, no element is
    searched, nothing is interpolated, and no result is printed or
    written. *)
Theorem name_mismatch_is_fatal_before_numerics (argv : list string) :
  (6 <= length argv)%nat ->
  let mesh_coarse := read_mesh (argv_at argv 2) in
  let mesh_fine := read_mesh (argv_at argv 3) in
  snd (read_mgf_soln mesh_fine (argv_at argv 5))
  <> snd (read_mgf_soln mesh_coarse (argv_at argv 4)) ->
  fst (main' argv) = Fatal
  /\ snd (main' argv)
     = [EvStdout ("Reading Mesh " ++ argv_at argv 2);
        EvReadMesh (argv_at argv 2);
        EvStdout ("Reading Mesh " ++ argv_at argv 3);
        EvReadMesh (argv_at argv 3);
        EvStdout ("Reading Soln " ++ argv_at argv 4);
        EvReadSoln (argv_at argv 4);
        EvStdout ("Reading Soln " ++ argv_at argv 5);
        EvReadSoln (argv_at argv 5)]
  /\ Forall (fun ev => ~ numerical ev) (snd (main' argv)).
Proof.
  intros Hlen mesh_coarse mesh_fine Hneq.
  assert (E : main' argv
              = (Fatal,
                 [EvStdout ("Reading Mesh " ++ argv_at argv 2);
                  EvReadMesh (argv_at argv 2);
                  EvStdout ("Reading Mesh " ++ argv_at argv 3);
                  EvReadMesh (argv_at argv 3);
                  EvStdout ("Reading Soln " ++ argv_at argv 4);
                  EvReadSoln (argv_at argv 4);
                  EvStdout ("Reading Soln " ++ argv_at argv 5);
                  EvReadSoln (argv_at argv 5)])).
  { unfold main.
    replace (Z.of_nat (length argv) <? 6) with false
      by (symmetry; apply Z.ltb_ge; lia).
    fold mesh_coarse. fold mesh_fine.
    destruct (list_eq_dec string_dec
                (snd (read_mgf_soln mesh_fine (argv_at argv 5)))
                (snd (read_mgf_soln mesh_coarse (argv_at argv 4))))
      as [Heq | _]; [contradiction|].
    reflexivity. }
  rewrite E. cbn [fst snd]. repeat split.
  repeat (constructor; [cbn; tauto|]). constructor.
Qed.

End MainFacts.

(** ** Nodes in the order of their first visit *)

Lemma existsb_eqb_In (x : Z) (l : list Z) :
  existsb (Z.eqb x) l = true <-> In x l.
Proof.
  rewrite existsb_exists. split.
  - intros (y & Hy & E). apply Z.eqb_eq in E. now subst.
  - intros H. exists x. split; [assumption | apply Z.eqb_refl].
Qed.

Lemma first_visits_In (seen l : list Z) (x : Z) :
  In x (first_visits seen l) <-> In x l /\ ~ In x seen.
Proof.
  revert seen. induction l as [|y l IH]; intros seen; cbn [first_visits].
  - cbn. tauto.
  - destruct (existsb (Z.eqb y) seen) eqn:E.
    + apply existsb_eqb_In in E. rewrite IH. cbn [In].
      split; [tauto|]. intros [[-> | H] Hn]; tauto.
    + assert (Hy : ~ In y seen)
        by (intros H; apply existsb_eqb_In in H; congruence).
      cbn [In]. rewrite IH. cbn [In].
      destruct (Z.eq_dec y x) as [-> | Hne]; [tauto|]. tauto.
Qed.

Lemma first_visits_NoDup (seen l : list Z) : NoDup (first_visits seen l).
Proof.
  revert seen. induction l as [|y l IH]; intros seen; cbn [first_visits].
  - constructor.
  - destruct (existsb (Z.eqb y) seen); [apply IH|].
    constructor; [|apply IH].
    rewrite first_visits_In. cbn [In]. tauto.
Qed.

Lemma index_inj (nv g g' c c' : Z) :
  0 <= c < nv -> 0 <= c' < nv -> g * nv + c = g' * nv + c' -> g = g'.
Proof. intros Hc Hc' H. nia. Qed.

(** ** The two passes *)

Section TransferFacts.

Variable contains_point : Mesh -> Z -> Point -> bool.
Variable OctTree : Type.
Variable find_element : OctTree -> Point -> option Z.
Variable fe_reinit : Mesh -> Z -> FEData.
Variable inverse_map : Mesh -> Z -> Point -> Point.
Variable shape : Mesh -> Z -> Z -> Point -> Real.

Variables mesh_coarse mesh_fine : Mesh.
Variables coarse_solution fine_solution : list Real.
Variables coarse_var_names fine_var_names : list string.
Variable ivar : Z.
Variable octree_coarse : OctTree.

Local Abbreviation locate' :=
  (locate contains_point OctTree find_element mesh_coarse octree_coarse).
Local Abbreviation interpolate' :=
  (interpolate fe_reinit shape mesh_coarse coarse_solution).
Local Abbreviation fine_soln_at' :=
  (fine_soln_at fine_solution fine_var_names ivar).
Local Abbreviation gauss_point' :=
  (gauss_point contains_point OctTree find_element fe_reinit inverse_map
     shape mesh_coarse coarse_solution fine_solution coarse_var_names
     fine_var_names ivar octree_coarse).
Local Abbreviation error_pass' :=
  (error_pass contains_point OctTree find_element fe_reinit inverse_map
     shape mesh_coarse mesh_fine coarse_solution fine_solution
     coarse_var_names fine_var_names ivar octree_coarse).
Local Abbreviation node_differences' :=
  (node_differences fe_reinit shape mesh_coarse coarse_solution
     fine_solution).
Local Abbreviation visit' :=
  (visit contains_point OctTree find_element fe_reinit inverse_map shape
     mesh_coarse mesh_fine coarse_solution fine_solution octree_coarse).
Local Abbreviation node_step' :=
  (node_step contains_point OctTree find_element fe_reinit inverse_map
     shape mesh_coarse mesh_fine coarse_solution fine_solution
     octree_coarse).
Local Abbreviation nodal_pass' :=
  (nodal_pass contains_point OctTree find_element fe_reinit inverse_map
     shape mesh_coarse mesh_fine coarse_solution fine_solution
     octree_coarse).
Local Abbreviation transfer' :=
  (transfer contains_point OctTree find_element fe_reinit inverse_map
     shape mesh_coarse mesh_fine coarse_solution fine_solution
     coarse_var_names fine_var_names ivar octree_coarse).

(** *** A search the octree cannot resolve stops the run *)

Local Abbreviation failed_search' :=
  (failed_search OctTree find_element octree_coarse).
Local Abbreviation no_failed_search' :=
  (no_failed_search OctTree find_element octree_coarse).
Local Abbreviation stops_at_failed_search' :=
  (stops_at_failed_search OctTree find_element octree_coarse).

Lemma stops_quiet {A} (m : M A) : snd m = [] -> stops_at_failed_search' m.
Proof. intros H. left. rewrite H. constructor. Qed.

Lemma stops_ret {A} (a : A) : stops_at_failed_search' (ret a).
Proof. now apply stops_quiet. Qed.

Lemma stops_vec_at {A} (v : list A) (i : Z) : stops_at_failed_search' (vec_at v i).
Proof.
  apply stops_quiet.
  destruct (vec_at_cases v i) as [[x ->] | ->]; reflexivity.
Qed.

Lemma stops_vec_set {A} (v : list A) (i : Z) (x : A) :
  stops_at_failed_search' (vec_set v i x).
Proof.
  apply stops_quiet.
  destruct (vec_set_cases v i x) as [[_ ->] | ->]; reflexivity.
Qed.

Lemma stops_assert (b : bool) : stops_at_failed_search' (assert b).
Proof. apply stops_quiet. now destruct b. Qed.

Lemma stops_emit (ev : Event) :
  ~ failed_search' ev -> stops_at_failed_search' (emit ev).
Proof. intros H. left. cbn. constructor; [exact H | constructor]. Qed.

Lemma stops_bind {A B} (m : M A) (f : A -> M B) :
  stops_at_failed_search' m ->
  (forall a, stops_at_failed_search' (f a)) ->
  stops_at_failed_search' (bind m f).
Proof.
  intros Hm Hf.
  destruct (bind_cases m f) as [(a & Ha & ->) | [[Hx ->] | [Hx ->]]].
  - destruct Hm as [Hm | [Hm _]]; [|congruence].
    destruct (Hf a) as [Hc | (Hfat & pre & p & Hw & Hpre & Hp)].
    + left. cbn [snd]. apply Forall_app. split; assumption.
    + right. cbn [fst snd]. split; [assumption|].
      exists (snd m ++ pre), p. rewrite Hw, app_assoc.
      repeat split; auto. apply Forall_app. split; assumption.
  - destruct Hm as [Hm | Hm]; [now left | right].
    cbn [fst snd]. split; [reflexivity | apply Hm].
  - destruct Hm as [Hm | [Hm _]]; [now left | congruence].
Qed.

Lemma stops_foldM {S A} (body : S -> A -> M S) (l : list A) (s : S) :
  (forall s x, stops_at_failed_search' (body s x)) ->
  stops_at_failed_search' (foldM body l s).
Proof.
  intros Hb. revert s. induction l as [|x l IH]; intros s; cbn [foldM].
  - apply stops_ret.
  - apply stops_bind; auto.
Qed.

Lemma locate_miss (loc : Locator) (p : Point) :
  contains_point mesh_coarse (coarse_element loc) p = false ->
  locate' loc p
  = match find_element octree_coarse p with
    | Some h => (Done (mkLocator h h), [EvFindElement p; EvReinit h])
    | None => (Fatal, [EvFindElement p])
    end.
Proof.
  intros H. unfold locate. rewrite H.
  destruct (find_element octree_coarse p); reflexivity.
Qed.

Lemma locate_hit (loc : Locator) (p : Point) :
  contains_point mesh_coarse (coarse_element loc) p = true ->
  locate' loc p = (Done loc, []).
Proof. intros H. unfold locate. now rewrite H. Qed.

Lemma not_failed_other (ev : Event) :
  (forall p, ev <> EvFindElement p) -> ~ failed_search' ev.
Proof. intros H (p & -> & _). now apply (H p). Qed.

Lemma stops_locate (loc : Locator) (p : Point) :
  stops_at_failed_search' (locate' loc p).
Proof.
  destruct (contains_point mesh_coarse (coarse_element loc) p) eqn:Hc.
  - rewrite locate_hit by assumption. now apply stops_quiet.
  - rewrite locate_miss by assumption.
    destruct (find_element octree_coarse p) as [h|] eqn:Hf.
    + left. cbn [snd]. constructor.
      * intros (q & Hq & Hnone). inversion Hq; subst. congruence.
      * constructor; [|constructor].
        apply not_failed_other. intros q. discriminate.
    + right. split; [reflexivity|]. exists [], p.
      repeat split; auto. constructor.
Qed.

Ltac stops :=
  repeat first
    [ apply stops_ret | apply stops_vec_at | apply stops_vec_set
    | apply stops_assert | apply stops_locate
    | (apply stops_emit; apply not_failed_other; intros ?; discriminate)
    | (apply stops_foldM; intros)
    | (apply stops_bind; [|intros]) ].

Lemma stops_gauss_point (el : Elem) (fe : FEData) (st : Locator * Real) (gp : Z) :
  stops_at_failed_search' (gauss_point' el fe st gp).
Proof.
  unfold gauss_point, fine_soln_at. stops.
Qed.

Lemma stops_node_step (nv : Z) (el : Elem) (st : NodalState) (n : Z) :
  stops_at_failed_search' (node_step' nv el st n).
Proof.
  unfold node_step, node_differences. stops.
  match goal with |- context [if ?b then _ else _] => destruct b end; stops.
Qed.

Lemma stops_mesh_elem (m : Mesh) (e : Z) :
  stops_at_failed_search' (mesh_elem m e).
Proof.
  apply stops_quiet. unfold mesh_elem.
  now destruct ((0 <=? e) && (e <? n_elem m)).
Qed.

Lemma stops_transfer : stops_at_failed_search' transfer'.
Proof.
  unfold transfer, error_pass, nodal_pass.
  repeat first
    [ apply stops_mesh_elem | apply stops_gauss_point | apply stops_node_step
    | apply stops_vec_at
    | (apply stops_emit; apply not_failed_other; intros ?; discriminate)
    | (apply stops_foldM; intros)
    | (apply stops_bind; [|intros]) ].
Qed.

(** C2.  At a query point of either pass where the remembered element's
    containment test fails and [find_element] finds no element, the
    locator stops the run fatally after the search, with no element
    selected.  Over a whole run of the two passes: a search that finds no
    element is the last thing the run does, and its outcome is fatal, so
    no point is passed over and nothing is computed for it. *)
Theorem unresolved_miss_is_fatal :
  (forall loc p,
      contains_point mesh_coarse (coarse_element loc) p = false ->
      find_element octree_coarse p = None ->
      locate' loc p = (Fatal, [EvFindElement p]))
  /\ (forall p,
         In (EvFindElement p) (snd transfer') ->
         find_element octree_coarse p = None ->
         fst transfer' = Fatal
         /\ exists pre, snd transfer' = pre ++ [EvFindElement p]).
Proof.
  split.
  - intros loc p Hc Hf. rewrite locate_miss by assumption. now rewrite Hf.
  - intros p Hin Hnone.
    assert (Hbad : failed_search' (EvFindElement p)) by (exists p; auto).
    destruct stops_transfer as [Hclean | (Hfat & pre & q & Hw & Hpre & Hq)].
    + exfalso. unfold no_failed_search in Hclean.
      rewrite Forall_forall in Hclean. now apply (Hclean _ Hin).
    + split; [assumption|]. rewrite Hw in Hin |- *.
      apply in_app_or in Hin. destruct Hin as [Hin | [Hin | []]].
      * exfalso. unfold no_failed_search in Hpre.
        rewrite Forall_forall in Hpre. now apply (Hpre _ Hin).
      * inversion Hin; subst. now exists pre.
Qed.

(** *** Loops that succeed compute folds *)

Lemma foldM_Done_fold {S A} (body : S -> A -> M S) (g : S -> A -> S)
    (P : A -> Prop) (l : list A) :
  (forall s x s' w, P x -> body s x = (Done s', w) -> s' = g s x) ->
  Forall P l ->
  forall s s' w, foldM body l s = (Done s', w) -> s' = fold_left g l s.
Proof.
  intros Hb Hl. induction Hl as [|x l Hx Hl IH]; intros s s' w H; cbn in H |- *.
  - now inversion H.
  - apply bind_Done_inv in H. destruct H as (s1 & w1 & w2 & H1 & H2 & _).
    apply (Hb _ _ _ _ Hx) in H1. subst s1. eapply IH; eauto.
Qed.

Lemma Forall_upto (n : Z) : Forall (fun i => 0 <= i < n) (upto n).
Proof. apply Forall_forall. intros i. apply In_upto. Qed.

Local Abbreviation coarse_value' :=
  (coarse_value fe_reinit inverse_map shape mesh_coarse coarse_solution).
Local Abbreviation fine_value' := (fine_value fe_reinit mesh_fine fine_solution).
Local Abbreviation locate_words' :=
  (locate_words contains_point OctTree find_element mesh_coarse octree_coarse).
Local Abbreviation sweep_words' :=
  (sweep_words contains_point OctTree find_element mesh_coarse octree_coarse).
Local Abbreviation gauss_points' := (gauss_points fe_reinit mesh_fine).
Local Abbreviation gauss_xyz' := (gauss_xyz fe_reinit mesh_fine).
Local Abbreviation error_term' :=
  (error_term fe_reinit inverse_map shape mesh_coarse mesh_fine
     coarse_solution fine_solution).
Local Abbreviation l2_error' :=
  (l2_error fe_reinit inverse_map shape mesh_coarse mesh_fine
     coarse_solution fine_solution).

Lemma coarse_node_Done (h i gn : Z) (w : list Event) :
  coarse_node mesh_coarse h i = (Done gn, w) ->
  let el := znth (mesh_elems mesh_coarse) h (mkElem []) in
  w = [] /\ In el (mesh_elems mesh_coarse) /\ In gn (elem_nodes el)
  /\ gn = node_of el i.
Proof.
  unfold coarse_node. intros H. apply bind_Done_inv in H.
  destruct H as (el' & w1 & w2 & H1 & H2 & ->).
  pose proof (vec_at_In _ _ _ _ H1) as Hin1.
  apply (vec_at_Done _ _ _ _ (mkElem [])) in H1. destruct H1 as (-> & _ & He).
  pose proof (vec_at_In _ _ _ _ H2) as Hin2.
  apply (vec_at_Done _ _ _ _ 0) in H2. destruct H2 as (-> & _ & Hn).
  cbv zeta. rewrite He. unfold node_of. auto.
Qed.

(** The interpolation loop computes the coarse value of the specification
    when the coarse finite element object is initialised for the cached
    element. *)
Lemma interpolate_Done (loc : Locator) (nv c : Z) (p : Point) (v : Real)
    (w : list Event) :
  in_step loc ->
  indices_fit mesh_coarse nv c ->
  interpolate' loc nv c (inverse_map mesh_coarse (coarse_element loc) p)
  = (Done v, w) ->
  v = coarse_value' loc nv c p.
Proof.
  intros Hin Hfit H. unfold interpolate in H. unfold in_step in Hin.
  rewrite Hin in H. unfold coarse_value, sum_over.
  eapply (foldM_Done_fold _ _ (fun _ => True)) in H; [exact H | | ].
  - intros s i s' w' _ Hb.
    apply bind_Done_inv in Hb. destruct Hb as (gn & w1 & w2 & H1 & H2 & _).
    apply coarse_node_Done in H1. destruct H1 as (_ & Hel & Hgn & Hnode).
    apply bind_Done_inv in H2. destruct H2 as (x & w3 & w4 & H3 & H4 & _).
    rewrite wrap32_small in H3 by (eapply Hfit; eauto).
    apply (vec_at_Done _ _ _ _ zero) in H3. destruct H3 as (_ & _ & Hx).
    cbn in H4. inversion H4; subst. reflexivity.
  - apply Forall_forall. auto.
Qed.

(** The loop over the local nodes computes the fine value of the
    specification. *)
Lemma fine_soln_at_Done (e gp : Z) (v : Real) (w : list Event) :
  let el := znth (mesh_elems mesh_fine) e (mkElem []) in
  let fe := fe_reinit mesh_fine e in
  let nv := Z.of_nat (length fine_var_names) in
  nv < 2 ^ 32 ->
  indices_fit mesh_fine nv ivar ->
  In el (mesh_elems mesh_fine) ->
  fe_n_shape_functions fe = elem_n_nodes el ->
  fine_soln_at' el fe gp = (Done v, w) ->
  v = fine_value' nv ivar e gp.
Proof.
  intros el fe nv Hnv Hfit Hel Hn H.
  unfold fine_soln_at in H. unfold fine_value, sum_over. fold el. fold fe.
  rewrite Hn in H.
  eapply (foldM_Done_fold _ _ (fun _ => True)) in H; [exact H | | ].
  - intros s i s' w' _ Hb.
    apply bind_Done_inv in Hb. destruct Hb as (gn & w1 & w2 & H1 & H2 & _).
    pose proof (vec_at_In _ _ _ _ H1) as Hgn.
    apply (vec_at_Done _ _ _ _ 0) in H1. destruct H1 as (_ & _ & Hnode).
    apply bind_Done_inv in H2. destruct H2 as (x & w3 & w4 & H3 & H4 & _).
    rewrite (wrap32_small (Z.of_nat _)) in H3 by (fold nv; lia).
    fold nv in H3.
    rewrite wrap32_small in H3 by (eapply Hfit; eauto).
    apply (vec_at_Done _ _ _ _ zero) in H3. destruct H3 as (_ & _ & Hx).
    apply bind_Done_inv in H4. destruct H4 as (row & w5 & w6 & H5 & H6 & _).
    apply (vec_at_Done _ _ _ _ []) in H5. destruct H5 as (_ & _ & Hrow).
    apply bind_Done_inv in H6. destruct H6 as (ph & w7 & w8 & H7 & H8 & _).
    apply (vec_at_Done _ _ _ _ zero) in H7. destruct H7 as (_ & _ & Hph).
    cbn in H8. inversion H8; subst. reflexivity.
  - apply Forall_forall. auto.
Qed.

Lemma locate_Done (loc loc' : Locator) (p : Point) (w : list Event) :
  locate' loc p = (Done loc', w) -> locate_words' loc p = Some loc'.
Proof.
  unfold locate_words.
  destruct (contains_point mesh_coarse (coarse_element loc) p) eqn:Hc.
  - rewrite locate_hit by assumption. intros H. now inversion H.
  - rewrite locate_miss by assumption.
    destruct (find_element octree_coarse p); intros H; now inversion H.
Qed.

Lemma last_cons_default {A} (a : list A) (x d : A) :
  last (x :: a) d = last a x.
Proof.
  revert x d. induction a as [|y a IH]; intros x d; [reflexivity|].
  change (last (x :: y :: a) d) with (last (y :: a) d).
  rewrite IH. symmetry. apply IH.
Qed.

Lemma sweep_words_app (loc : Locator) (l1 l2 : list Point) (a b : list Locator) :
  sweep_words' loc l1 = Some a ->
  sweep_words' (last a loc) l2 = Some b ->
  sweep_words' loc (l1 ++ l2) = Some (a ++ b).
Proof.
  revert loc a. induction l1 as [|p l1 IH]; intros loc a Ha Hb; cbn in *.
  - inversion Ha; subst. exact Hb.
  - destruct (locate_words' loc p) as [loc'|]; [|discriminate].
    destruct (sweep_words' loc' l1) as [a'|] eqn:E; [|discriminate].
    inversion Ha; subst.
    rewrite last_cons_default in Hb.
    now rewrite (IH loc' a' E Hb).
Qed.

Lemma sweep_words_length (loc : Locator) (l : list Point) (a : list Locator) :
  sweep_words' loc l = Some a -> length a = length l.
Proof.
  revert loc a. induction l as [|p l IH]; intros loc a H; cbn in *.
  - now inversion H.
  - destruct (locate_words' loc p) as [loc'|]; [|discriminate].
    destruct (sweep_words' loc' l) as [a'|] eqn:E; [|discriminate].
    inversion H; subst. cbn. f_equal. eauto.
Qed.

Lemma locate_words_in_step (loc loc' : Locator) (p : Point) :
  in_step loc -> locate_words' loc p = Some loc' -> in_step loc'.
Proof.
  intros Hloc El. unfold locate_words in El.
  destruct (contains_point mesh_coarse (coarse_element loc) p).
  - inversion El. now subst.
  - destruct (find_element octree_coarse p); inversion El. reflexivity.
Qed.

Lemma last_Forall {A} (P : A -> Prop) (l : list A) (d : A) :
  Forall P l -> P d -> P (last l d).
Proof.
  intros H Hd. induction H as [|x l Hx Hl IH]; [exact Hd|].
  destruct l; [exact Hx | exact IH].
Qed.

Lemma sweep_words_in_step (loc : Locator) (l : list Point) (a : list Locator) :
  in_step loc -> sweep_words' loc l = Some a -> Forall in_step a.
Proof.
  revert loc a. induction l as [|p l IH]; intros loc a Hloc H; cbn in *.
  - inversion H. constructor.
  - destruct (locate_words' loc p) as [loc'|] eqn:El; [|discriminate].
    destruct (sweep_words' loc' l) as [a'|] eqn:E; [|discriminate].
    inversion H; subst.
    assert (Hloc' : in_step loc').
    { unfold locate_words in El.
      destruct (contains_point mesh_coarse (coarse_element loc) p).
      - inversion El. now subst.
      - destruct (find_element octree_coarse p); inversion El. reflexivity. }
    constructor; [exact Hloc' | eapply IH; eauto].
Qed.

Lemma sweep_words_start_or_in_step (loc : Locator) (l : list Point)
    (a : list Locator) :
  sweep_words' loc l = Some a ->
  Forall (fun x => x = loc \/ in_step x) a.
Proof.
  revert loc a. induction l as [|p l IH]; intros loc a H; cbn in *.
  - inversion H. constructor.
  - destruct (locate_words' loc p) as [loc'|] eqn:El; [|discriminate].
    destruct (sweep_words' loc' l) as [a'|] eqn:E; [|discriminate].
    inversion H; subst. specialize (IH _ _ E).
    assert (Hloc' : loc' = loc \/ in_step loc').
    { unfold locate_words in El.
      destruct (contains_point mesh_coarse (coarse_element loc) p).
      - inversion El. now left.
      - destruct (find_element octree_coarse p); inversion El.
        right. reflexivity. }
    constructor; [exact Hloc'|].
    eapply Forall_impl; [|exact IH]. intros x [-> | Hx]; auto.
Qed.

Lemma combine_app_same {A B} (l1 l2 : list A) (a b : list B) :
  length l1 = length a ->
  combine (l1 ++ l2) (a ++ b) = combine l1 a ++ combine l2 b.
Proof.
  revert a. induction l1 as [|x l1 IH]; intros [|y a] H; cbn in *;
    try discriminate; auto.
  f_equal. apply IH. congruence.
Qed.

Lemma last_app_cons {A} (a b : list A) (d : A) :
  last (a ++ b) d = last b (last a d).
Proof.
  revert d. induction a as [|x a IH]; intros d; cbn [app]; [reflexivity|].
  now rewrite last_cons_default, IH, (last_cons_default a x d).
Qed.

(** *** The error pass *)

Section ErrorPass.

Let nv : Z := Z.of_nat (length fine_var_names).

Hypothesis names_agree : coarse_var_names = fine_var_names.
Hypothesis nv_fits : nv < 2 ^ 32.
Hypothesis fine_fits : indices_fit mesh_fine nv ivar.
Hypothesis coarse_fits : indices_fit mesh_coarse nv ivar.

Lemma gauss_point_Done (e gp : Z) (st st' : Locator * Real) (w : list Event) :
  let el := znth (mesh_elems mesh_fine) e (mkElem []) in
  In el (mesh_elems mesh_fine) ->
  in_step (fst st) ->
  gauss_point' el (fe_reinit mesh_fine e) st gp = (Done st', w) ->
  locate_words' (fst st) (gauss_xyz' (e, gp)) = Some (fst st')
  /\ snd st' = (snd st + error_term' nv ivar (e, gp) (fst st'))%float.
Proof.
  intros el Hel Hst H. unfold gauss_point in H.
  apply bind_Done_inv in H. destruct H as ([] & w1 & w2 & H1 & H & _).
  assert (Hn : fe_n_shape_functions (fe_reinit mesh_fine e) = elem_n_nodes el).
  { unfold assert in H1.
    destruct (fe_n_shape_functions (fe_reinit mesh_fine e) =? elem_n_nodes el)
      eqn:E; [now apply Z.eqb_eq in E | discriminate]. }
  apply bind_Done_inv in H. destruct H as (fs & w3 & w4 & H2 & H & _).
  apply fine_soln_at_Done in H2; auto.
  apply bind_Done_inv in H. destruct H as (p & w5 & w6 & H3 & H & _).
  apply (vec_at_Done _ _ _ _ point_zero) in H3. destruct H3 as (_ & _ & Hp).
  apply bind_Done_inv in H. destruct H as (loc & w7 & w8 & H4 & H & _).
  apply locate_Done in H4.
  pose proof (locate_words_in_step _ _ _ Hst H4) as Hloc.
  apply bind_Done_inv in H. destruct H as ([] & w9 & w10 & _ & H & _).
  apply bind_Done_inv in H. destruct H as (cs & w11 & w12 & H5 & H & _).
  rewrite names_agree in H5.
  rewrite (wrap32_small (Z.of_nat _)) in H5 by (fold nv; lia).
  apply interpolate_Done in H5; auto.
  apply bind_Done_inv in H. destruct H as (jxw & w13 & w14 & H6 & H & _).
  apply (vec_at_Done _ _ _ _ zero) in H6. destruct H6 as (_ & _ & Hj).
  cbn in H. inversion H; subst. cbn [fst snd].
  split; [exact H4|]. unfold error_term, gauss_xyz. cbn [fst snd].
  reflexivity.
Qed.

Local Abbreviation add_term' :=
  (add_term fe_reinit inverse_map shape mesh_coarse mesh_fine
     coarse_solution fine_solution nv ivar).

Lemma gauss_loop_Done (e : Z) (gps : list Z) :
  let el := znth (mesh_elems mesh_fine) e (mkElem []) in
  In el (mesh_elems mesh_fine) ->
  forall (st st' : Locator * Real) (w : list Event),
    in_step (fst st) ->
    foldM (gauss_point' el (fe_reinit mesh_fine e)) gps st = (Done st', w) ->
    exists locs,
      sweep_words' (fst st) (map gauss_xyz' (map (pair e) gps)) = Some locs
      /\ fst st' = last locs (fst st)
      /\ snd st' = fold_left add_term' (combine (map (pair e) gps) locs) (snd st).
Proof.
  intros el Hel. induction gps as [|gp gps IH]; intros st st' w Hst H;
    cbn in H.
  - inversion H; subst. exists []. cbn. auto.
  - apply bind_Done_inv in H. destruct H as (st1 & w1 & w2 & H1 & H2 & _).
    apply gauss_point_Done in H1; auto. destruct H1 as (Hloc & Hacc).
    apply IH in H2; [|exact (locate_words_in_step _ _ _ Hst Hloc)].
    destruct H2 as (locs & Hs & Hl & Hf).
    exists (fst st1 :: locs). cbn [map sweep_words combine fold_left].
    rewrite Hloc, Hs. repeat split.
    + now rewrite last_cons_default.
    + rewrite Hf, Hacc. reflexivity.
Qed.

Lemma element_loop_Done (es : list Z) :
  Forall (fun e => 0 <= e < n_elem mesh_fine) es ->
  forall (st st' : Locator * Real) (w : list Event),
    in_step (fst st) ->
    foldM (fun st e =>
             fine_element <- vec_at (mesh_elems mesh_fine) e ;;
             foldM (gauss_point' fine_element (fe_reinit mesh_fine e))
               (upto (Z.of_nat (length (fe_xyz (fe_reinit mesh_fine e))))) st)
      es st = (Done st', w) ->
    let qs := flat_map
                (fun e => map (pair e)
                   (upto (Z.of_nat (length (fe_xyz (fe_reinit mesh_fine e))))))
                es in
    exists locs,
      sweep_words' (fst st) (map gauss_xyz' qs) = Some locs
      /\ fst st' = last locs (fst st)
      /\ snd st' = fold_left add_term' (combine qs locs) (snd st).
Proof.
  intros Hes. induction Hes as [|e es He Hes IH]; intros st st' w Hst H;
    cbn in H.
  - inversion H; subst. exists []. cbn. auto.
  - apply bind_Done_inv in H. destruct H as (st1 & w1 & w2 & H1 & H2 & _).
    apply bind_Done_inv in H1. destruct H1 as (el & w3 & w4 & H3 & H4 & _).
    pose proof (vec_at_In _ _ _ _ H3) as Hel.
    apply (vec_at_Done _ _ _ _ (mkElem [])) in H3. destruct H3 as (_ & _ & Heq).
    subst el. apply gauss_loop_Done in H4; auto.
    destruct H4 as (a & Ha & Hla & Hfa).
    apply IH in H2;
      [|rewrite Hla; exact (last_Forall _ _ _ (sweep_words_in_step _ _ _ Hst Ha) Hst)].
    destruct H2 as (b & Hb & Hlb & Hfb).
    exists (a ++ b). cbn [flat_map]. rewrite map_app.
    rewrite Hla in Hb. rewrite (sweep_words_app _ _ _ _ _ Ha Hb).
    repeat split.
    + rewrite Hlb, Hla. now rewrite last_app_cons.
    + rewrite combine_app_same.
      * rewrite fold_left_app, <- Hfa. exact Hfb.
      * apply sweep_words_length in Ha. now rewrite Ha, !length_map.
Qed.

(** The error pass, from the first element and a zero sum, ends with the
    sum of the specification. *)
Lemma error_pass_Done (h0 : Z) (st' : Locator * Real) (w : list Event) :
  error_pass' (mkLocator h0 h0, zero) = (Done st', w) ->
  exists locs,
    sweep_words' (mkLocator h0 h0) (map gauss_xyz' gauss_points') = Some locs
    /\ fst st' = last locs (mkLocator h0 h0)
    /\ PrimFloat.sqrt (snd st') = l2_error' nv ivar locs.
Proof.
  intros H. unfold error_pass in H.
  apply element_loop_Done in H; [|apply Forall_upto|reflexivity].
  destruct H as (locs & Hs & Hl & Hf). exists locs.
  repeat split; auto. unfold l2_error, sum_over. rewrite Hf. reflexivity.
Qed.

End ErrorPass.

(** *** What the passes emit *)

Lemma only_quiet {A} (P : Event -> Prop) (m : M A) : snd m = [] -> only P m.
Proof. unfold only. intros ->. constructor. Qed.

Lemma only_vec_at {A} (P : Event -> Prop) (v : list A) (i : Z) :
  only P (vec_at v i).
Proof.
  apply only_quiet. destruct (vec_at_cases v i) as [[x ->] | ->]; reflexivity.
Qed.

Lemma only_vec_set {A} (P : Event -> Prop) (v : list A) (i : Z) (x : A) :
  only P (vec_set v i x).
Proof.
  apply only_quiet.
  destruct (vec_set_cases v i x) as [[_ ->] | ->]; reflexivity.
Qed.

Lemma only_emit (P : Event -> Prop) (ev : Event) : P ev -> only P (emit ev).
Proof. intros H. unfold only. cbn. constructor; [exact H | constructor]. Qed.

Lemma only_bind {A B} (P : Event -> Prop) (m : M A) (f : A -> M B) :
  only P m -> (forall a, only P (f a)) -> only P (bind m f).
Proof.
  unfold only. intros Hm Hf.
  destruct (bind_cases m f) as [(a & _ & ->) | [[_ ->] | [_ ->]]];
    cbn [snd]; auto.
  apply Forall_app. split; auto.
Qed.

Lemma only_foldM {S A} (P : Event -> Prop) (body : S -> A -> M S)
    (l : list A) (s : S) :
  (forall s x, only P (body s x)) -> only P (foldM body l s).
Proof.
  intros Hb. revert s. induction l as [|x l IH]; intros s; cbn [foldM].
  - now apply only_quiet.
  - apply only_bind; auto.
Qed.

Lemma only_locate (loc : Locator) (p : Point) :
  only locator_event (locate' loc p).
Proof.
  destruct (contains_point mesh_coarse (coarse_element loc) p) eqn:Hc.
  - rewrite locate_hit by assumption. now apply only_quiet.
  - rewrite locate_miss by assumption. unfold only.
    destruct (find_element octree_coarse p); cbn [snd];
      repeat (constructor; [exact I|]); constructor.
Qed.

Ltac only_locator :=
  repeat first
    [ apply only_vec_at | apply only_vec_set | apply only_locate
    | (apply only_quiet; reflexivity)
    | (apply only_emit; exact I)
    | (apply only_foldM; intros)
    | (apply only_bind; [|intros]) ].

Lemma only_gauss_point (el : Elem) (fe : FEData) (st : Locator * Real) (gp : Z) :
  only locator_event (gauss_point' el fe st gp).
Proof.
  unfold gauss_point, fine_soln_at, interpolate, coarse_node, assert.
  only_locator.
  destruct (fe_n_shape_functions fe =? elem_n_nodes el);
    now apply only_quiet.
Qed.

Lemma only_error_pass (st : Locator * Real) :
  only locator_event (error_pass' st).
Proof.
  unfold error_pass.
  repeat first [ apply only_gauss_point | apply only_vec_at
               | (apply only_foldM; intros) | (apply only_bind; [|intros]) ].
Qed.

Lemma only_node_step (nv : Z) (el : Elem) (st : NodalState) (n : Z) :
  only locator_event (node_step' nv el st n).
Proof.
  unfold node_step, node_differences, interpolate, coarse_node.
  only_locator.
  match goal with |- context [if ?b then _ else _] => destruct b end;
    only_locator.
Qed.

Lemma only_nodal_pass (nv : Z) (st : NodalState) :
  only locator_event (nodal_pass' nv st).
Proof.
  unfold nodal_pass.
  repeat first [ apply only_node_step | apply only_vec_at
               | (apply only_foldM; intros) | (apply only_bind; [|intros]) ].
Qed.

(** A run of the two passes that ends well, taken apart. *)
Lemma transfer_Done_inv (w : list Event) :
  transfer' = (Done tt, w) ->
  0 < n_elem mesh_coarse
  /\ exists st w1 nst w2,
       error_pass' (mkLocator 0 0, zero) = (Done st, w1)
       /\ nodal_pass' (wrap32 (Z.of_nat (length fine_var_names)))
            (mkNodal (mkLocator 0 (fe_coarse (fst st)))
               (repeat false (Z.to_nat (wrap32 (n_nodes mesh_fine))))
               (repeat zero (length fine_solution)))
          = (Done nst, w2)
       /\ w = EvReinit 0 :: w1
              ++ EvComputedError (PrimFloat.sqrt (snd st)) :: w2
              ++ [EvWriteNodalData "foo.plt" (diff_solution nst) fine_var_names].
Proof.
  unfold transfer, mesh_elem. intros H.
  destruct ((0 <=? 0) && (0 <? n_elem mesh_coarse)) eqn:E;
    [|discriminate].
  apply andb_prop in E. destruct E as [_ E]. apply Z.ltb_lt in E.
  split; [exact E|].
  apply bind_Done_inv in H. destruct H as (h0 & w0 & w0' & H0 & H & ->).
  inversion H0; subst h0 w0. clear H0.
  apply bind_Done_inv in H. destruct H as ([] & wa & wb & Ha & H & ->).
  inversion Ha; subst wa. clear Ha.
  apply bind_Done_inv in H. destruct H as (st & w1 & wc & H1 & H & ->).
  apply bind_Done_inv in H. destruct H as ([] & wd & we & Hd & H & ->).
  inversion Hd; subst wd. clear Hd.
  apply bind_Done_inv in H. destruct H as (h0 & wf & wg & H0 & H & ->).
  inversion H0; subst h0 wf. clear H0.
  apply bind_Done_inv in H. destruct H as (nst & w2 & wh & H2 & H & ->).
  inversion H; subst wh.
  exists st, w1, nst, w2. repeat split; auto.
Qed.

(** *** The nodal pass as one loop over the nodes *)

Local Abbreviation node_point' := (node_point mesh_fine).
Local Abbreviation nodal_difference' :=
  (nodal_difference fe_reinit inverse_map shape mesh_coarse mesh_fine
     coarse_solution fine_solution).

Lemma bind_ret_l {A B} (a : A) (f : A -> M B) : bind (ret a) f = f a.
Proof. unfold bind, ret. cbn. now destruct (f a). Qed.

Lemma bind_ext {A B} (m : M A) (f g : A -> M B) :
  (forall a, f a = g a) -> bind m f = bind m g.
Proof.
  intros H. unfold bind. destruct m as [[a| |] w]; auto. now rewrite H.
Qed.

Lemma foldM_ext {S A} (f g : S -> A -> M S) (l : list A) (s : S) :
  (forall s x, f s x = g s x) -> foldM f l s = foldM g l s.
Proof.
  intros H. revert s. induction l as [|x l IH]; intros s; [reflexivity|].
  cbn [foldM]. rewrite H. now apply bind_ext.
Qed.

Lemma foldM_indexed {S A} (f : S -> A -> M S) (pre l : list A) (s : S) :
  foldM (fun s i => x <- vec_at (pre ++ l) i ;; f s x)
        (map Z.of_nat (seq (length pre) (length l))) s
  = foldM f l s.
Proof.
  revert pre s. induction l as [|x l IH]; intros pre s; [reflexivity|].
  cbn [length seq map foldM].
  assert (E : vec_at (pre ++ x :: l) (Z.of_nat (length pre)) = ret x).
  { unfold vec_at. destruct (0 <=? Z.of_nat (length pre)) eqn:E0;
      [|apply Z.leb_gt in E0; lia].
    rewrite Nat2Z.id, nth_error_app2, Nat.sub_diag by lia. reflexivity. }
  rewrite E, bind_ret_l. apply bind_ext. intros s'.
  specialize (IH (pre ++ [x]) s').
  rewrite <- app_assoc, length_app in IH. cbn [app length] in IH.
  rewrite Nat.add_1_r in IH. exact IH.
Qed.

Lemma foldM_upto {S A} (f : S -> A -> M S) (l : list A) (s : S) :
  foldM (fun s i => x <- vec_at l i ;; f s x) (upto (Z.of_nat (length l))) s
  = foldM f l s.
Proof.
  unfold upto. rewrite Nat2Z.id. exact (foldM_indexed f [] l s).
Qed.

Lemma foldM_flat_map {S A B} (f : S -> B -> M S) (h : A -> list B)
    (l : list A) (s : S) :
  foldM (fun s x => foldM f (h x) s) l s = foldM f (flat_map h l) s.
Proof.
  revert s. induction l as [|x l IH]; intros s; [reflexivity|].
  cbn [foldM flat_map]. rewrite foldM_app. now apply bind_ext.
Qed.

Lemma nodal_pass_visits (nv : Z) (st : NodalState) :
  nodal_pass' nv st = foldM (visit' nv) (node_sweep mesh_fine) st.
Proof.
  unfold nodal_pass, node_sweep, n_elem.
  rewrite (foldM_upto
             (fun st el => foldM (node_step' nv el) (upto (elem_n_nodes el)) st)).
  rewrite <- foldM_flat_map. apply foldM_ext. intros s el.
  unfold elem_n_nodes. exact (foldM_upto (visit' nv) (elem_nodes el) s).
Qed.

Lemma inverse_maps_app (w1 w2 : list Event) :
  inverse_maps (w1 ++ w2) = inverse_maps w1 ++ inverse_maps w2.
Proof.
  induction w1 as [|ev w1 IH]; [reflexivity|].
  destruct ev; cbn; rewrite ?IH; reflexivity.
Qed.

Lemma inverse_maps_none (w : list Event) :
  Forall not_inverse_map w -> inverse_maps w = [].
Proof.
  induction 1 as [|ev w Hev _ IH]; [reflexivity|].
  destruct ev; cbn in *; auto. contradiction.
Qed.

Lemma quiet_locate (loc : Locator) (p : Point) :
  only not_inverse_map (locate' loc p).
Proof.
  destruct (contains_point mesh_coarse (coarse_element loc) p) eqn:Hc.
  - rewrite locate_hit by assumption. now apply only_quiet.
  - rewrite locate_miss by assumption. unfold only.
    destruct (find_element octree_coarse p); cbn [snd];
      repeat (constructor; [exact I|]); constructor.
Qed.

Lemma quiet_node_differences (loc : Locator) (nv gn : Z) (mp : Point)
    (diff : list Real) :
  only not_inverse_map (node_differences' loc nv gn mp diff).
Proof.
  unfold node_differences, interpolate, coarse_node.
  repeat first
    [ apply only_vec_at | apply only_vec_set
    | (apply only_emit; exact I)
    | (apply only_foldM; intros)
    | (apply only_bind; [|intros]) ].
Qed.

(** *** The nodal pass *)

Section NodalPass.

Let nv : Z := Z.of_nat (length fine_var_names).

Hypothesis nv_fits : nv < 2 ^ 32.
Hypothesis size_fits : n_nodes mesh_fine * nv <= 2 ^ 32.
Hypothesis coarse_fits : forall c, 0 <= c < nv -> indices_fit mesh_coarse nv c.

Lemma node_differences_Done (gn : Z) (loc : Locator) :
  0 <= gn < n_nodes mesh_fine ->
  forall cs, Forall (fun c => 0 <= c < nv) cs ->
  forall (diff diff' : list Real) (w : list Event),
    foldM (fun diff c =>
             coarse_soln <- interpolate' loc nv c
                              (inverse_map mesh_coarse (coarse_element loc)
                                 (node_point' gn)) ;;
             fv <- vec_at fine_solution (wrap32 (gn * nv + c)) ;;
             vec_set diff (wrap32 (gn * nv + c)) (coarse_soln - fv)%float)
          cs diff = (Done diff', w) ->
    length diff' = length diff
    /\ (in_step loc -> forall c, In c cs ->
          znth diff' (gn * nv + c) zero = nodal_difference' nv gn loc c)
    /\ (forall j, 0 <= j -> (forall c, In c cs -> j <> gn * nv + c) ->
          znth diff' j zero = znth diff j zero).
Proof.
  intros Hgn cs Hcs. induction Hcs as [|c cs Hc Hcs IH]; intros diff diff' w H.
  - cbn in H. inversion H; subst. repeat split; auto. intros _ c [].
  - cbn [foldM] in H.
    apply bind_Done_inv in H. destruct H as (d1 & w1 & w2 & H1 & H2 & _).
    apply bind_Done_inv in H1. destruct H1 as (cv & w3 & w4 & H3 & H4 & _).
    assert (Hcv : in_step loc -> cv = coarse_value' loc nv c (node_point' gn))
      by (intros Hin; eapply interpolate_Done;
          [exact Hin | now apply coarse_fits | exact H3]).
    clear H3.
    assert (Hidx : 0 <= gn * nv + c < 2 ^ 32) by nia.
    rewrite (wrap32_small _ Hidx) in H4.
    apply bind_Done_inv in H4. destruct H4 as (fv & w5 & w6 & H5 & H6 & _).
    apply (vec_at_Done _ _ _ _ zero) in H5. destruct H5 as (_ & _ & Hfv).
    apply vec_set_Done in H6. destruct H6 as (Hr & -> & _).
    apply IH in H2. destruct H2 as (Hlen & Hval & Hframe).
    rewrite length_list_set in Hlen. split; [exact Hlen|]. split.
    + intros Hstep c' Hin.
      destruct (In_dec Z.eq_dec c' cs) as [Hi | Hni]; [now apply Hval|].
      destruct Hin as [<- | Hin]; [|contradiction].
      rewrite Hframe.
      * unfold znth. rewrite nth_list_set_eq.
        -- unfold nodal_difference. rewrite (Hcv Hstep). now subst.
        -- apply Nat2Z.inj_lt. rewrite Z2Nat.id by apply Hr. apply Hr.
      * lia.
      * intros c'' Hc'' Heq. apply Hni.
        assert (c = c'') by lia. now subst.
    + intros j Hj Hne. rewrite Hframe; auto.
      * unfold znth. apply nth_list_set_neq.
        specialize (Hne c (or_introl eq_refl)). intros E.
        apply Z2Nat.inj in E; [congruence | apply Hr | exact Hj].
      * intros c' Hc'. apply Hne. now right.
  Unshelve. all: exact [].
Qed.

Lemma visit_Done (st st' : NodalState) (gn : Z) (w : list Event) :
  Z.of_nat (length (already_done st)) <= n_nodes mesh_fine ->
  visit' nv st gn = (Done st', w) ->
  0 <= gn < Z.of_nat (length (already_done st))
  /\ ((znth (already_done st) gn false = true /\ st' = st /\ w = [])
      \/ (znth (already_done st) gn false = false
          /\ exists loc diff',
               locate_words' (nodal_locator st) (node_point' gn) = Some loc
               /\ inverse_maps w = [(coarse_element loc, node_point' gn)]
               /\ length diff' = length (diff_solution st)
               /\ (in_step loc -> forall c, 0 <= c < nv ->
                     znth diff' (gn * nv + c) zero
                     = nodal_difference' nv gn loc c)
               /\ (forall j, 0 <= j ->
                     (forall c, 0 <= c < nv -> j <> gn * nv + c) ->
                     znth diff' j zero = znth (diff_solution st) j zero)
               /\ st' = mkNodal loc
                          (list_set (already_done st) (Z.to_nat gn) true)
                          diff')).
Proof.
  intros Hlen H. unfold visit in H.
  apply bind_Done_inv in H. destruct H as (done & w1 & w2 & H1 & H & ->).
  apply (vec_at_Done _ _ _ _ false) in H1. destruct H1 as (-> & Hr & Hd).
  split; [exact Hr|]. destruct done.
  - left. inversion H; subst. auto.
  - right. split; [exact Hd|].
    apply bind_Done_inv in H. destruct H as (marked & wm & wn & Hm & H & ->).
    apply vec_set_Done in Hm. destruct Hm as (_ & -> & ->).
    apply bind_Done_inv in H. destruct H as (p & w3 & w4 & H3 & H & ->).
    apply (vec_at_Done _ _ _ _ point_zero) in H3. destruct H3 as (-> & _ & Hp).
    apply bind_Done_inv in H. destruct H as (loc & w5 & w6 & H5 & H & ->).
    pose proof (quiet_locate (nodal_locator st) p) as Hq5.
    rewrite H5 in Hq5. unfold only in Hq5. cbn [snd] in Hq5.
    apply locate_Done in H5.
    apply bind_Done_inv in H. destruct H as ([] & w7 & w8 & H7 & H & ->).
    inversion H7; subst w7. clear H7.
    apply bind_Done_inv in H. destruct H as (diff' & w9 & w10 & H9 & H & ->).
    pose proof (quiet_node_differences loc nv gn
                  (inverse_map mesh_coarse (coarse_element loc) p)
                  (diff_solution st)) as Hq9.
    rewrite H9 in Hq9. unfold only in Hq9. cbn [snd] in Hq9.
    inversion H; subst st' w10. subst p.
    unfold node_differences in H9.
    apply node_differences_Done in H9; [|lia|apply Forall_upto].
    destruct H9 as (Hl & Hv & Hf).
    exists loc, diff'. repeat split; auto.
    + cbn [app]. rewrite inverse_maps_app. cbn [inverse_maps].
      rewrite inverse_maps_app, app_nil_r.
      now rewrite (inverse_maps_none _ Hq5), (inverse_maps_none _ Hq9).
    + intros Hstep c Hc. apply Hv; [exact Hstep | now apply In_upto].
    + intros j Hj Hne. apply Hf; auto. intros c Hc. apply Hne.
      now apply In_upto.
Qed.

Lemma visits_Done (nodes : list Z) :
  forall (st st' : NodalState) (w : list Event) (seen : list Z),
    Z.of_nat (length (already_done st)) <= n_nodes mesh_fine ->
    (forall gn, 0 <= gn < Z.of_nat (length (already_done st)) ->
                znth (already_done st) gn false = true <-> In gn seen) ->
    foldM (visit' nv) nodes st = (Done st', w) ->
    exists locs,
      sweep_words' (nodal_locator st)
        (map node_point' (first_visits seen nodes)) = Some locs
      /\ nodal_locator st' = last locs (nodal_locator st)
      /\ inverse_maps w
         = map (fun gl => (coarse_element (snd gl), node_point' (fst gl)))
             (combine (first_visits seen nodes) locs)
      /\ length (diff_solution st') = length (diff_solution st)
      /\ Forall (fun gn => 0 <= gn < n_nodes mesh_fine) nodes
      /\ (forall gn loc c,
            In (gn, loc) (combine (first_visits seen nodes) locs) ->
            in_step loc -> 0 <= c < nv ->
            znth (diff_solution st') (gn * nv + c) zero
            = nodal_difference' nv gn loc c)
      /\ (forall j, 0 <= j ->
            (forall gn c, In gn (first_visits seen nodes) -> 0 <= c < nv ->
                          j <> gn * nv + c) ->
            znth (diff_solution st') j zero = znth (diff_solution st) j zero).
Proof.
  induction nodes as [|gn nodes IH]; intros st st' w seen Hlen Hmarks H.
  - cbn in H. inversion H; subst. exists []. cbn.
    repeat split; auto. intros ? ? ? [].
  - cbn [foldM] in H.
    apply bind_Done_inv in H. destruct H as (st1 & w1 & w2 & H1 & H2 & ->).
    apply visit_Done in H1; [|exact Hlen].
    destruct H1 as (Hr & [(Hd & -> & ->)
                         | (Hd & loc & d1 & Hloc & Him & Hl1 & Hv1 & Hf1 & ->)]).
    + (* already done *)
      assert (Hseen : In gn seen) by (now apply Hmarks).
      cbn [first_visits].
      replace (existsb (Z.eqb gn) seen) with true
        by (symmetry; now apply existsb_eqb_In).
      destruct (IH _ _ _ _ Hlen Hmarks H2)
        as (locs & Hs & Hlast & Hi & Hld & Hrange & Hv & Hf).
      exists locs. repeat split; auto. constructor; [lia | exact Hrange].
    + (* first visit *)
      assert (Hseen : ~ In gn seen).
      { intros Hin. apply Hmarks in Hin; [congruence | exact Hr]. }
      cbn [first_visits].
      replace (existsb (Z.eqb gn) seen) with false.
      2:{ symmetry. destruct (existsb (Z.eqb gn) seen) eqn:E; auto.
          apply existsb_eqb_In in E. contradiction. }
      assert (Hlen1 : Z.of_nat (length (list_set (already_done st) (Z.to_nat gn) true))
                      <= n_nodes mesh_fine)
        by (now rewrite length_list_set).
      assert (Hmarks1 :
                forall g,
                  0 <= g < Z.of_nat (length (list_set (already_done st) (Z.to_nat gn) true)) ->
                  znth (list_set (already_done st) (Z.to_nat gn) true) g false = true
                  <-> In g (gn :: seen)).
      { intros g Hg. rewrite length_list_set in Hg. unfold znth.
        destruct (Z.eq_dec gn g) as [<- | Hne].
        - rewrite nth_list_set_eq by lia. cbn [In]. tauto.
        - rewrite nth_list_set_neq by lia. cbn [In].
          specialize (Hmarks g Hg). unfold znth in Hmarks. tauto. }
      destruct (IH (mkNodal loc (list_set (already_done st) (Z.to_nat gn) true) d1)
                  st' w2 (gn :: seen) Hlen1 Hmarks1 H2)
        as (locs & Hs & Hlast & Hi & Hld & Hrange & Hv & Hf).
      cbn [nodal_locator diff_solution already_done] in *.
      exists (loc :: locs). cbn [map sweep_words]. rewrite Hloc, Hs.
      split; [reflexivity|]. split; [now rewrite last_cons_default|].
      split.
      { rewrite inverse_maps_app, Him, Hi. reflexivity. }
      split; [congruence|]. split; [constructor; [lia | exact Hrange]|].
      split.
      * intros g l c Hin Hstep Hc. cbn [combine In] in Hin.
        destruct Hin as [E | Hin]; [|now apply Hv].
        inversion E; subst g l. rewrite Hf.
        -- now apply Hv1.
        -- nia.
        -- intros g' c' Hg' Hc' Heq.
           apply first_visits_In in Hg'. destruct Hg' as [_ Hn].
           apply Hn. left. exact (index_inj nv gn g' c c' Hc Hc' Heq).
      * intros j Hj Hne. rewrite Hf; auto.
        -- apply Hf1; auto. intros c Hc. apply Hne; auto. now left.
        -- intros g c Hg Hc. apply Hne; auto. now right.
Qed.

Local Abbreviation node_sweep' := (node_sweep mesh_fine).
Local Abbreviation visit_order' := (visit_order mesh_fine).

(** The nodal pass, from fresh markers and a zero field. *)
Lemma nodal_pass_Done (loc0 : Locator) (nst : NodalState) (w : list Event) :
  nodal_pass' (wrap32 (Z.of_nat (length fine_var_names)))
    (mkNodal loc0
       (repeat false (Z.to_nat (wrap32 (n_nodes mesh_fine))))
       (repeat zero (length fine_solution)))
  = (Done nst, w) ->
  exists locs,
    sweep_words' loc0 (map node_point' visit_order') = Some locs
    /\ inverse_maps w
       = map (fun gl => (coarse_element (snd gl), node_point' (fst gl)))
           (combine visit_order' locs)
    /\ length (diff_solution nst) = length fine_solution
    /\ (forall gn loc c,
          In (gn, loc) (combine visit_order' locs) ->
          in_step loc -> 0 <= c < nv ->
          znth (diff_solution nst) (gn * nv + c) zero
          = nodal_difference' nv gn loc c)
    /\ (forall j, 0 <= j ->
          (forall gn c, In gn visit_order' -> 0 <= c < nv -> j <> gn * nv + c) ->
          znth (diff_solution nst) j zero = zero).
Proof.
  intros H. rewrite wrap32_small in H by (fold nv; lia). fold nv in H.
  rewrite nodal_pass_visits in H.
  apply (visits_Done _ _ _ _ []) in H.
  - destruct H as (locs & Hs & _ & Hi & Hl & _ & Hv & Hf).
    cbn [nodal_locator diff_solution] in *.
    exists locs. repeat split; auto.
    + now rewrite Hl, repeat_length.
    + intros j Hj Hne. rewrite (Hf j Hj Hne). unfold znth.
      apply nth_repeat.
  - cbn [already_done]. rewrite repeat_length.
    assert (0 <= n_nodes mesh_fine) by (unfold n_nodes; lia).
    assert (0 <= wrap32 (n_nodes mesh_fine) <= n_nodes mesh_fine).
    { unfold wrap32. split.
      - apply Z.mod_pos_bound. lia.
      - apply Z.mod_le; lia. }
    lia.
  - cbn [already_done]. intros gn _. unfold znth. rewrite nth_repeat.
    cbn [In]. split; [discriminate | tauto].
Qed.

End NodalPass.


(** *** The coarse finite element object stays in step with the cache *)

Lemma stale_uses_app (cur : option Z) (w1 w2 : list Event) :
  stale_uses cur (w1 ++ w2)
  = stale_uses cur w1 ++ stale_uses (fe_after cur w1) w2.
Proof.
  revert cur. induction w1 as [|ev w1 IH]; intros cur; [reflexivity|].
  destruct ev; cbn [app stale_uses fe_after]; auto;
    destruct cur as [h'|]; try destruct (_ =? h'); cbn [app];
      rewrite ?IH; reflexivity.
Qed.

Lemma fe_after_app (cur : option Z) (w1 w2 : list Event) :
  fe_after cur (w1 ++ w2) = fe_after (fe_after cur w1) w2.
Proof.
  revert cur. induction w1 as [|ev w1 IH]; intros cur; [reflexivity|].
  destruct ev; cbn [app fe_after]; auto.
Qed.

Lemma uses_in_step (h : Z) (w : list Event) :
  Forall (uses h) w ->
  stale_uses (Some h) w = [] /\ fe_after (Some h) w = Some h.
Proof.
  induction 1 as [|ev w Hev _ IH]; [now split|].
  destruct ev; cbn in Hev |- *; try contradiction; auto;
    subst; now rewrite Z.eqb_refl.
Qed.

Lemma keeps_uses {A} (cur : Z) (m : M A) :
  only (uses cur) m -> keeps_in_step cur m (fun _ => cur).
Proof.
  intros H. apply uses_in_step in H. destruct H as [H1 H2].
  split; auto.
Qed.

Lemma keeps_bind {A B} (cur : Z) (m : M A) (f : A -> M B)
    (next : A -> Z) (next' : B -> Z) :
  keeps_in_step cur m next ->
  (forall a, fst m = Done a -> keeps_in_step (next a) (f a) next') ->
  keeps_in_step cur (bind m f) next'.
Proof.
  intros [Hs Hn] Hf.
  destruct (bind_cases m f) as [(a & Ha & ->) | [[Hx ->] | [Hx ->]]];
    unfold keeps_in_step; cbn [fst snd].
  - destruct (Hf a Ha) as [Hs' Hn']. specialize (Hn a Ha). split.
    + now rewrite stale_uses_app, Hs, Hn, Hs'.
    + intros b Hb. rewrite fe_after_app, Hn. now apply Hn'.
  - split; [exact Hs | discriminate].
  - split; [exact Hs | discriminate].
Qed.

Lemma keeps_foldM {S A} (I : S -> Prop) (g : S -> Z) (body : S -> A -> M S)
    (l : list A) :
  (forall s x, I s ->
     keeps_in_step (g s) (body s x) g
     /\ forall s', fst (body s x) = Done s' -> I s') ->
  forall s, I s ->
    keeps_in_step (g s) (foldM body l s) g
    /\ forall s', fst (foldM body l s) = Done s' -> I s'.
Proof.
  intros Hb. induction l as [|x l IH]; intros s Hs; cbn [foldM].
  - split.
    + split; [reflexivity|]. intros a Ha. cbn in Ha |- *. now inversion Ha.
    + intros s' H. cbn in H. inversion H. now subst.
  - destruct (Hb s x Hs) as [Hk Hi]. split.
    + eapply keeps_bind; [exact Hk|].
      intros s1 H1. apply IH. now apply Hi.
    + intros s' H.
      destruct (bind_cases (body s x) (fun s1 => foldM body l s1)) as
        [(s1 & H1 & E) | [[_ E] | [_ E]]]; rewrite E in H; cbn in H;
        try discriminate.
      eapply IH; [apply Hi; exact H1 | exact H].
Qed.

Lemma keeps_locate (loc : Locator) (p : Point) :
  in_step loc ->
  keeps_in_step (coarse_element loc) (locate' loc p) coarse_element
  /\ forall loc', fst (locate' loc p) = Done loc' -> in_step loc'.
Proof.
  intros Hl.
  destruct (contains_point mesh_coarse (coarse_element loc) p) eqn:Hc.
  - rewrite locate_hit by assumption. split.
    + split; [reflexivity|]. intros a Ha. cbn in Ha. now inversion Ha.
    + intros loc' H. cbn in H. inversion H. now subst.
  - rewrite locate_miss by assumption.
    destruct (find_element octree_coarse p) as [h|].
    + split.
      * split; [reflexivity|]. intros a Ha. cbn in Ha. now inversion Ha.
      * intros loc' H. cbn in H. inversion H. reflexivity.
    + split; [split; [reflexivity | discriminate] | discriminate].
Qed.

Lemma uses_interpolate (loc : Locator) (nv c : Z) (mp : Point) :
  only (uses (coarse_element loc)) (interpolate' loc nv c mp).
Proof.
  unfold interpolate, coarse_node.
  repeat first
    [ apply only_vec_at | (apply only_quiet; reflexivity)
    | (apply only_emit; reflexivity)
    | (apply only_foldM; intros)
    | (apply only_bind; [|intros]) ].
Qed.

Lemma uses_node_differences (loc : Locator) (nv gn : Z) (mp : Point)
    (diff : list Real) :
  only (uses (coarse_element loc)) (node_differences' loc nv gn mp diff).
Proof.
  unfold node_differences.
  repeat first
    [ apply uses_interpolate | apply only_vec_at | apply only_vec_set
    | (apply only_foldM; intros)
    | (apply only_bind; [|intros]) ].
Qed.

Ltac reads_only :=
  repeat first
    [ apply only_vec_at | apply only_vec_set | (apply only_quiet; reflexivity)
    | (apply only_foldM; intros)
    | (apply only_bind; [|intros]) ].

Ltac keep_same cur tac :=
  eapply (keeps_bind cur _ _ (fun _ => cur));
  [ apply keeps_uses; tac | intros ? ? ].

Lemma keeps_ret {A} (a : A) (next : A -> Z) :
  keeps_in_step (next a) (ret a) next.
Proof.
  split; [reflexivity|]. intros b Hb. cbn in Hb |- *. now inversion Hb.
Qed.

Lemma only_assert (P : Event -> Prop) (b : bool) : only P (assert b).
Proof. apply only_quiet. now destruct b. Qed.

Lemma keeps_gauss_point (el : Elem) (fe : FEData) (st : Locator * Real) (gp : Z) :
  in_step (fst st) ->
  keeps_in_step (coarse_element (fst st)) (gauss_point' el fe st gp)
    (fun st' => coarse_element (fst st'))
  /\ forall st', fst (gauss_point' el fe st gp) = Done st' -> in_step (fst st').
Proof.
  intros Hst. split.
  - unfold gauss_point.
    keep_same (coarse_element (fst st)) ltac:(apply only_assert).
    keep_same (coarse_element (fst st))
      ltac:(unfold fine_soln_at; reads_only).
    keep_same (coarse_element (fst st)) ltac:(apply only_vec_at).
    eapply keeps_bind; [apply keeps_locate; exact Hst|]. intros loc Hloc.
    keep_same (coarse_element loc) ltac:(apply only_emit; reflexivity).
    keep_same (coarse_element loc) ltac:(apply uses_interpolate).
    keep_same (coarse_element loc) ltac:(apply only_vec_at).
    apply (keeps_ret (loc, _) (fun st' => coarse_element (fst st'))).
  - intros st' H.
    destruct (gauss_point' el fe st gp) as [o w] eqn:E. cbn in H. subst o.
    unfold gauss_point in E.
    apply bind_Done_inv in E. destruct E as (? & ? & ? & _ & E & _).
    apply bind_Done_inv in E. destruct E as (? & ? & ? & _ & E & _).
    apply bind_Done_inv in E. destruct E as (p & ? & ? & _ & E & _).
    apply bind_Done_inv in E. destruct E as (loc & ? & ? & Hl & E & _).
    apply bind_Done_inv in E. destruct E as (? & ? & ? & _ & E & _).
    apply bind_Done_inv in E. destruct E as (? & ? & ? & _ & E & _).
    apply bind_Done_inv in E. destruct E as (? & ? & ? & _ & E & _).
    inversion E; subst. cbn [fst].
    apply (proj2 (keeps_locate (fst st) p Hst)). now rewrite Hl.
Qed.

Lemma keeps_visit (nv : Z) (st : NodalState) (gn : Z) :
  in_step (nodal_locator st) ->
  keeps_in_step (coarse_element (nodal_locator st)) (visit' nv st gn)
    (fun st' => coarse_element (nodal_locator st'))
  /\ forall st', fst (visit' nv st gn) = Done st' -> in_step (nodal_locator st').
Proof.
  intros Hst. split.
  - unfold visit.
    keep_same (coarse_element (nodal_locator st)) ltac:(apply only_vec_at).
    match goal with |- context [if ?b then _ else _] => destruct b end.
    + apply (keeps_ret st (fun st' => coarse_element (nodal_locator st'))).
    + keep_same (coarse_element (nodal_locator st)) ltac:(apply only_vec_set).
      keep_same (coarse_element (nodal_locator st)) ltac:(apply only_vec_at).
      eapply keeps_bind; [apply keeps_locate; exact Hst|]. intros loc Hloc.
      keep_same (coarse_element loc) ltac:(apply only_emit; reflexivity).
      keep_same (coarse_element loc) ltac:(apply uses_node_differences).
      apply (keeps_ret (mkNodal loc _ _)
               (fun st' => coarse_element (nodal_locator st'))).
  - intros st' H.
    destruct (visit' nv st gn) as [o w] eqn:E. cbn in H. subst o.
    unfold visit in E.
    apply bind_Done_inv in E. destruct E as (done & ? & ? & _ & E & _).
    destruct done.
    + inversion E; subst. exact Hst.
    + apply bind_Done_inv in E. destruct E as (? & ? & ? & _ & E & _).
      apply bind_Done_inv in E. destruct E as (p & ? & ? & _ & E & _).
      apply bind_Done_inv in E. destruct E as (loc & ? & ? & Hl & E & _).
      apply bind_Done_inv in E. destruct E as (? & ? & ? & _ & E & _).
      apply bind_Done_inv in E. destruct E as (? & ? & ? & _ & E & _).
      inversion E; subst. cbn [nodal_locator].
      apply (proj2 (keeps_locate (nodal_locator st) p Hst)). now rewrite Hl.
Qed.

(** X1.  Both passes, started with the coarse finite element object initialised
    for the element in the cache slot, call [inverse_map] and [shape] only
    on the element of the last [reinit]: every change of the cached
    element inside a pass is followed by [reinit] before the next use. *)
Theorem passes_keep_fe_in_step (h0 : Z) (acc : Real) (nv : Z)
    (marks : list bool) (diff : list Real) :
  stale_uses None (EvReinit h0 :: snd (error_pass' (mkLocator h0 h0, acc))) = []
  /\ stale_uses None
       (EvReinit h0
        :: snd (nodal_pass' nv (mkNodal (mkLocator h0 h0) marks diff))) = [].
Proof.
  cbn [stale_uses]. split.
  - unfold error_pass.
    apply (keeps_foldM (fun st => in_step (fst st))
             (fun st => coarse_element (fst st))
             _ _) with (s := (mkLocator h0 h0, acc)); [|reflexivity].
    intros st e Hst.
    assert (Hinner :
              forall el,
                keeps_in_step (coarse_element (fst st))
                  (foldM (gauss_point' el (fe_reinit mesh_fine e))
                     (upto (Z.of_nat (length (fe_xyz (fe_reinit mesh_fine e)))))
                     st)
                  (fun st' => coarse_element (fst st'))
                /\ forall st',
                     fst (foldM (gauss_point' el (fe_reinit mesh_fine e))
                            (upto (Z.of_nat (length (fe_xyz (fe_reinit mesh_fine e)))))
                            st) = Done st' -> in_step (fst st')).
    { intros el.
      apply (keeps_foldM (fun st => in_step (fst st))
               (fun st => coarse_element (fst st))); [|exact Hst].
      intros s gp Hs. now apply keeps_gauss_point. }
    destruct (vec_at_cases (mesh_elems mesh_fine) e) as [[el E] | E];
      rewrite E.
    + change (Done el, @nil Event) with (ret el).
      rewrite bind_ret_l. apply Hinner.
    + split; [split; [reflexivity | discriminate] | discriminate].
  - rewrite nodal_pass_visits.
    apply (keeps_foldM (fun st => in_step (nodal_locator st))
             (fun st => coarse_element (nodal_locator st))
             _ _) with (s := mkNodal (mkLocator h0 h0) marks diff);
      [|reflexivity].
    intros st gn Hst. now apply keeps_visit.
Qed.

(** *** Runs that stay on the first coarse element *)

Lemma ensures_ret {A} (P : Event -> Prop) (Q : A -> Prop) (a : A) :
  Q a -> ensures P Q (ret a).
Proof.
  intros H. split; [constructor|]. intros b E. inversion E. now subst.
Qed.

Lemma ensures_only {A} (P : Event -> Prop) (m : M A) :
  only P m -> ensures P (fun _ => True) m.
Proof. intros H. split; [exact H | trivial]. Qed.

Lemma ensures_bind {A B} (P : Event -> Prop) (Q : A -> Prop) (R : B -> Prop)
    (m : M A) (f : A -> M B) :
  ensures P Q m -> (forall a, Q a -> ensures P R (f a)) ->
  ensures P R (bind m f).
Proof.
  intros [Hw Hq] Hf. destruct m as [[a| |] w]; cbn [bind fst snd] in *.
  - destruct (Hf a (Hq a eq_refl)) as [Hw' Hr].
    split; [apply Forall_app; now split | exact Hr].
  - split; [exact Hw | discriminate].
  - split; [exact Hw | discriminate].
Qed.

Lemma ensures_foldM {S A} (P : Event -> Prop) (I : S -> Prop)
    (body : S -> A -> M S) (l : list A) (s : S) :
  (forall s x, I s -> In x l -> ensures P I (body s x)) ->
  I s -> ensures P I (foldM body l s).
Proof.
  revert s. induction l as [|x l IH]; intros s Hb Hs; cbn [foldM].
  - now apply ensures_ret.
  - apply (ensures_bind P I I).
    + apply Hb; [exact Hs | now left].
    + intros s' Hs'. apply IH; [|exact Hs'].
      intros s0 y H0 Hy. apply Hb; [exact H0 | now right].
Qed.

Lemma ensures_vec_at {A} (P : Event -> Prop) (v : list A) (i : Z) :
  ensures P (fun x => In x v) (vec_at v i).
Proof.
  destruct (vec_at_cases v i) as [[x E] | E].
  - split; [rewrite E; constructor|]. intros a Ha.
    rewrite E in Ha. inversion Ha; subst a.
    exact (vec_at_In v i x [] E).
  - rewrite E. split; [constructor | discriminate].
Qed.

Lemma ensures_emit (P : Event -> Prop) (ev : Event) :
  P ev -> ensures P (fun _ => True) (emit ev).
Proof. intros H. split; [repeat constructor; exact H | trivial]. Qed.

Lemma quiet_fine_soln_at (P : Event -> Prop) (el : Elem) (fe : FEData) (gp : Z) :
  only P (fine_soln_at' el fe gp).
Proof.
  unfold fine_soln_at.
  repeat first [ apply only_vec_at | (apply only_quiet; reflexivity)
               | (apply only_foldM; intros) | (apply only_bind; [|intros]) ].
Qed.

Lemma stays_interpolate (loc : Locator) (nv c : Z) (mp : Point) :
  only (stays_on (coarse_element loc)) (interpolate' loc nv c mp).
Proof.
  unfold interpolate, coarse_node.
  repeat first [ apply only_vec_at | (apply only_quiet; reflexivity)
               | (apply only_emit; reflexivity)
               | (apply only_foldM; intros) | (apply only_bind; [|intros]) ].
Qed.

Lemma stays_node_differences (loc : Locator) (nv gn : Z) (mp : Point)
    (diff : list Real) :
  only (stays_on (coarse_element loc)) (node_differences' loc nv gn mp diff).
Proof.
  unfold node_differences.
  repeat first [ apply stays_interpolate | apply only_vec_at | apply only_vec_set
               | (apply only_foldM; intros) | (apply only_bind; [|intros]) ].
Qed.

Section CacheHits.

(** The first coarse element holds every quadrature point and every
    node of the fine mesh. *)
Hypothesis gauss_in_first :
  forall e p, 0 <= e < n_elem mesh_fine ->
              In p (fe_xyz (fe_reinit mesh_fine e)) ->
              contains_point mesh_coarse 0 p = true.
Hypothesis nodes_in_first :
  forall p, In p (mesh_points mesh_fine) ->
            contains_point mesh_coarse 0 p = true.

Lemma stays_gauss_point (el : Elem) (e : Z) (st : Locator * Real) (gp : Z) :
  0 <= e < n_elem mesh_fine ->
  coarse_element (fst st) = 0 ->
  ensures (stays_on 0) (fun st' => coarse_element (fst st') = 0)
    (gauss_point' el (fe_reinit mesh_fine e) st gp).
Proof.
  intros He Hst. unfold gauss_point.
  apply (ensures_bind _ (fun _ => True)).
  { apply ensures_only. unfold assert.
    destruct (_ =? _); now apply only_quiet. }
  intros _ _. apply (ensures_bind _ (fun _ => True)).
  { apply ensures_only, quiet_fine_soln_at. }
  intros fs _. apply (ensures_bind _ _ _ _ _ (ensures_vec_at _ _ _)).
  intros p Hp.
  rewrite locate_hit by (rewrite Hst; exact (gauss_in_first e p He Hp)).
  change (Done (fst st), @nil Event) with (ret (fst st)). rewrite bind_ret_l.
  apply (ensures_bind _ (fun _ => True)).
  { apply ensures_emit. exact Hst. }
  intros _ _. apply (ensures_bind _ (fun _ => True)).
  { apply ensures_only. rewrite <- Hst at 1. apply stays_interpolate. }
  intros cs _. apply (ensures_bind _ (fun _ => True)).
  { apply ensures_only, only_vec_at. }
  intros w _. apply ensures_ret. exact Hst.
Qed.

Lemma stays_visit (nv : Z) (st : NodalState) (gn : Z) :
  coarse_element (nodal_locator st) = 0 ->
  ensures (stays_on 0) (fun st' => coarse_element (nodal_locator st') = 0)
    (visit' nv st gn).
Proof.
  intros Hst. unfold visit.
  apply (ensures_bind _ (fun _ => True)).
  { apply ensures_only, only_vec_at. }
  intros done _. destruct done; [now apply ensures_ret|].
  apply (ensures_bind _ (fun _ => True)).
  { apply ensures_only, only_vec_set. }
  intros marked _. apply (ensures_bind _ _ _ _ _ (ensures_vec_at _ _ _)).
  intros p Hp.
  rewrite locate_hit by (rewrite Hst; exact (nodes_in_first p Hp)).
  change (Done (nodal_locator st), @nil Event) with (ret (nodal_locator st)).
  rewrite bind_ret_l.
  apply (ensures_bind _ (fun _ => True)).
  { apply ensures_emit. exact Hst. }
  intros _ _. apply (ensures_bind _ (fun _ => True)).
  { apply ensures_only. rewrite <- Hst at 1. apply stays_node_differences. }
  intros diff _. apply ensures_ret. exact Hst.
Qed.

(** X12.  When the first coarse element holds every quadrature point of
    the fine elements and every node of the fine mesh, the run never searches the octree and
    never leaves that element: [reinit], [inverse_map] and [shape] are
    called for element 0 only. *)
Theorem run_inside_first_element_never_searches :
  only (stays_on 0) transfer'.
Proof.
  assert (H : ensures (stays_on 0) (fun _ => True) transfer');
    [|exact (proj1 H)].
  unfold transfer, mesh_elem.
  destruct ((0 <=? 0) && (0 <? n_elem mesh_coarse));
    [|split; [constructor | trivial]].
  change (Done 0, @nil Event) with (ret 0). rewrite bind_ret_l.
  apply (ensures_bind _ (fun _ => True)).
  { now apply ensures_emit. }
  intros _ _.
  apply (ensures_bind _ (fun st => coarse_element (fst st) = 0)).
  { unfold error_pass.
    apply (ensures_foldM _ (fun st => coarse_element (fst st) = 0));
      [|reflexivity].
    intros st e Hst He. apply In_upto in He.
    apply (ensures_bind _ (fun _ => True)).
    { apply ensures_only, only_vec_at. }
    intros el _.
    apply (ensures_foldM _ (fun st => coarse_element (fst st) = 0));
      [|exact Hst].
    intros st' gp Hst' _. now apply stays_gauss_point. }
  intros st Hst. apply (ensures_bind _ (fun _ => True)).
  { now apply ensures_emit. }
  intros _ _. rewrite bind_ret_l.
  apply (ensures_bind _ (fun _ => True)).
  { rewrite nodal_pass_visits.
    match goal with
    | |- ensures _ _ (foldM ?body ?l ?s) =>
        destruct (ensures_foldM (stays_on 0)
                    (fun st => coarse_element (nodal_locator st) = 0)
                    body l s) as [Hw _];
          [ intros s0 gn H0 _; now apply stays_visit | reflexivity
          | split; [exact Hw | trivial] ]
    end. }
  intros nst _. now apply ensures_emit.
Qed.

End CacheHits.

End TransferFacts.


(** ** The results of a whole run *)

Section MainResults.

Variable contains_point : Mesh -> Z -> Point -> bool.
Variable OctTree : Type.
Variable octree_build : Mesh -> Z -> OctTree.
Variable find_element : OctTree -> Point -> option Z.
Variable n_active_bins : OctTree -> Z.
Variable fe_reinit : Mesh -> Z -> FEData.
Variable inverse_map : Mesh -> Z -> Point -> Point.
Variable shape : Mesh -> Z -> Z -> Point -> Real.
Variable read_mesh : string -> Mesh.
Variable read_mgf_soln : Mesh -> string -> list Real * list string.
Variable atoi : string -> Z.

Local Abbreviation main' :=
  (main contains_point OctTree octree_build find_element n_active_bins
        fe_reinit inverse_map shape read_mesh read_mgf_soln atoi).

(** A run of [main] that ends well, taken apart. *)
Lemma main_Done_inv (argv : list string) (w : list Event) :
  let mesh_coarse := read_mesh (argv_at argv 2) in
  let mesh_fine := read_mesh (argv_at argv 3) in
  let coarse := read_mgf_soln mesh_coarse (argv_at argv 4) in
  let fine := read_mgf_soln mesh_fine (argv_at argv 5) in
  let octree := octree_build mesh_coarse 100 in
  main' argv = (Done tt, w) ->
  (6 <= length argv)%nat
  /\ snd coarse = snd fine
  /\ exists wt,
       transfer contains_point OctTree find_element fe_reinit inverse_map
         shape mesh_coarse mesh_fine (fst coarse) (fst fine) (snd coarse)
         (snd fine) (atoi (argv_at argv 1)) octree = (Done tt, wt)
       /\ w = preamble argv
              ++ EvOctreeBuild :: EvActiveBins (n_active_bins octree) :: wt.
Proof.
  intros mesh_coarse mesh_fine coarse fine octree H.
  unfold main in H. fold mesh_coarse mesh_fine in H.
  fold coarse fine in H. fold octree in H.
  destruct (Z.of_nat (length argv) <? 6) eqn:E; [discriminate|].
  apply Z.ltb_ge in E. split; [lia|].
  destruct (list_eq_dec string_dec (snd fine) (snd coarse)) as [Heq | Hne];
    [|discriminate].
  split; [now symmetry|].
  cbn in H.
  destruct (transfer contains_point OctTree find_element fe_reinit
              inverse_map shape mesh_coarse mesh_fine (fst coarse) (fst fine)
              (snd coarse) (snd fine) (atoi (argv_at argv 1)) octree)
    as [o wt] eqn:Et.
  cbn in H. inversion H; subst. exists wt. split; reflexivity.
Qed.

Lemma In_locator_events (w : list Event) (ev : Event) :
  Forall locator_event w -> In ev w -> locator_event ev.
Proof. intros H. rewrite Forall_forall in H. apply H. Qed.

(** C3.  For a run that ends well on inputs whose indices are unsigned
    integers: the error the run reports, and it reports one, is the square
    root of the sum, over the fine elements and their quadrature points in
    sweep order, of [JxW[gp] * (coarse_soln - fine_soln)^2], where
    [fine_soln] sums [fine_field[global_node * nv + ivar] * phi[i][gp]]
    over the local nodes of the fine element and [coarse_soln] is the
    interpolation, by [inverse_map] and [shape], on the coarse element the
    cached locator selects for the point, starting from element 0, with
    the coarse finite element object initialised for that element. *)
Theorem reported_error_is_l2_norm (argv : list string) (w : list Event) :
  let mesh_coarse := read_mesh (argv_at argv 2) in
  let mesh_fine := read_mesh (argv_at argv 3) in
  let coarse_solution := fst (read_mgf_soln mesh_coarse (argv_at argv 4)) in
  let fine_solution := fst (read_mgf_soln mesh_fine (argv_at argv 5)) in
  let nv := Z.of_nat (length (snd (read_mgf_soln mesh_fine (argv_at argv 5)))) in
  let ivar := atoi (argv_at argv 1) in
  let octree := octree_build mesh_coarse 100 in
  nv < 2 ^ 32 ->
  indices_fit mesh_fine nv ivar ->
  indices_fit mesh_coarse nv ivar ->
  main' argv = (Done tt, w) ->
  exists locs,
    sweep_words contains_point OctTree find_element mesh_coarse octree
      (mkLocator 0 0)
      (map (gauss_xyz fe_reinit mesh_fine) (gauss_points fe_reinit mesh_fine))
    = Some locs
    /\ length locs = length (gauss_points fe_reinit mesh_fine)
    /\ Forall in_step locs
    /\ forall err,
         In (EvComputedError err) w
         <-> err = l2_error fe_reinit inverse_map shape mesh_coarse mesh_fine
                     coarse_solution fine_solution nv ivar locs.
Proof.
  intros mesh_coarse mesh_fine coarse_solution fine_solution nv ivar octree
         Hnv Hfine Hcoarse H.
  apply main_Done_inv in H. destruct H as (_ & Hnames & wt & Ht & ->).
  fold mesh_coarse mesh_fine in Hnames, Ht. fold coarse_solution in Ht.
  fold fine_solution ivar octree in Ht.
  apply transfer_Done_inv in Ht.
  destruct Ht as (_ & st & w1 & nst & w2 & H1 & H2 & ->).
  pose proof (only_error_pass contains_point OctTree find_element fe_reinit
                inverse_map shape mesh_coarse mesh_fine coarse_solution
                fine_solution
                (snd (read_mgf_soln mesh_coarse (argv_at argv 4)))
                (snd (read_mgf_soln mesh_fine (argv_at argv 5)))
                ivar octree (mkLocator 0 0, zero)) as Ho1.
  rewrite H1 in Ho1. unfold only in Ho1. cbn [snd] in Ho1.
  pose proof (only_nodal_pass contains_point OctTree find_element fe_reinit
                inverse_map shape mesh_coarse mesh_fine coarse_solution
                fine_solution octree
                (wrap32 (Z.of_nat (length (snd (read_mgf_soln mesh_fine
                                                  (argv_at argv 5))))))
                (mkNodal (mkLocator 0 (fe_coarse (fst st)))
                   (repeat false (Z.to_nat (wrap32 (n_nodes mesh_fine))))
                   (repeat zero (length fine_solution)))) as Ho2.
  rewrite H2 in Ho2. unfold only in Ho2. cbn [snd] in Ho2.
  apply error_pass_Done in H1; auto.
  destruct H1 as (locs & Hs & _ & Herr).
  exists locs. split; [exact Hs|]. fold nv in Herr.
  split; [rewrite (sweep_words_length _ _ _ _ _ _ _ _ Hs); apply length_map|].
  split.
  { eapply sweep_words_in_step; [|exact Hs]. reflexivity. }
  intros err. split.
  - intros Hin. apply in_app_or in Hin. destruct Hin as [Hin | Hin].
    + cbn in Hin. repeat (destruct Hin as [Hin | Hin]; [discriminate|]).
      contradiction.
    + cbn [In] in Hin.
      destruct Hin as [Hin | [Hin | [Hin | Hin]]]; try discriminate.
      apply in_app_or in Hin. destruct Hin as [Hin | Hin].
      * now apply (In_locator_events _ _ Ho1) in Hin.
      * cbn [In] in Hin. destruct Hin as [Hin | Hin].
        -- inversion Hin. now rewrite <- Herr.
        -- apply in_app_or in Hin. destruct Hin as [Hin | Hin].
           ++ now apply (In_locator_events _ _ Ho2) in Hin.
           ++ cbn in Hin. destruct Hin as [Hin | []]. discriminate.
  - intros ->. apply in_or_app. right. right. right. right.
    apply in_or_app. right. left. now rewrite Herr.
Qed.


(** X14.  A fine mesh without elements: with six arguments, equal lists
    of variable names and a coarse mesh that has an element, the run ends
    well; it reports the error 0 and writes a field of zeros, as long as
    the fine solution, without one search or interpolation. *)
Theorem empty_fine_mesh_reports_zero (argv : list string) :
  let mesh_coarse := read_mesh (argv_at argv 2) in
  let mesh_fine := read_mesh (argv_at argv 3) in
  let coarse := read_mgf_soln mesh_coarse (argv_at argv 4) in
  let fine := read_mgf_soln mesh_fine (argv_at argv 5) in
  let octree := octree_build mesh_coarse 100 in
  (6 <= length argv)%nat ->
  snd fine = snd coarse ->
  mesh_elems mesh_fine = [] ->
  mesh_elems mesh_coarse <> [] ->
  main' argv
  = (Done tt,
     preamble argv
     ++ [EvOctreeBuild; EvActiveBins (n_active_bins octree); EvReinit 0;
         EvComputedError zero;
         EvWriteNodalData "foo.plt" (repeat zero (length (fst fine)))
           (snd fine)]).
Proof.
  intros mesh_coarse mesh_fine coarse fine octree Hlen Hnames Hfine Hcoarse.
  unfold main. fold mesh_coarse mesh_fine. fold coarse fine. fold octree.
  destruct (Z.ltb_spec (Z.of_nat (length argv)) 6); [lia|].
  destruct (list_eq_dec string_dec (snd fine) (snd coarse)); [|contradiction].
  unfold transfer, error_pass, nodal_pass, mesh_elem, n_elem.
  rewrite Hfine.
  destruct (mesh_elems mesh_coarse) as [|el els]; [contradiction|].
  replace ((0 <=? 0) && (0 <? Z.of_nat (length (el :: els)))) with true
    by (symmetry; apply andb_true_intro; split;
        [reflexivity | apply Z.ltb_lt; cbn [length]; lia]).
  reflexivity.
Qed.

End MainResults.

(** ** The cached locator and the octree *)

Lemma find_in_bin_sound (cp : Z -> Point -> bool) (b : Trees.Bin) (p : Point)
    (h : Z) :
  Trees.find_in_bin cp b p = Some h -> cp h p = true.
Proof.
  induction b as [r es | r c0 IH0 c1 IH1 c2 IH2 c3 IH3 c4 IH4 c5 IH5 c6 IH6 c7 IH7];
    cbn [Trees.find_in_bin].
  - intros H. apply find_some in H. apply H.
  - cbv zeta.
    repeat match goal with
           | |- context [if Trees.bbox_contains ?r p then _ else _] =>
               destruct (Trees.bbox_contains r p)
           | |- context [match Trees.find_in_bin cp ?c p with _ => _ end] =>
               destruct (Trees.find_in_bin cp c p) eqn:?
           end;
      intros H; inversion H; subst; auto.
Qed.

Lemma find_element_sound (contains_point : Mesh -> Z -> Point -> bool)
    (t : Trees.OctTree) (p : Point) (h : Z) :
  Trees.find_element contains_point t p = Some h ->
  contains_point (Trees.tree_mesh t) h p = true.
Proof.
  unfold Trees.find_element.
  destruct (Trees.bbox_contains _ p); [|discriminate].
  apply find_in_bin_sound.
Qed.

Lemma find_in_bin_in_range (cp : Z -> Point -> bool) (n : Z) (b : Trees.Bin)
    (p : Point) (h : Z) :
  Trees.bin_in_range n b = true ->
  Trees.find_in_bin cp b p = Some h -> 0 <= h < n.
Proof.
  induction b as [r es | r c0 IH0 c1 IH1 c2 IH2 c3 IH3 c4 IH4 c5 IH5 c6 IH6 c7 IH7];
    cbn [Trees.find_in_bin Trees.bin_in_range].
  - intros Hr H. apply find_some in H. destruct H as [Hin _].
    rewrite forallb_forall in Hr. specialize (Hr h Hin).
    apply andb_prop in Hr. destruct Hr as [H0 H1].
    apply Z.leb_le in H0. apply Z.ltb_lt in H1. lia.
  - cbv zeta. intros Hr.
    repeat match goal with
           | Hb : _ && _ = true |- _ =>
               apply andb_prop in Hb; destruct Hb
           end.
    repeat match goal with
           | |- context [if Trees.bbox_contains ?r p then _ else _] =>
               destruct (Trees.bbox_contains r p)
           | |- context [match Trees.find_in_bin cp ?c p with _ => _ end] =>
               destruct (Trees.find_in_bin cp c p) eqn:?
           end;
      intros Hfound; inversion Hfound; subst; auto.
Qed.

Lemma find_element_in_range (contains_point : Mesh -> Z -> Point -> bool)
    (t : Trees.OctTree) (p : Point) (h : Z) :
  Trees.tree_in_range t = true ->
  Trees.find_element contains_point t p = Some h ->
  0 <= h < n_elem (Trees.tree_mesh t).
Proof.
  unfold Trees.find_element, Trees.tree_in_range. intros Hr.
  destruct (Trees.bbox_contains _ p); [|discriminate].
  now apply find_in_bin_in_range.
Qed.

Section CachedLocator.

Variable contains_point : Mesh -> Z -> Point -> bool.
Variable mesh_coarse : Mesh.

(** C1, as the code has it.  For an octree over the coarse mesh that
    holds elements of the mesh, and a cache slot that holds one: on a
    miss of the remembered element the locator selects exactly what
    [find_element] returns for the point (and stops the run when it
    returns nothing); on a hit it selects the remembered element, with no
    search, and this element passes the containment test as does the one
    [find_element] would return, an element of the mesh; the two are the
    same element when only one element of the mesh passes the test for
    the point. *)
Theorem cached_locator_agrees_where_unique
    (t : Trees.OctTree) (loc : Locator) (p : Point) :
  Trees.tree_mesh t = mesh_coarse ->
  Trees.tree_in_range t = true ->
  0 <= coarse_element loc < n_elem mesh_coarse ->
  let find := Trees.find_element contains_point in
  let r := locate contains_point Trees.OctTree find mesh_coarse t loc p in
  (contains_point mesh_coarse (coarse_element loc) p = false ->
   r = match find t p with
       | Some h => (Done (mkLocator h h), [EvFindElement p; EvReinit h])
       | None => (Fatal, [EvFindElement p])
       end)
  /\ (contains_point mesh_coarse (coarse_element loc) p = true ->
      r = (Done loc, [])
      /\ forall h,
           find t p = Some h ->
           0 <= h < n_elem mesh_coarse
           /\ contains_point mesh_coarse h p = true
           /\ ((forall h1 h2,
                   0 <= h1 < n_elem mesh_coarse ->
                   0 <= h2 < n_elem mesh_coarse ->
                   contains_point mesh_coarse h1 p = true ->
                   contains_point mesh_coarse h2 p = true -> h1 = h2) ->
               coarse_element loc = h)).
Proof.
  intros Hmesh Htree Hloc find r. split.
  - intros Hc. subst r. now apply locate_miss.
  - intros Hc. split; [subst r; now apply locate_hit|].
    intros h Hf.
    pose proof (find_element_in_range _ _ _ _ Htree Hf) as Hh.
    apply find_element_sound in Hf. rewrite Hmesh in Hf, Hh.
    split; [exact Hh|]. split; [exact Hf|]. intros Huniq.
    now apply Huniq.
Qed.

End CachedLocator.

(** ** The run on the two meshes of segments *)

Module ScenarioFacts.
Import Scenario.

Lemma run_ends_well : run argv = (Done tt, snd (run argv)).
Proof. vm_compute. reflexivity. Qed.

Lemma fine_indices_fit : indices_fit fine 1 0.
Proof.
  intros el gn He Hg. cbn in He.
  repeat (destruct He as [<- | He]; [cbn in Hg; lia|]). contradiction.
Qed.

Lemma coarse_indices_fit (c : Z) : 0 <= c < 1 -> indices_fit coarse 1 c.
Proof.
  intros Hc el gn He Hg. cbn in He.
  repeat (destruct He as [<- | He]; [cbn in Hg; lia|]). contradiction.
Qed.

(** C1, as stated, fails on the node shared by the two coarse segments:
    in the nodal pass the locator remembers element 1 when it meets the
    node at abscissa 1, the element holds the node, and the node is
    interpolated there, while [find_element] returns element 0 for it. *)
Lemma cached_locator_differs_on_shared_node :
  locate contains_point Trees.OctTree find_element coarse
    (octree_build coarse 100) (mkLocator 1 1) (P 1%float)
  = (Done (mkLocator 1 1), [])
  /\ In (1, P 1%float) (inverse_maps (snd (run argv)))
  /\ find_element (octree_build coarse 100) (P 1%float) = Some 0.
Proof.
  split; [vm_compute; reflexivity|].
  split; [vm_compute; tauto | vm_compute; reflexivity].
Qed.

Lemma cached_locator_agrees_where_unique_witness :
  locate contains_point Trees.OctTree find_element coarse
    (octree_build coarse 100) (mkLocator 1 1) (P 1.75%float)
  = (Done (mkLocator 1 1), [])
  /\ find_element (octree_build coarse 100) (P 1.75%float)
     = Some (coarse_element (mkLocator 1 1)).
Proof.
  destruct (cached_locator_agrees_where_unique contains_point coarse
              (octree_build coarse 100) (mkLocator 1 1) (P 1.75%float)
              eq_refl eq_refl ltac:(cbn; lia)) as [_ Hhit].
  destruct (Hhit eq_refl) as [Hr Hfind]. split; [exact Hr|].
  destruct (Hfind 1 eq_refl) as (_ & _ & Huniq).
  rewrite Huniq; [reflexivity|].
  intros h1 h2 H1 H2 C1 C2.
  assert (E1 : h1 = 0 \/ h1 = 1) by (cbn in H1; lia).
  assert (E2 : h2 = 0 \/ h2 = 1) by (cbn in H2; lia).
  destruct E1 as [-> | ->], E2 as [-> | ->]; try reflexivity;
    first [discriminate C1 | discriminate C2].
Defined.

(** C5 on this run: the error pass ends with the coarse finite element
    object initialised for element 1; the nodal pass puts element 0 back
    into the cache slot and, the first two nodes lying in element 0, calls
    [inverse_map] and [shape] for element 0 with no [reinit] in between. *)
Theorem nodal_pass_uses_stale_fe_state :
  fst (run argv) = Done tt
  /\ stale_uses None (snd (run argv))
     = [EvInverseMap 0 (P 0%float);
        EvShape 0 0 (P (-1)%float); EvShape 0 1 (P (-1)%float);
        EvInverseMap 0 (P 0.5%float);
        EvShape 0 0 (P 0%float); EvShape 0 1 (P 0%float)].
Proof. split; vm_compute; reflexivity. Qed.

Lemma reported_error_is_l2_norm_witness :
  In (EvComputedError 0.125%float) (snd (run argv)).
Proof.
  destruct (reported_error_is_l2_norm contains_point Trees.OctTree
              octree_build find_element Trees.n_active_bins fe_reinit
              inverse_map shape read_mesh read_mgf_soln atoi argv
              (snd (run argv)) ltac:(vm_compute; reflexivity)
              fine_indices_fit (coarse_indices_fit 0 ltac:(lia))
              run_ends_well)
    as (locs & Hs & _ & _ & Herr).
  apply Herr. vm_compute in Hs. inversion Hs. vm_compute. reflexivity.
Defined.


Lemma usage_error_before_any_read_witness :
  run short_argv
  = (Fatal, [EvStderr "Usage: compare ivar m0.mesh m1.mesh s0.soln s1.soln"]).
Proof.
  exact (proj1 (usage_error_before_any_read contains_point Trees.OctTree
                  octree_build find_element Trees.n_active_bins fe_reinit
                  inverse_map shape read_mesh read_mgf_soln atoi short_argv
                  ltac:(cbn; lia))).
Defined.

Lemma name_mismatch_is_fatal_before_numerics_witness :
  fst (run mismatched_argv) = Fatal.
Proof.
  exact (proj1 (name_mismatch_is_fatal_before_numerics contains_point
                  Trees.OctTree octree_build find_element
                  Trees.n_active_bins fe_reinit inverse_map shape read_mesh
                  read_mgf_soln atoi mismatched_argv ltac:(cbn; lia)
                  ltac:(vm_compute; discriminate))).
Defined.


(** On the coarse mesh of one segment the first element holds all the
    points of the fine mesh. *)
Lemma run_inside_first_element_never_searches_witness :
  only (stays_on 0)
    (transfer contains_point Trees.OctTree find_element fe_reinit
       inverse_map shape whole fine [0; 1; 2]%float fine_field
       ["u"%string] ["u"%string] 0 (octree_build whole 100)).
Proof.
  apply run_inside_first_element_never_searches.
  - intros e p He Hp.
    assert (E : e = 0 \/ e = 1 \/ e = 2 \/ e = 3) by (cbn in He; lia).
    destruct E as [-> | [-> | [-> | ->]]];
      (destruct Hp as [<- | []]; vm_compute; reflexivity).
  - intros p Hp. cbn in Hp.
    repeat (destruct Hp as [<- | Hp]; [vm_compute; reflexivity|]).
    destruct Hp.
Defined.

Lemma empty_fine_mesh_reports_zero_witness :
  main contains_point Trees.OctTree octree_build find_element
    Trees.n_active_bins fe_reinit inverse_map shape
    (fun path => if String.eqb path "coarse.mesh" then coarse
                 else mkMesh [] [])
    (fun _ path => if String.eqb path "coarse.soln"
                   then (coarse_field, ["u"%string])
                   else ([], ["u"%string]))
    atoi argv
  = (Done tt,
     preamble argv
     ++ [EvOctreeBuild; EvActiveBins 1; EvReinit 0; EvComputedError zero;
         EvWriteNodalData "foo.plt" [] ["u"%string]]).
Proof.
  apply (empty_fine_mesh_reports_zero contains_point Trees.OctTree
           octree_build find_element Trees.n_active_bins fe_reinit
           inverse_map shape
           (fun path => if String.eqb path "coarse.mesh" then coarse
                        else mkMesh [] [])
           (fun _ path => if String.eqb path "coarse.soln"
                          then (coarse_field, ["u"%string])
                          else ([], ["u"%string]))
           atoi argv).
  - cbn. lia.
  - reflexivity.
  - reflexivity.
  - discriminate.
Defined.

End ScenarioFacts.


(** ** The run on the mesh of mixed order *)

Module MixedFacts.
Import Mixed.

(** C4 on this run, the mesh compared with itself for two fields that
    differ at the mid node of the quadratic segment.  The error pass
    ends on the linear segment, with the coarse finite element object
    holding two shape functions; the nodal pass puts the quadratic
    segment back into the cache slot without [reinit] (line 227) and
    sums two of its three shape functions at its nodes.  At the mid node
    the coarse value minus the fine value is [10 - 7 = 3]; the run
    writes [-7]. *)
Theorem nodal_difference_misses_the_mid_node :
  fst (run other_argv) = Done tt
  /\ In (EvWriteNodalData "foo.plt" [0; -7; 0; 0]%float ["u"%string])
        (snd (run other_argv))
  /\ nodal_difference fe_reinit Scenario.inverse_map shape mesh mesh field
       other_field 1 1 (mkLocator 0 0) 0 = 3%float
  /\ stale_uses None (snd (run other_argv))
     = [EvInverseMap 0 (Scenario.P 0%float);
        EvShape 0 0 (Scenario.P (-1)%float);
        EvShape 0 1 (Scenario.P (-1)%float);
        EvInverseMap 0 (Scenario.P 2%float);
        EvShape 0 0 (Scenario.P 1%float); EvShape 0 1 (Scenario.P 1%float);
        EvInverseMap 0 (Scenario.P 1%float);
        EvShape 0 0 (Scenario.P 0%float); EvShape 0 1 (Scenario.P 0%float)].
Proof.
  split; [vm_compute; reflexivity|].
  split; [vm_compute; tauto|].
  split; vm_compute; reflexivity.
Qed.

(** C7 on this run, the mesh and its field compared with themselves,
    with nodal shape functions.  The error is zero and the run ends
    well, but the difference written for the mid node of the quadratic
    segment is [-10], where the interpolation on that segment gives the
    field's own value and the difference zero: the nodal pass sums two
    of the three shape functions, as the coarse finite element object
    was last initialised for the linear segment (line 227). *)
Theorem identical_inputs_give_a_difference :
  read_mesh (argv_at same_argv 2) = read_mesh (argv_at same_argv 3)
  /\ read_mgf_soln mesh (argv_at same_argv 4)
     = read_mgf_soln mesh (argv_at same_argv 5)
  /\ fst (run same_argv) = Done tt
  /\ In (EvComputedError zero) (snd (run same_argv))
  /\ In (EvWriteNodalData "foo.plt" [0; -10; 0; 0]%float ["u"%string])
        (snd (run same_argv))
  /\ nodal_difference fe_reinit Scenario.inverse_map shape mesh mesh field
       field 1 1 (mkLocator 0 0) 0 = zero.
Proof.
  split; [reflexivity|]. split; [reflexivity|].
  split; [vm_compute; reflexivity|].
  split; [vm_compute; tauto|].
  split; [vm_compute; tauto | vm_compute; reflexivity].
Qed.

End MixedFacts.
